(** * NovaBot knowledge-base tools: a model of the scripts and their properties

    The development follows the Python sources:
      - [fix_csv_encoding.py]            (modules [Normalizer], [Fixer])
      - [process_knowledge_base.py]      (modules [Extractor], [Synthesizer])
      - [process_web_documentation.py]   (modules [Classifier],
                                          [Documentation])
      - [scripts/manage_knowledge_base.py] (module [Manager])

    Conventions of the model:
      - A Python [str] is a sequence of Unicode code points, a list of [N].
        [str.strip], [str.split], [str.join], [in] and the regular
        expressions of the extractor are written out.  The Unicode case
        tables behind [str.lower] and [str.upper] are parameters; where a
        property needs them it assumes their behaviour on ASCII text, and
        the scenarios, whose texts are ASCII, are evaluated with the ASCII
        mapping.
      - A CSV file is the table of its rows of cells, as the [csv] writer
        is handed them; quoting and tokenising belong to the library, and
        a file is taken to hold text in the encoding in which it is
        opened.  Reading goes through a text-mode handle opened without
        [newline=''], which turns [\r\n] and [\r] into [\n], and through
        [csv.reader], which yields the rows one by one and raises
        [csv.Error] at the first cell longer than its field size limit
        (131072 characters, the default, which no script changes).
      - The order in which Python walks a [set] of strings follows from
        their hashes, which change with the hash seed of the run: it is a
        parameter, as the case tables are, and the properties hold for
        every order.
      - The knowledge-base directory is the list of its [*.csv] files in
        the order in which [glob] yields them; writing a file that exists
        keeps its place.
      - A function that can raise returns a [result]; a function that
        writes files takes the directory and returns the new one.
        Messages printed on the console are left out. *)

From Stdlib Require Import NArith Ascii String Lia.
From stdpp Require Import base option list sorting gmap strings.

Local Open Scope N_scope.

(** ** Text *)

Abbreviation text := (list N).

(** A Python literal that only uses ASCII characters. *)
Definition cps (s : string) : text :=
  List.map N_of_ascii (list_ascii_of_string s).

(** [str.isspace] on one code point (the set that [str.strip()] and the
    regex class [\s] use). *)
Definition isspace (c : N) : bool :=
  ((9 <=? c) && (c <=? 13)) || ((28 <=? c) && (c <=? 32))
  || (c =? 133) || (c =? 160) || (c =? 5760)
  || ((8192 <=? c) && (c <=? 8202))
  || (c =? 8232) || (c =? 8233) || (c =? 8239) || (c =? 8287) || (c =? 12288).

Fixpoint lstrip (t : text) : text :=
  match t with
  | c :: t' => if isspace c then lstrip t' else t
  | [] => []
  end.

Definition rstrip (t : text) : text := reverse (lstrip (reverse t)).

(** [s.strip()] *)
Definition strip (t : text) : text := rstrip (lstrip t).

(** [s.split(sep)] for a one-character separator: never an empty list. *)
Fixpoint split_on (sep : N) (t : text) : list text :=
  match t with
  | [] => [[]]
  | c :: t' =>
      if c =? sep then [] :: split_on sep t'
      else match split_on sep t' with
           | p :: ps => (c :: p) :: ps
           | [] => [[c]]
           end
  end.

(** [sep.join(parts)] for a one-character separator. *)
Fixpoint join_with (sep : N) (parts : list text) : text :=
  match parts with
  | [] => []
  | [p] => p
  | p :: ps => p ++ sep :: join_with sep ps
  end.

(** The length of the joined parts and one more: each part counts with
    the separator that follows it or with the end of the text. *)
Definition weight (parts : list text) : nat :=
  sum_list (map (λ p, S (length p)) parts).

(** Python truthiness of a string. *)
Definition nonempty (t : text) : bool :=
  match t with [] => false | _ => true end.

(** [needle in haystack] for strings. *)
Fixpoint starts_with (p t : text) : bool :=
  match p, t with
  | [], _ => true
  | a :: p', b :: t' => (a =? b) && starts_with p' t'
  | _ :: _, [] => false
  end.

Fixpoint contains (needle hay : text) : bool :=
  starts_with needle hay ||
  match hay with
  | [] => false
  | _ :: hay' => contains needle hay'
  end.

(** ASCII case mapping, the restriction of the Unicode one to ASCII. *)
Definition ascii_lower (c : N) : N :=
  if (65 <=? c) && (c <=? 90) then c + 32 else c.

Definition ascii_upper (c : N) : N :=
  if (97 <=? c) && (c <=? 122) then c - 32 else c.

Definition is_ascii (t : text) : Prop := Forall (λ c, c < 128) t.

(** A text that does not start with a white-space character. *)
Definition no_space_first (t : text) : Prop :=
  match t with
  | [] => True
  | c :: _ => isspace c = false
  end.

(** ** Character normalizer ([fix_csv_encoding.py]) *)

Module Normalizer.

(** [CSVEncodingFixer.character_replacements], in insertion order. *)
Definition character_replacements : list (N * text) :=
  [ (0x00ae, cps "(R)"); (0x2122, cps "(TM)"); (0x00a9, cps "(C)");
    (0x2018, cps "'"); (0x2019, cps "'");
    (0x201c, [34]); (0x201d, [34]); (0x2033, [34]); (0x2032, cps "'");
    (0x2013, cps "-"); (0x2014, cps "-"); (0x2212, cps "-");
    (0x00a0, cps " "); (0x2009, cps " "); (0x2003, cps " "); (0x2002, cps " ");
    (0x2022, cps "*"); (0x2026, cps "..."); (0x2010, cps "-"); (0x2011, cps "-");
    (0x20ac, cps "EUR"); (0x00a3, cps "GBP"); (0x00a5, cps "JPY") ].

(** One reported change: the f-string of the source renders the
    character, its code point, the replacement and the count. *)
Record change := Change {
  ch_char : N;
  ch_replacement : text;
  ch_count : nat
}.

(** [problematic_char in fixed_text] *)
Definition char_in (c : N) (t : text) : bool := existsb (N.eqb c) t.

(** [fixed_text.count(problematic_char)] *)
Definition str_count (c : N) (t : text) : nat :=
  length (List.filter (N.eqb c) t).

(** [fixed_text.replace(problematic_char, replacement)] *)
Fixpoint str_replace (c : N) (r : text) (t : text) : text :=
  match t with
  | [] => []
  | x :: t' => (if x =? c then r else [x]) ++ str_replace c r t'
  end.

(** The [for] loop of [fix_text] over the table. *)
Fixpoint fix_loop (table : list (N * text)) (fixed_text : text)
    (changes : list change) : text * list change :=
  match table with
  | [] => (fixed_text, changes)
  | (c, r) :: table' =>
      if char_in c fixed_text then
        fix_loop table' (str_replace c r fixed_text)
                 (changes ++ [Change c r (str_count c fixed_text)])
      else fix_loop table' fixed_text changes
  end.

Definition fix_text (t : text) : text * list change :=
  match t with
  | [] => (t, [])
  | _ => fix_loop character_replacements t []
  end.

End Normalizer.

(** ** Content extractor ([process_knowledge_base.py]) *)

Module Extractor.

(** *** The fragment of Python's [re] that the four patterns use

    Python's matcher is a backtracking one: alternatives are tried left to
    right, a greedy quantifier tries the longest repetition first, a lazy
    one the shortest, and [re.search] returns the match at the leftmost
    start position.  The matcher below is written in continuation-passing
    style with exactly that order of attempts. *)

Inductive cls :=
| CAny          (* [.] under [re.DOTALL] *)
| CSpace        (* [\s] *)
| CNotNewline.  (* [[^\n\r]] *)

Definition cls_match (k : cls) (c : N) : bool :=
  match k with
  | CAny => true
  | CSpace => isspace c
  | CNotNewline => negb ((c =? 10) || (c =? 13))
  end.

(** A literal pattern character [p] against a text character [c] under
    [re.IGNORECASE]: equal after lower-casing; beyond ASCII, U+0130 and
    U+0131 also match [i], U+017F matches [s] and U+212A matches [k]. *)
Definition ichar (p c : N) : bool :=
  let lp := ascii_lower p in
  (ascii_lower c =? lp)
  || ((lp =? 105) && ((c =? 0x130) || (c =? 0x131)))
  || ((lp =? 115) && (c =? 0x17f))
  || ((lp =? 107) && (c =? 0x212a)).

Inductive regex :=
| Lit (s : text)                   (* a literal string *)
| Star (greedy : bool) (k : cls)   (* [k*] or [k*?] *)
| Plus (k : cls)                   (* [k+], greedy *)
| Seq (r1 r2 : regex)
| Alt (r1 r2 : regex)
| Group (r : regex)                (* the capturing group 1 *)
| Lookahead (r : regex)            (* [(?=r)] *)
| Eos.                             (* [$] without [re.MULTILINE] *)

Fixpoint lit_match (p s : text) : option text :=
  match p, s with
  | [], _ => Some s
  | a :: p', c :: s' => if ichar a c then lit_match p' s' else None
  | _ :: _, [] => None
  end.

(** Repetition of a one-character class from the current position. *)
Fixpoint star_match {R} (greedy : bool) (k : cls) (s : text)
    (cont : text → option R) : option R :=
  let more :=
    match s with
    | c :: s' => if cls_match k c then star_match greedy k s' cont else None
    | [] => None
    end in
  if greedy then
    match more with Some r => Some r | None => cont s end
  else
    match cont s with Some r => Some r | None => more end.

(** [$]: at the end of the string or just before a final line feed. *)
Definition at_eos (s : text) : bool :=
  match s with
  | [] => true
  | [10] => true
  | _ => false
  end.

(** [re_match r s g cont]: match [r] at the start of [s]; [g] is the text
    captured by group 1 so far; [cont] receives the rest of the text and
    the capture. *)
Fixpoint re_match (r : regex) (s : text) (g : text)
    (cont : text → text → option text) : option text :=
  match r with
  | Lit p =>
      match lit_match p s with Some s' => cont s' g | None => None end
  | Star greedy k => star_match greedy k s (λ s', cont s' g)
  | Plus k =>
      match s with
      | c :: s' =>
          if cls_match k c then star_match true k s' (λ s'', cont s'' g)
          else None
      | [] => None
      end
  | Seq r1 r2 => re_match r1 s g (λ s' g', re_match r2 s' g' cont)
  | Alt r1 r2 =>
      match re_match r1 s g cont with
      | Some x => Some x
      | None => re_match r2 s g cont
      end
  | Group r1 =>
      re_match r1 s g (λ s' _, cont s' (take (length s - length s') s))
  | Lookahead r1 =>
      match re_match r1 s g (λ _ g', Some g') with
      | Some _ => cont s g
      | None => None
      end
  | Eos => if at_eos s then cont s g else None
  end.

(** [re.search(r, s).group(1)], or [None] when nothing matches. *)
Fixpoint re_search (r : regex) (s : text) : option text :=
  match re_match r s [] (λ _ g, Some g) with
  | Some g => Some g
  | None =>
      match s with
      | [] => None
      | _ :: s' => re_search r s'
      end
  end.

(** [r'Title:\s*([^\n\r]+)'], [re.IGNORECASE] *)
Definition title_re : regex :=
  Seq (Lit (cps "Title:")) (Seq (Star true CSpace) (Group (Plus CNotNewline))).

(** [r'Description:\s*([^\n\r]*?)(?=Problem:|$)'],
    [re.IGNORECASE | re.DOTALL] *)
Definition description_re : regex :=
  Seq (Lit (cps "Description:"))
    (Seq (Star true CSpace)
      (Seq (Group (Star false CNotNewline))
           (Lookahead (Alt (Lit (cps "Problem:")) Eos)))).

(** [r'Problem:\s*(.*?)(?=Resolution:|$)'], [re.IGNORECASE | re.DOTALL] *)
Definition problem_re : regex :=
  Seq (Lit (cps "Problem:"))
    (Seq (Star true CSpace)
      (Seq (Group (Star false CAny))
           (Lookahead (Alt (Lit (cps "Resolution:")) Eos)))).

(** [r'Resolution:\s*(.*?)$'], [re.IGNORECASE | re.DOTALL] *)
Definition resolution_re : regex :=
  Seq (Lit (cps "Resolution:"))
    (Seq (Star true CSpace) (Seq (Group (Star false CAny)) Eos)).

(** The dictionary that [extract_structured_content] returns. *)
Record structured := Structured {
  title : text;
  description : text;
  problem : text;
  resolution : text;
  category : text;
  tags : list text;
  priority : text
}.

(** One [re.search] followed by [if m: result[...] = m.group(1).strip()]:
    the field keeps its initial empty string when nothing matches. *)
Definition section_of (r : regex) (content : text) : text :=
  match re_search r content with
  | Some g => strip g
  | None => []
  end.

Definition extract_structured_content (content : text) : structured :=
  {| title := section_of title_re content;
     description := section_of description_re content;
     problem := section_of problem_re content;
     resolution := section_of resolution_re content;
     category := cps "datadog-mulesoft";
     tags := [];
     priority := cps "medium" |}.

(** The input of the first scenario:
    ["Title: X\nDescription: Y\nProblem: Z\nResolution: W"]. *)
Definition scenario_text : text :=
  cps "Title: X" ++ [10] ++ cps "Description: Y" ++ [10]
  ++ cps "Problem: Z" ++ [10] ++ cps "Resolution: W".

End Extractor.

(** ** Content classifier ([process_web_documentation.py]) *)

Module Classifier.

Section WithUpper.

(** The full upper-case mapping of one code point ([str.upper] maps each
    character on its own, some to several characters); the Unicode table is
    a parameter. *)
Variable toupper_full : N → text.

(** [content.upper()] *)
Definition upper (t : text) : text := t ≫= toupper_full.

(** [WebDocumentationProcessor.detect_content_type] *)
Definition detect_content_type (content : text) : text :=
  let content_upper := upper content in
  if contains (cps "OVERVIEW") content_upper then cps "overview"
  else if contains (cps "CONFIGURATION") content_upper then cps "configuration"
  else if contains (cps "INSTALLATION") content_upper then cps "installation"
  else if contains (cps "CONNECTOR") content_upper then cps "connector"
  else if contains (cps "INTEGRATION") content_upper then cps "integration"
  else if contains (cps "MONITOR") content_upper then cps "monitoring"
  else if contains (cps "DASHBOARD") content_upper then cps "dashboard"
  else if contains (cps "TROUBLESHOOT") content_upper then cps "troubleshooting"
  else if contains (cps "SYSTEM ARCHITECTURE") content_upper
       then cps "architecture"
  else if contains (cps "OOTB") content_upper
          || contains (cps "OUT OF THE BOX") content_upper
       then cps "ootb-assets"
  else if contains (cps "COST OPTIMIZATION") content_upper
       then cps "cost-optimization"
  else cps "documentation".

End WithUpper.

(** The mapping restricted to ASCII, every other code point left alone. *)
Definition ascii_toupper_full (c : N) : text := [ascii_upper c].

End Classifier.

(** ** Corpus store and integrity engine ([scripts/manage_knowledge_base.py]) *)

Module Manager.

(** The exceptions the modelled code can raise. *)
Inductive exn := AttributeError | ValueError.

Inductive result (A : Type) :=
| Ok (a : A)
| Raise (e : exn).
Arguments Ok {A} a.
Arguments Raise {A} e.

(** *** Entries

    A row dictionary as [csv.DictReader] builds it: under a field name a
    string, or [None] when the row was shorter than the header; under the
    key [None] (the reader's [restkey]) the list of surplus cells of a row
    longer than the header. *)
Inductive value :=
| Str (s : text)
| NoneV.

Record entry := Entry {
  fields : gmap text value;
  overflow : option (list text)
}.

#[export] Instance value_eq_dec : EqDecision value.
Proof. solve_decision. Defined.

#[export] Instance entry_eq_dec : EqDecision entry.
Proof. solve_decision. Defined.

Definition k_question : text := cps "question".
Definition k_answer : text := cps "answer".
Definition k_category : text := cps "category".
Definition k_tags : text := cps "tags".
Definition k_priority : text := cps "priority".

(** [fieldnames = ['question', 'answer', 'category', 'tags', 'priority']] *)
Definition fieldnames : list text :=
  [k_question; k_answer; k_category; k_tags; k_priority].

(** [self.valid_priorities = {"high", "medium", "low"}] *)
Definition valid_priorities : list text :=
  [cps "high"; cps "medium"; cps "low"].

(** *** The knowledge-base directory

    The [*.csv] files of [knowledge_base_dir], in the order in which
    [glob] lists them; a file is the table of its rows. *)
Abbreviation row := (list text).
Abbreviation file := (list row).
Abbreviation directory := (list (text * file)).

Fixpoint lookup_file (path : text) (d : directory) : option file :=
  match d with
  | [] => None
  | (name, f) :: d' => if decide (name = path) then Some f else lookup_file path d'
  end.

(** [open(path, 'w')] followed by writing [content]: an existing file is
    replaced where it stands, a new one is added to the directory. *)
Fixpoint write_file (path : text) (content : file) (d : directory) : directory :=
  match d with
  | [] => [(path, content)]
  | (name, f) :: d' =>
      if decide (name = path) then (name, content) :: d'
      else (name, f) :: write_file path content d'
  end.

(** [load_csv_file] opens the file in text mode without [newline='']:
    every [\r\n] and every lone [\r] reaches the reader as [\n], also
    inside a quoted cell. *)
Fixpoint universal_newlines (t : text) : text :=
  match t with
  | [] => []
  | c :: t' =>
      if c =? 13 then
        10 :: match t' with
              | c' :: t'' =>
                  if c' =? 10 then universal_newlines t''
                  else universal_newlines t'
              | [] => []
              end
      else c :: universal_newlines t'
  end.

(** [csv.field_size_limit()]: the default of the library, which none of
    the scripts changes. *)
Definition field_size_limit : N := 131072.

(** A cell that [csv.reader] accepts: its length, once parsed, does not
    exceed the limit. *)
Definition within_limit (c : text) : bool :=
  N.of_nat (length c) <=? field_size_limit.

(** [csv.reader] on a file read that way: the rows that it yields, and
    whether it then raises [csv.Error] instead of reaching the end of the
    file.  It raises on the first row with a cell longer than the field
    size limit; that row is not yielded and nothing after it is read. *)
Fixpoint csv_reader (f : file) : file * bool :=
  match f with
  | [] => ([], false)
  | r :: f' =>
      let r' := map universal_newlines r in
      if forallb within_limit r' then
        match csv_reader f' with
        | (rows, raised) => (r' :: rows, raised)
        end
      else ([], true)
  end.

(** [csv.DictReader.__next__] on one non-empty row:
    [d = dict(zip(fieldnames, row))], then the surplus cells under
    [restkey], or [restval] under the field names the row did not reach. *)
Definition dict_of_row (names : list text) (r : row) : entry :=
  let d := fold_left (λ m kv, <[kv.1 := Str kv.2]> m) (zip names r) ∅ in
  let d := fold_left (λ m k, <[k := NoneV]> m) (drop (length r) names) d in
  {| fields := d;
     overflow := if (length names <? length r)%nat
                 then Some (drop (length names) r) else None |}.

(** [csv.DictReader]: the first row is the header, rows that are [[]]
    (blank lines) are skipped. *)
Definition dict_reader (rows : file) : list entry :=
  match rows with
  | [] => []
  | names :: rows' => map (dict_of_row names) (filter (λ r, r ≠ []) rows')
  end.

(** [load_csv_file]: every exception is caught after [entries] has
    received the rows read so far, so a file that cannot be opened gives
    the empty list and a file on which the reader raises gives the
    entries before the row that it refuses. *)
Definition load_csv_file (file_path : text) (d : directory) : list entry :=
  match lookup_file file_path d with
  | Some f => dict_reader (csv_reader f).1
  | None => []
  end.

(** [rowdict.get(key, '')] as the writer renders it: [None] is written as
    the empty string. *)
Definition cell_of (v : option value) : text :=
  match v with
  | Some (Str s) => s
  | Some NoneV => []
  | None => []
  end.

(** [wrong_fields = rowdict.keys() - self.fieldnames] is empty: no
    surplus cells under [None] and no field name outside the list. *)
Definition only_fieldnames (e : entry) : Prop :=
  overflow e = None ∧ dom (fields e) ⊆@{gset text} list_to_set fieldnames.

#[export] Instance only_fieldnames_dec e : Decision (only_fieldnames e).
Proof. unfold only_fieldnames. apply _. Defined.

(** [(rowdict.get(key, self.restval) for key in self.fieldnames)]: the
    row written for a dictionary that is accepted. *)
Definition row_of (e : entry) : row :=
  map (λ k, cell_of (fields e !! k)) fieldnames.

(** [csv.DictWriter._dict_to_list] with the default [extrasaction='raise']. *)
Definition dict_to_list (e : entry) : result row :=
  if decide (only_fieldnames e) then Ok (row_of e) else Raise ValueError.

(** [writer.writerows(entries)]: rows reach the file one by one until a
    dictionary is refused. *)
Fixpoint writerows (entries : list entry) (written : file) : file * result unit :=
  match entries with
  | [] => (written, Ok tt)
  | e :: entries' =>
      match dict_to_list e with
      | Ok r => writerows entries' (written ++ [r])
      | Raise x => (written, Raise x)
      end
  end.

(** [save_csv_file]: the file is truncated on opening; the exception of
    the writer is caught and turned into [False]. *)
Definition save_csv_file (file_path : text) (entries : list entry)
    (d : directory) : directory * bool :=
  match entries with
  | [] => (write_file file_path [] d, true)
  | _ =>
      match writerows entries [fieldnames] with
      | (content, Ok _) => (write_file file_path content d, true)
      | (content, Raise _) => (write_file file_path content d, false)
      end
  end.

(** [get_all_entries]: the files that load to at least one entry, keyed by
    name, in directory order. *)
Definition get_all_entries (d : directory) : list (text * list entry) :=
  filter (λ ne, ne.2 ≠ [])
         (map (λ nf : text * file, (nf.1, load_csv_file nf.1 d)) d).

(** *** Mutation of an entry

    The body of the repair loop updates the entry in place and may raise:
    a state-and-exception monad over the entry.  What was assigned before
    an exception stays assigned. *)
Definition M (A : Type) : Type := entry → entry * result A.

#[export] Instance M_ret : MRet M := λ A a e, (e, Ok a).

#[export] Instance M_bind : MBind M := λ A B f m e,
  match m e with
  | (e', Ok a) => f a e'
  | (e', Raise x) => (e', Raise x)
  end.

(** [entry.get(k, '').strip()]; [None.strip()] raises. *)
Definition field_strip (k : text) : M text := λ e,
  (e, match fields e !! k with
      | None => Ok (strip [])
      | Some (Str s) => Ok (strip s)
      | Some NoneV => Raise AttributeError
      end).

(** The entry after [entry[k] = v]. *)
Definition set_field (k v : text) (e : entry) : entry :=
  {| fields := <[k := Str v]> (fields e); overflow := overflow e |}.

(** [entry[k] = v] *)
Definition assign (k v : text) : M unit := λ e, (set_field k v e, Ok tt).

(** The two flags of [validate_and_fix]: [file_modified], [has_issues]. *)
Abbreviation flags := (bool * bool)%type.

Definition no_flags : flags := (false, false).

Definition or_flags (a b : flags) : flags := (a.1 || b.1, a.2 || b.2).

(** [if fix: entry[k] = v; file_modified = True / else: has_issues = True] *)
Definition fix_or_report (fix_ : bool) (k v : text) : M flags :=
  if fix_ then _ ← assign k v; mret (true, false)
  else mret (false, true).

Section WithLower.

(** [str.lower]; the Unicode table behind it is a parameter. *)
Variable lower : text → text.

(** The place of a string in the hash table of a [set].  It follows from
    the hash of the string, which changes with the hash seed of the run,
    so it is a parameter as well. *)
Variable slot : text → N.

(** [entry.get('question', '').strip().lower()] *)
Definition question_key (e : entry) : result text :=
  match fields e !! k_question with
  | None => Ok (lower (strip []))
  | Some (Str s) => Ok (lower (strip s))
  | Some NoneV => Raise AttributeError
  end.

(** *** Duplicate detection *)

(** A location [f"{filename}:{idx}"], kept as its two components. *)
Abbreviation location := (text * nat)%type.

(** [seen_questions[question].append(location)] on a [defaultdict(list)],
    which keeps its keys in insertion order. *)
Fixpoint append_location (q : text) (l : location)
    (seen : list (text * list location)) : list (text * list location) :=
  match seen with
  | [] => [(q, [l])]
  | (q', ls) :: seen' =>
      if decide (q' = q) then (q', ls ++ [l]) :: seen'
      else (q', ls) :: append_location q l seen'
  end.

(** [for idx, entry in enumerate(entries, 1)] *)
Fixpoint scan_entries (filename : text) (idx : nat) (entries : list entry)
    (seen : list (text * list location)) : result (list (text * list location)) :=
  match entries with
  | [] => Ok seen
  | e :: entries' =>
      match question_key e with
      | Raise x => Raise x
      | Ok question =>
          scan_entries filename (S idx) entries'
            (if nonempty question
             then append_location question (filename, idx) seen
             else seen)
      end
  end.

Fixpoint scan_files (all_entries : list (text * list entry))
    (seen : list (text * list location)) : result (list (text * list location)) :=
  match all_entries with
  | [] => Ok seen
  | (filename, entries) :: rest =>
      match scan_entries filename 1 entries seen with
      | Raise x => Raise x
      | Ok seen' => scan_files rest seen'
      end
  end.

(** [find_duplicates] *)
Definition find_duplicates (d : directory) : result (list (text * list location)) :=
  match scan_files (get_all_entries d) [] with
  | Raise x => Raise x
  | Ok seen => Ok (filter (λ ql, (1 < length ql.2)%nat) seen)
  end.

(** *** Removal of duplicates *)

(** [del all_entries[filename][row_num]] under the guard
    [filename in all_entries and 0 <= row_num < len(all_entries[filename])];
    [None] when the guard fails. *)
Fixpoint delete_entry (filename : text) (row_num : Z)
    (all_entries : list (text * list entry)) : option (list (text * list entry)) :=
  match all_entries with
  | [] => None
  | (name, entries) :: rest =>
      if decide (name = filename) then
        if decide (0 ≤ row_num < Z.of_nat (length entries))%Z
        then Some ((name, delete (Z.to_nat row_num) entries) :: rest)
        else None
      else cons (name, entries) <$> delete_entry filename row_num rest
  end.

(** [modified_files.add(filename)] *)
Definition add_modified (filename : text) (modified : list text) : list text :=
  if decide (filename ∈ modified) then modified else modified ++ [filename].

(** [for location in locations[1:]]; [location.split(':')] must give
    exactly the file name and the row number, so a file name that holds a
    colon makes the unpacking raise. *)
Fixpoint remove_locations (dry_run : bool) (locations : list location)
    (st : list (text * list entry) * list text)
    : result (list (text * list entry) * list text) :=
  match locations with
  | [] => Ok st
  | (filename, idx) :: rest =>
      if decide (58 ∈ filename) then Raise ValueError
      else
        let row_num := (Z.of_nat idx - 1)%Z in
        match delete_entry filename row_num st.1 with
        | Some all_entries' =>
            if dry_run then remove_locations dry_run rest st
            else remove_locations dry_run rest
                   (all_entries', add_modified filename st.2)
        | None => remove_locations dry_run rest st
        end
  end.

(** [for question, locations in duplicates.items()] *)
Fixpoint remove_groups (dry_run : bool) (duplicates : list (text * list location))
    (st : list (text * list entry) * list text)
    : result (list (text * list entry) * list text) :=
  match duplicates with
  | [] => Ok st
  | (_, locations) :: rest =>
      match remove_locations dry_run (drop 1 locations) st with
      | Raise x => Raise x
      | Ok st' => remove_groups dry_run rest st'
      end
  end.

(** [all_entries[filename]] *)
Fixpoint entries_of (filename : text) (all_entries : list (text * list entry))
    : list entry :=
  match all_entries with
  | [] => []
  | (name, entries) :: rest =>
      if decide (name = filename) then entries else entries_of filename rest
  end.

(** [for filename in modified_files] walks a set: the names come in the
    order of their slots in the hash table, names that the parameter
    [slot] does not tell apart in the order in which they were added. *)
Fixpoint set_insert (filename : text) (walk : list text) : list text :=
  match walk with
  | [] => [filename]
  | name :: walk' =>
      if slot name <=? slot filename then name :: set_insert filename walk'
      else filename :: walk
  end.

Definition set_walk (modified : list text) : list text :=
  fold_left (λ walk filename, set_insert filename walk) modified [].

(** The loop over the names of that walk: save, or return [False] at the
    first failure. *)
Fixpoint save_modified (modified : list text)
    (all_entries : list (text * list entry)) (d : directory)
    : directory * result bool :=
  match modified with
  | [] => (d, Ok true)
  | filename :: rest =>
      match save_csv_file filename (entries_of filename all_entries) d with
      | (d', true) => save_modified rest all_entries d'
      | (d', false) => (d', Ok false)
      end
  end.

(** [remove_duplicates] *)
Definition remove_duplicates (dry_run : bool) (d : directory)
    : directory * result bool :=
  match find_duplicates d with
  | Raise x => (d, Raise x)
  | Ok [] => (d, Ok true)
  | Ok duplicates =>
      match remove_groups dry_run duplicates (get_all_entries d, []) with
      | Raise x => (d, Raise x)
      | Ok (all_entries, modified) =>
          if negb dry_run && bool_decide (modified ≠ [])
          then save_modified (set_walk modified) all_entries d
          else (d, Ok true)
      end
  end.

(** *** Validation and repair *)

(** The body of [for idx, entry in enumerate(entries)], block by block. *)

(** [if not entry.get('category', '').strip(): ...] *)
Definition check_category (fix_ : bool) : M flags :=
  category ← field_strip k_category;
  if nonempty category then mret no_flags
  else fix_or_report fix_ k_category (cps "general").

(** [if not entry.get('priority', '').strip(): ...] *)
Definition check_priority_present (fix_ : bool) : M flags :=
  priority ← field_strip k_priority;
  if nonempty priority then mret no_flags
  else fix_or_report fix_ k_priority (cps "medium").

(** [priority = entry.get('priority', '').strip().lower()] and
    [if priority and priority not in self.valid_priorities: ...] *)
Definition check_priority_valid (fix_ : bool) : M flags :=
  stripped ← field_strip k_priority;
  let priority := lower stripped in
  if nonempty priority && negb (bool_decide (priority ∈ valid_priorities))
  then fix_or_report fix_ k_priority (cps "medium")
  else mret no_flags.

(** [tags = [tag.strip() for tag in tags_str.split(',') if tag.strip()]]
    and [cleaned_tags = ','.join(tags)] *)
Definition cleaned_tags (tags_str : text) : text :=
  join_with 44 (filter (λ t, t ≠ []) (map strip (split_on 44 tags_str))).

(** [tags_str = entry.get('tags', '').strip()] and [if tags_str: ...] *)
Definition check_tags (fix_ : bool) : M flags :=
  tags_str ← field_strip k_tags;
  if nonempty tags_str then
    if bool_decide (cleaned_tags tags_str ≠ tags_str)
    then fix_or_report fix_ k_tags (cleaned_tags tags_str)
    else mret no_flags
  else mret no_flags.

Definition check_entry (fix_ : bool) : M flags :=
  f1 ← check_category fix_;
  f2 ← check_priority_present fix_;
  f3 ← check_priority_valid fix_;
  f4 ← check_tags fix_;
  mret (or_flags (or_flags f1 f2) (or_flags f3 f4)).

(** The loop over the entries of one file: the list after the loop and
    the flags, or the exception that stopped it. *)
Fixpoint check_entries (fix_ : bool) (entries : list entry)
    : list entry * result flags :=
  match entries with
  | [] => ([], Ok no_flags)
  | e :: rest =>
      match check_entry fix_ e with
      | (e', Raise x) => (e' :: rest, Raise x)
      | (e', Ok f) =>
          match check_entries fix_ rest with
          | (rest', Ok f') => (e' :: rest', Ok (or_flags f f'))
          | (rest', Raise x) => (e' :: rest', Raise x)
          end
      end
  end.

(** The loop over the files, with the save of each modified file. *)
Fixpoint validate_files (fix_ : bool) (all_entries : list (text * list entry))
    (has_issues : bool) (d : directory) : directory * result bool :=
  match all_entries with
  | [] => (d, Ok (negb (negb fix_ && has_issues)))
  | (filename, entries) :: rest =>
      match check_entries fix_ entries with
      | (_, Raise x) => (d, Raise x)
      | (entries', Ok (file_modified, issues)) =>
          if fix_ && file_modified then
            match save_csv_file filename entries' d with
            | (d', true) => validate_files fix_ rest (has_issues || issues) d'
            | (d', false) => (d', Ok false)
            end
          else validate_files fix_ rest (has_issues || issues) d
      end
  end.

(** [validate_and_fix] *)
Definition validate_and_fix (fix_ : bool) (d : directory) : directory * result bool :=
  validate_files fix_ (get_all_entries d) false d.

(** *** Merge *)

(** [for entry in entries] of [merge_files]; the state is [all_entries]
    and [seen_questions]. *)
Fixpoint merge_entries (remove_duplicates : bool) (entries : list entry)
    (st : list entry * gset text) : result (list entry * gset text) :=
  match entries with
  | [] => Ok st
  | e :: rest =>
      match question_key e with
      | Raise x => Raise x
      | Ok question =>
          if remove_duplicates && bool_decide (question ∈ st.2)
          then merge_entries remove_duplicates rest st
          else merge_entries remove_duplicates rest
                 (st.1 ++ [e],
                  if nonempty question then {[question]} ∪ st.2 else st.2)
      end
  end.

(** [for source_file in source_files]; [None] is the early
    [return False] for a source that does not exist. *)
Fixpoint merge_sources (remove_duplicates : bool) (source_files : list text)
    (d : directory) (st : list entry * gset text)
    : result (option (list entry * gset text)) :=
  match source_files with
  | [] => Ok (Some st)
  | source_file :: rest =>
      match lookup_file source_file d with
      | None => Ok None
      | Some _ =>
          match merge_entries remove_duplicates (load_csv_file source_file d) st with
          | Raise x => Raise x
          | Ok st' => merge_sources remove_duplicates rest d st'
          end
      end
  end.

(** [merge_files] *)
Definition merge_files (source_files : list text) (target_file : text)
    (remove_duplicates : bool) (d : directory) : directory * result bool :=
  match merge_sources remove_duplicates source_files d ([], ∅) with
  | Raise x => (d, Raise x)
  | Ok None => (d, Ok false)
  | Ok (Some (all_entries, _)) =>
      match save_csv_file target_file all_entries d with
      | (d', ok) => (d', Ok ok)
      end
  end.

(** *** Notions used to state the properties *)

(** The normalized question of an entry (trimmed, case-folded); the empty
    text when the entry has none to give. *)
Definition normalized_question (e : entry) : text :=
  match question_key e with
  | Ok q => q
  | Raise _ => []
  end.

(** An entry whose question is empty after trimming. *)
Definition blank_question (e : entry) : bool :=
  match question_key e with
  | Ok [] => true
  | _ => false
  end.

(** Duplicate suppression in the words of the specification: an entry is
    skipped when its normalized question, if it has one, is that of an
    entry met earlier (in an earlier source or earlier in the same one);
    the first occurrence wins. *)
Fixpoint first_wins (earlier entries : list entry) : list entry :=
  match entries with
  | [] => []
  | e :: rest =>
      let q := normalized_question e in
      if decide (q ≠ [] ∧ q ∈ map normalized_question earlier)
      then first_wins (earlier ++ [e]) rest
      else e :: first_wins (earlier ++ [e]) rest
  end.

(** The location [l] is that of an entry of the directory whose
    normalized question is [q]. *)
Definition located (d : directory) (q : text) (l : location) : Prop :=
  (1 ≤ l.2)%nat
  ∧ ∃ e, load_csv_file l.1 d !! (l.2 - 1)%nat = Some e ∧ question_key e = Ok q.

(** Every group of [seen_questions] is keyed by a non-empty question and
    lists locations of entries with that question. *)
Definition seen_ok (d : directory) (seen : list (text * list location)) : Prop :=
  ∀ q locs, (q, locs) ∈ seen → q ≠ [] ∧ ∀ l, l ∈ locs → located d q l.

(** What a tag must be like to come out of [cleaned_tags] unchanged. *)
Definition good_tag (p : text) : Prop :=
  p ≠ [] ∧ (44 ∉ p) ∧ no_space_first p ∧ no_space_first (reverse p).

(** An entry on which the repair finds nothing to do, field by field. *)
Definition category_settled (e : entry) : Prop :=
  ∃ s, fields e !! k_category = Some (Str s) ∧ strip s ≠ [].

Definition priority_present (e : entry) : Prop :=
  ∃ s, fields e !! k_priority = Some (Str s) ∧ strip s ≠ [].

Definition priority_settled (e : entry) : Prop :=
  ∃ s, fields e !! k_priority = Some (Str s) ∧ strip s ≠ []
       ∧ (lower (strip s) = [] ∨ lower (strip s) ∈ valid_priorities).

Definition tags_settled (e : entry) : Prop :=
  match fields e !! k_tags with
  | None => True
  | Some NoneV => False
  | Some (Str s) => strip s = [] ∨ cleaned_tags (strip s) = strip s
  end.

Definition settled (e : entry) : Prop :=
  category_settled e ∧ priority_settled e ∧ tags_settled e.

(** No string of the entry holds a carriage return. *)
Definition cr_free (e : entry) : Prop :=
  ∀ k s, fields e !! k = Some (Str s) → 13 ∉ s.

(** The repair of one entry as the specification words it: an empty
    category becomes [general]; an empty or invalid priority becomes
    [medium]; a tag string that is not the comma-join of its trimmed,
    non-blank members becomes that join. *)
Definition repaired (e : entry) : entry :=
  let e1 :=
    if decide (strip (cell_of (fields e !! k_category)) = [])
    then set_field k_category (cps "general") e else e in
  let p := strip (cell_of (fields e1 !! k_priority)) in
  let e2 :=
    if decide (p = [] ∨ (lower p ≠ [] ∧ lower p ∉ valid_priorities))
    then set_field k_priority (cps "medium") e1 else e1 in
  let t := strip (cell_of (fields e2 !! k_tags)) in
  if decide (t ≠ [] ∧ cleaned_tags t ≠ t)
  then set_field k_tags (cleaned_tags t) e2 else e2.

(** What one repair pass does to one file. *)
Inductive file_outcome :=
| Untouched
| Raised (x : exn)
| Saved (content : file)
| SaveFailed (content : file).

Definition repair_file (f : file) : file_outcome :=
  match dict_reader (csv_reader f).1 with
  | [] => Untouched
  | entries =>
      match check_entries true entries with
      | (_, Raise x) => Raised x
      | (_, Ok (false, _)) => Untouched
      | (entries', Ok (true, _)) =>
          match writerows entries' [fieldnames] with
          | (content, Ok _) => Saved content
          | (content, Raise _) => SaveFailed content
          end
      end
  end.

(** One repair pass over a directory, file by file. *)
Fixpoint repair_pass (d : directory) : directory * result bool :=
  match d with
  | [] => ([], Ok true)
  | (name, f) :: d' =>
      match repair_file f with
      | Untouched =>
          match repair_pass d' with (d'', r) => ((name, f) :: d'', r) end
      | Raised x => ((name, f) :: d', Raise x)
      | Saved content =>
          match repair_pass d' with (d'', r) => ((name, content) :: d'', r) end
      | SaveFailed content => ((name, content) :: d', Ok false)
      end
  end.

End WithLower.


(** What the repair of an entry leaves alone: the surplus cells and
    every field other than category, priority and tags. *)
Definition untouched_outside_repair (e e' : entry) : Prop :=
  overflow e' = overflow e
  ∧ ∀ k, k ≠ k_category → k ≠ k_priority → k ≠ k_tags →
         fields e' !! k = fields e !! k.

(** A step of the repair loop that respects this frame. *)
Definition frame {A : Type} (m : M A) : Prop :=
  ∀ e, untouched_outside_repair e (m e).1.

(** A hash table in which the names stand in the given order: each name
    has the place of its first occurrence in [order]. *)
Fixpoint place_in (order : list text) (name : text) : N :=
  match order with
  | [] => 0
  | x :: order' => if decide (x = name) then 0 else 1 + place_in order' name
  end.

(** A string that the reader gives back as the writer was handed it: it
    holds no carriage return for the text mode to translate and is not
    longer than the field size limit. *)
Definition plain (c : text) : Prop := (13 ∉ c) ∧ within_limit c = true.

(** A file that the reader reads to its end: no cell is longer than the
    field size limit once its line ends are translated. *)
Definition readable (f : file) : Prop :=
  Forall (Forall (λ c, within_limit (universal_newlines c) = true)) f.

#[export] Instance readable_dec f : Decision (readable f).
Proof. unfold readable. apply _. Defined.

(** Every string of the entry has the property [P]. *)
Definition cells (P : text → Prop) (e : entry) : Prop :=
  ∀ k s, fields e !! k = Some (Str s) → P s.

(** The question and the answer as they are written: [None] and a
    missing field count as the empty string. *)
Definition question_of (e : entry) : text := cell_of (fields e !! k_question).
Definition answer_of (e : entry) : text := cell_of (fields e !! k_answer).

(** What a pass keeps of a file: the entries that it gives are as many
    as before, with the same questions and the same answers. *)
Definition keeps_loaded (f f' : file) : Prop :=
  Forall2 (λ e e', question_of e' = question_of e ∧ answer_of e' = answer_of e)
    (dict_reader (csv_reader f).1) (dict_reader (csv_reader f').1).

(** An entry that holds exactly the five canonical fields, each a string. *)
Definition canonical_entry (e : entry) : Prop :=
  overflow e = None
  ∧ dom (fields e) = list_to_set (C := gset text) fieldnames
  ∧ ∀ k, fields e !! k ≠ Some NoneV.

End Manager.

(** ** Inputs of the scenarios *)

Module Scenarios.
Import Manager.

(** A case mapping that agrees with [str.lower] on ASCII text, as all
    the texts of the scenarios are. *)
Definition lower_ascii_only (t : text) : text := map ascii_lower t.

(** An entry given by its fields. *)
Definition entry_of (kvs : list (string * string)) : entry :=
  {| fields := list_to_map (map (λ kv, (cps kv.1, Str (cps kv.2))) kvs);
     overflow := None |}.

Definition kb_csv : text := cps "kb.csv".

(** An entry with a sixth field, [notes]. *)
Definition noted_entry : entry :=
  entry_of [("question", "q"); ("answer", "a"); ("category", "c");
            ("tags", "t"); ("priority", "high"); ("notes", "n")]%string.

Definition plain_entry : entry :=
  entry_of [("question", "q"); ("answer", "a"); ("category", "c");
            ("tags", "t"); ("priority", "high")]%string.

(** A corpus whose columns stand in another order than the canonical one. *)
Definition reordered_corpus : file :=
  [ [k_answer; k_question; k_category; k_tags; k_priority];
    [cps "A"; cps "Q"; cps "c"; cps "t"; cps "high"] ].

(** A corpus with one canonical row. *)
Definition one_row_corpus : file :=
  [ fieldnames; [cps "Q"; cps "A"; cps "c"; cps "t"; cps "high"] ].

(** A corpus whose answer cell holds a Windows line break. *)
Definition crlf_corpus : file :=
  [ fieldnames; [cps "Q"; cps "line 1" ++ [13; 10] ++ cps "line 2";
                 cps "c"; cps "t"; cps "high"] ].

(** A canonical row with the given question and answer. *)
Definition qa_row (q a : string) : row :=
  [cps q; cps a; cps "c"; cps "t"; cps "high"].

(** A canonical row with an empty question. *)
Definition no_question_row (a : string) : row :=
  [[]; cps a; cps "c"; cps "t"; cps "high"].

(** One corpus with two interleaved pairs of duplicates and a last entry
    that duplicates nothing. *)
Definition interleaved_dir : directory :=
  [ (kb_csv, [ fieldnames; qa_row "a" "1"; qa_row "b" "2"; qa_row "A " "3";
               qa_row "B" "4"; qa_row "c" "5" ]%string) ].

(** One corpus with the same question three times. *)
Definition triple_dir : directory :=
  [ (kb_csv, [ fieldnames; qa_row "q" "1"; qa_row "q" "2"; qa_row "q" "3" ]%string) ].

(** One corpus with two entries whose question is blank and two entries
    with the same question up to case. *)
Definition blanks_dir : directory :=
  [ (kb_csv, [ fieldnames; no_question_row "1"; qa_row "x" "2"; qa_row " " "3";
               qa_row "X" "4" ]%string) ].

(** Corpus A with three entries and corpus B with two; the second
    question of A is the first question of B up to case and blanks. *)
Definition a_csv : text := cps "a.csv".
Definition b_csv : text := cps "b.csv".
Definition merged_csv : text := cps "merged.csv".

Definition merge_dir : directory :=
  [ (a_csv, [ fieldnames; qa_row "How do I log in?" "1";
              qa_row "How do I reset my password?" "2";
              qa_row "Where are the logs?" "3" ]%string);
    (b_csv, [ fieldnames; qa_row " how do I reset my PASSWORD?" "4";
              qa_row "Who do I call?" "5" ]%string) ].


(** Two corpora in need of repair; the first has a column [notes]. *)
Definition drifted_dir : directory :=
  [ (a_csv, [ fieldnames ++ [cps "notes"];
              [cps "q1"; cps "a1"; []; cps "t"; cps "high"; cps "n"] ]);
    (b_csv, [ fieldnames;
              [cps "q2"; cps "a2"; []; cps "x, ,y"; cps "urgent"] ]) ].

(** The same with the first corpus in the canonical columns. *)
Definition untidy_dir : directory :=
  [ (a_csv, [ fieldnames; [cps "q1"; cps "a1"; []; cps "t"; cps "high"] ]);
    (b_csv, [ fieldnames;
              [cps "q2"; cps "a2"; []; cps "x, ,y"; cps "urgent"] ]) ].

Definition tidy_dir : directory :=
  [ (a_csv, [ fieldnames; [cps "q1"; cps "a1"; cps "general"; cps "t"; cps "high"] ]);
    (b_csv, [ fieldnames;
              [cps "q2"; cps "a2"; cps "general"; cps "x,y"; cps "medium"] ]) ].


(** [drifted_dir] after a first repair pass, and after a second one. *)
Definition drifted_after_first : directory :=
  [ (a_csv, [ fieldnames ]);
    (b_csv, [ fieldnames;
              [cps "q2"; cps "a2"; []; cps "x, ,y"; cps "urgent"] ]) ].


(** A corpus in need of repair whose question holds a Windows line
    break, and the same after a repair pass. *)
Definition crlf_question : text := cps "line 1" ++ [13; 10] ++ cps "line 2".
Definition lf_question : text := cps "line 1" ++ [10] ++ cps "line 2".

Definition crlf_question_dir : directory :=
  [ (kb_csv, [ fieldnames;
               [crlf_question; cps "a"; []; cps "t"; cps "high"] ]) ].

Definition crlf_question_after : directory :=
  [ (kb_csv, [ fieldnames;
               [lf_question; cps "a"; cps "general"; cps "t"; cps "high"] ]) ].

(** A cell of one character more than the field size limit. *)
Definition long_cell : text := replicate (N.to_nat (field_size_limit + 1)) 120.

(** A corpus in need of repair whose second row holds the cell [c]. *)
Definition long_cell_dir (c : text) : directory :=
  [ (kb_csv, [ fieldnames;
               [cps "q1"; cps "a1"; []; cps "t"; cps "high"];
               [cps "q2"; c; cps "c"; cps "t"; cps "high"];
               [cps "q3"; cps "a3"; cps "c"; cps "t"; cps "high"] ]) ].

(** ["Configuration guide - Overview of the setup"] *)
Definition both_markers : text :=
  cps "Configuration guide - Overview of the setup".

End Scenarios.

(** ** Notions used to state the properties of the duplicate groups *)

Module Groups.
Import Manager.

(** A location, the file name and the number of the entry. *)
Abbreviation location := (text * nat)%type.

(** [seen_questions[q]] without the side effect of the [defaultdict]: the
    locations recorded under a question, none when it is not a key. *)
Fixpoint group_of (q : text) (seen : list (text * list location))
    : list location :=
  match seen with
  | [] => []
  | (q', ls) :: seen' => if decide (q' = q) then ls else group_of q seen'
  end.

(** What holds of [seen_questions] all along the scan: a key occurs once,
    is not the empty question and has at least one location. *)
Definition well_keyed (seen : list (text * list location)) : Prop :=
  NoDup seen.*1 ∧ ([] ∉ seen.*1) ∧ Forall (λ ql, ql.2 ≠ []) seen.

Section WithLower.

Variable lower : text → text.

(** The locations, in the order of the scan, of the entries of one file
    whose normalized question is [q]; [idx] numbers the first entry. *)
Fixpoint locations_in (q filename : text) (idx : nat) (entries : list entry)
    : list location :=
  match entries with
  | [] => []
  | e :: rest =>
      match question_key lower e with
      | Ok q' =>
          if decide (q' = q)
          then (filename, idx) :: locations_in q filename (S idx) rest
          else locations_in q filename (S idx) rest
      | Raise _ => locations_in q filename (S idx) rest
      end
  end.

(** The same over all the files, entries numbered from 1 in each. *)
Definition locations_of (q : text) (all_entries : list (text * list entry))
    : list location :=
  all_entries ≫= (λ fe, locations_in q fe.1 1 fe.2).

End WithLower.

End Groups.

(** ** Notions used to state the properties of the extractor *)

Module Labels.
Import Extractor.

(** The label [p] occurs somewhere in [s], letter case ignored. *)
Fixpoint mentions (p s : text) : bool :=
  match lit_match p s with
  | Some _ => true
  | None =>
      match s with
      | [] => false
      | _ :: s' => mentions p s'
      end
  end.

(** White space only. *)
Definition blank (t : text) : Prop := Forall (λ c, isspace c = true) t.

(** A text that is empty or starts with a line feed or a carriage
    return. *)
Definition at_line_end (t : text) : Prop :=
  match t with
  | [] => True
  | c :: _ => c = 10 ∨ c = 13
  end.

End Labels.

(** ** Question-and-answer synthesis ([process_knowledge_base.py]) *)

Module Synthesizer.
Import Extractor.

(** [sep.join(parts)] for a separator of any length. *)
Fixpoint join (sep : text) (parts : list text) : text :=
  match parts with
  | [] => []
  | [p] => p
  | p :: ps => p ++ sep ++ join sep ps
  end.

(** [tag_mapping] of [generate_tags], in insertion order. *)
Definition tag_mapping : list (text * list text) :=
  [ (cps "activation",
     [cps "activation"; cps "activate"; cps "enable"; cps "setup";
      cps "configure"]);
    (cps "configuration",
     [cps "config"; cps "configure"; cps "setup"; cps "settings";
      cps "parameter"]);
    (cps "integration",
     [cps "integration"; cps "integrate"; cps "connect"; cps "connection"]);
    (cps "mulesoft",
     [cps "mulesoft"; cps "mule"; cps "anypoint"; cps "rtf"; cps "cloudhub"]);
    (cps "datadog",
     [cps "datadog"; cps "dd"; cps "monitoring"; cps "metrics"; cps "traces"]);
    (cps "troubleshooting",
     [cps "error"; cps "issue"; cps "problem"; cps "troubleshoot";
      cps "debug"]);
    (cps "authentication",
     [cps "auth"; cps "login"; cps "credential"; cps "token"; cps "api key"]);
    (cps "deployment",
     [cps "deploy"; cps "deployment"; cps "runtime"; cps "environment"]);
    (cps "performance",
     [cps "performance"; cps "memory"; cps "cpu"; cps "optimization";
      cps "jvm"]);
    (cps "network",
     [cps "network"; cps "connectivity"; cps "port"; cps "firewall";
      cps "proxy"]);
    (cps "version",
     [cps "version"; cps "update"; cps "upgrade"; cps "compatibility"]);
    (cps "logs",
     [cps "log"; cps "logging"; cps "trace"; cps "debug"; cps "monitor"]) ].

Definition high_priority_keywords : list text :=
  [ cps "error"; cps "fail"; cps "crash"; cps "critical"; cps "urgent";
    cps "down"; cps "outage"; cps "security"; cps "authentication";
    cps "authorization"; cps "data loss" ].

Definition low_priority_keywords : list text :=
  [ cps "documentation"; cps "reference"; cps "example"; cps "guide";
    cps "tutorial"; cps "feature request"; cps "enhancement";
    cps "nice to have" ].

(** What stops the script: the input file is missing, the table has no
    column [content], a row is too short to reach that column, so that
    [re.search] is handed [None], the reader refuses a cell longer than
    the field size limit ([csv.Error]), or the writer refuses a
    dictionary. *)
Inductive error :=
  FileNotFoundError | KeyError | TypeError | CsvError | ValueError.

Inductive outcome (A : Type) :=
| Done (a : A)
| Failed (e : error).
Arguments Done {A} a.
Arguments Failed {A} e.

(** [any(keyword in content_text for keyword in keywords)] *)
Definition any_keyword (keywords : list text) (content_text : text) : bool :=
  existsb (λ keyword, contains keyword content_text) keywords.

(** [if tag not in tags: tags.append(tag)] *)
Definition append_missing (tag : text) (tags : list text) : list text :=
  if bool_decide (tag ∈ tags) then tags else tags ++ [tag].

Section WithLower.

(** [str.lower]; the Unicode table behind it is a parameter. *)
Variable lower : text → text.

(** [generate_tags] *)
Definition generate_tags (title description problem resolution : text)
    : list text :=
  let content_text :=
    lower (title ++ cps " " ++ description ++ cps " " ++ problem
           ++ cps " " ++ resolution) in
  let tags :=
    map fst (filter (λ tk, any_keyword tk.2 content_text = true) tag_mapping) in
  let tags := append_missing (cps "datadog") tags in
  let tags := append_missing (cps "mulesoft") tags in
  take 5 tags.

(** [determine_priority] *)
Definition determine_priority (title problem resolution : text) : text :=
  let content_text :=
    lower (title ++ cps " " ++ problem ++ cps " " ++ resolution) in
  if any_keyword high_priority_keywords content_text then cps "high"
  else if any_keyword low_priority_keywords content_text then cps "low"
  else cps "medium".

(** [create_qa_format] *)
Definition create_qa_format (structured_data : structured) : text * text :=
  let question_parts :=
    (if nonempty (title structured_data) then [title structured_data] else [])
    ++ (if nonempty (problem structured_data)
           && negb (bool_decide (problem structured_data = title structured_data))
        then [problem structured_data] else []) in
  let question :=
    match question_parts with
    | [] => cps "Datadog MuleSoft Integration Question"
    | _ => join (cps " - ") question_parts
    end in
  let answer_parts :=
    (if nonempty (description structured_data)
     then [cps "Overview: " ++ description structured_data] else [])
    ++ (if nonempty (problem structured_data)
        then [cps "Problem: " ++ problem structured_data] else [])
    ++ (if nonempty (resolution structured_data)
        then [cps "Resolution: " ++ resolution structured_data] else []) in
  let answer :=
    match answer_parts with
    | [] => cps "Please refer to the documentation for more information."
    | _ => join [10; 10] answer_parts
    end in
  (question, answer).

(** The body of [for row in reader] once [row['content']] is at hand:
    the dictionary [processed_entry]. *)
Definition processed_entry (content : text) : Manager.entry :=
  let structured := extract_structured_content content in
  let tags :=
    generate_tags (title structured) (description structured)
                  (problem structured) (resolution structured) in
  let priority :=
    determine_priority (title structured) (problem structured)
                       (resolution structured) in
  let qa := create_qa_format structured in
  {| Manager.fields :=
       <[Manager.k_question := Manager.Str qa.1]>
       (<[Manager.k_answer := Manager.Str qa.2]>
        (<[Manager.k_category := Manager.Str (cps "datadog-mulesoft")]>
         (<[Manager.k_tags := Manager.Str (join_with 44 tags)]>
          (<[Manager.k_priority := Manager.Str priority]> ∅))));
     Manager.overflow := None |}.

(** [row['content']] as [extract_structured_content] needs it. *)
Definition content_of (row : Manager.entry) : outcome text :=
  match Manager.fields row !! cps "content" with
  | None => Failed KeyError
  | Some Manager.NoneV => Failed TypeError
  | Some (Manager.Str s) => Done s
  end.

(** [for row in reader: ... processed_entries.append(processed_entry)] *)
Fixpoint process_rows (rows : list Manager.entry)
    : outcome (list Manager.entry) :=
  match rows with
  | [] => Done []
  | row :: rest =>
      match content_of row with
      | Failed e => Failed e
      | Done content =>
          match process_rows rest with
          | Failed e => Failed e
          | Done processed_entries =>
              Done (processed_entry content :: processed_entries)
          end
      end
  end.

(** [process_knowledge_base]: the input is read to its end before the
    output is opened; the header is written even when there is no entry.
    An exception leaves the script, with what was written until then:
    that of the loop body for a row that the reader has yielded, then
    that of the reader, both before the output is opened, or that of the
    writer. *)
Definition process_knowledge_base (input_file output_file : text)
    (d : Manager.directory) : Manager.directory * outcome unit :=
  match Manager.lookup_file input_file d with
  | None => (d, Failed FileNotFoundError)
  | Some f =>
      match Manager.csv_reader f with
      | (rows, raised) =>
          match process_rows (Manager.dict_reader rows) with
          | Failed e => (d, Failed e)
          | Done processed_entries =>
              if raised then (d, Failed CsvError)
              else
                match Manager.writerows processed_entries [Manager.fieldnames] with
                | (content, Manager.Ok _) =>
                    (Manager.write_file output_file content d, Done tt)
                | (content, Manager.Raise _) =>
                    (Manager.write_file output_file content d, Failed ValueError)
                end
          end
      end
  end.

End WithLower.

End Synthesizer.

(** ** Documentation processor ([process_web_documentation.py]) *)

Module Documentation.
Import Classifier.

(** *** The fragment of [re.sub] that the script uses

    The patterns are sequences of one-character classes, some of them
    repeated greedily.  [re.sub] walks the text from left to right: where
    the pattern matches, the match is replaced and the walk goes on after
    it; elsewhere the character is copied. *)

Inductive pattern :=
| One (p : N → bool)     (* one character of the class *)
| Many (p : N → bool)    (* the class, zero or more times, greedy *)
| Then (a b : pattern).

(** The greedy repetition: the longest run first, then shorter ones. *)
Fixpoint many {R} (p : N → bool) (s : text) (cont : text → option R)
    : option R :=
  let more :=
    match s with
    | c :: s' => if p c then many p s' cont else None
    | [] => None
    end in
  match more with Some r => Some r | None => cont s end.

(** [pmatch r s cont]: match [r] at the start of [s]; [cont] receives the
    rest of the text. *)
Fixpoint pmatch {R} (r : pattern) (s : text) (cont : text → option R)
    : option R :=
  match r with
  | One p =>
      match s with
      | c :: s' => if p c then cont s' else None
      | [] => None
      end
  | Many p => many p s cont
  | Then a b => pmatch a s (λ s', pmatch b s' cont)
  end.

(** The walk of [re.sub]; [skip] counts the characters that are still
    part of the match that was replaced last.  A match of no character is
    replaced too, and the character after it is copied. *)
Fixpoint sub_from (r : pattern) (repl s : text) (skip : nat) : text :=
  match s with
  | [] =>
      match pmatch r [] Some with
      | Some _ => repl
      | None => []
      end
  | c :: s' =>
      match skip with
      | S n => sub_from r repl s' n
      | O =>
          match pmatch r s Some with
          | None => c :: sub_from r repl s' 0
          | Some rest =>
              match (length s - length rest)%nat with
              | O => repl ++ c :: sub_from r repl s' 0
              | S n => repl ++ sub_from r repl s' n
              end
          end
      end
  end.

(** [re.sub(r, repl, s)] *)
Definition re_sub (r : pattern) (repl s : text) : text := sub_from r repl s 0.

(** The classes [[®™©]] and [\n]. *)
Definition trademark (c : N) : bool :=
  (c =? 0xae) || (c =? 0x2122) || (c =? 0xa9).

Definition line_feed (c : N) : bool := c =? 10.

(** [r'[®™©]'] *)
Definition trademarks_re : pattern := One trademark.

(** [r'\n\s*\n'] *)
Definition empty_lines_re : pattern :=
  Then (One line_feed) (Then (Many isspace) (One line_feed)).

(** [r'\n\s+'] *)
Definition leading_spaces_re : pattern :=
  Then (One line_feed) (Then (One isspace) (Many isspace)).

(** [r'\s+'] *)
Definition spaces_re : pattern := Then (One isspace) (Many isspace).

(** [r'\n{3,}'] *)
Definition line_breaks_re : pattern :=
  Then (One line_feed)
    (Then (One line_feed) (Then (One line_feed) (Many line_feed))).

(** [self.category] and [self.base_tags] *)
Definition category : text := cps "datadog-mulesoft-docs".

Definition base_tags : list text :=
  [cps "datadog"; cps "mulesoft"; cps "documentation"].

(** [list(dict.fromkeys(tags))]: the first occurrence of each tag, in
    order. *)
Definition fromkeys (tags : list text) : list text :=
  fold_left (λ keys tag, if bool_decide (tag ∈ keys) then keys else keys ++ [tag])
            tags [].

(** [if cond: tags.append(tag)] as the list of what is appended. *)
Definition tag_if (cond : bool) (tag : text) : list text :=
  if cond then [tag] else [].

(** [clean_and_format_answer] *)
Definition clean_and_format_answer (content : text) : text :=
  let content := re_sub trademarks_re [] content in
  let content := re_sub empty_lines_re [10; 10] content in
  let content := re_sub leading_spaces_re [10] content in
  let content := re_sub spaces_re (cps " ") content in
  let content := strip (Normalizer.str_replace 10 [10; 10] content) in
  let content := re_sub line_breaks_re [10; 10] content in
  content.

Section WithCase.

(** [str.upper] and [str.lower]; the Unicode tables are parameters. *)
Variable toupper_full : N → text.
Variable lower : text → text.

(** [extract_title_and_topic] *)
Definition extract_title_and_topic (content : text) : text * text :=
  let lines := filter (λ line, line ≠ []) (map strip (split_on 10 content)) in
  match lines with
  | [] => (cps "Documentation", cps "general")
  | title :: _ =>
      let title := re_sub trademarks_re [] title in
      let title := strip (re_sub spaces_re (cps " ") title) in
      let topic :=
        if contains (cps "DATADOG") (upper toupper_full title) then cps "datadog"
        else if contains (cps "CLOUDWATCH") (upper toupper_full title)
             then cps "cloudwatch"
        else if contains (cps "APM") (upper toupper_full title) then cps "apm"
        else if contains (cps "MULE") (upper toupper_full title)
             then cps "mulesoft"
        else cps "integration" in
      (title, topic)
  end.

(** [generate_question_from_content]; its parameter [content] is not
    used. *)
Definition generate_question_from_content (title content content_type : text)
    : text :=
  let title :=
    Normalizer.str_replace 0x2122 [] (Normalizer.str_replace 0xae [] title) in
  if decide (content_type = cps "overview")
  then cps "What is " ++ title ++ cps " and how does it work?"
  else if decide (content_type = cps "configuration") then
    if contains (cps "SERVICE") (upper toupper_full title)
    then cps "How do I configure the service for " ++ title ++ cps "?"
    else cps "How do I configure " ++ title ++ cps "?"
  else if decide (content_type = cps "installation")
  then cps "How do I install " ++ title ++ cps "?"
  else if decide (content_type = cps "monitoring")
  then cps "How do I set up monitoring with " ++ title ++ cps "?"
  else if decide (content_type = cps "dashboard")
  then cps "What dashboards are available for " ++ title ++ cps "?"
  else if decide (content_type = cps "troubleshooting")
  then cps "How do I troubleshoot issues with " ++ title ++ cps "?"
  else if decide (content_type = cps "architecture")
  then cps "What is the system architecture for " ++ title ++ cps "?"
  else if decide (content_type = cps "ootb-assets")
  then cps "What out-of-the-box assets are available for " ++ title ++ cps "?"
  else if decide (content_type = cps "cost-optimization")
  then cps "How can I optimize costs for " ++ title ++ cps "?"
  else cps "What do I need to know about " ++ title ++ cps "?".

(** [generate_tags] *)
Definition generate_tags (title content content_type topic : text)
    : list text :=
  let tags := base_tags ++ [content_type] in
  let tags := tags ++ tag_if (negb (bool_decide (topic ∈ tags))) topic in
  let content_lower := lower content in
  let title_lower := lower title in
  let mentioned (word : text) : bool :=
    contains word content_lower || contains word title_lower in
  let tags := tags ++ tag_if (mentioned (cps "cloudwatch")) (cps "cloudwatch") in
  let tags := tags ++ tag_if (mentioned (cps "apm")) (cps "apm") in
  let tags := tags ++ tag_if (mentioned (cps "connector")) (cps "connector") in
  let tags := tags ++ tag_if (mentioned (cps "dashboard")) (cps "dashboard") in
  let tags := tags ++ tag_if (mentioned (cps "monitor")) (cps "monitoring") in
  let tags :=
    tags ++ tag_if (mentioned (cps "installation")) (cps "installation") in
  let tags :=
    tags ++ tag_if (mentioned (cps "configuration")) (cps "configuration") in
  let tags :=
    tags ++ tag_if (mentioned (cps "troubleshoot")) (cps "troubleshooting") in
  let tags :=
    tags ++ tag_if (mentioned (cps "architecture")) (cps "architecture") in
  let tags := tags ++ tag_if (mentioned (cps "cost")) (cps "cost-optimization") in
  let tags :=
    tags ++ tag_if (contains (cps "ootb") content_lower
                    || contains (cps "out of the box") content_lower)
                   (cps "ootb") in
  take 6 (fromkeys tags).

(** [determine_priority] *)
Definition determine_priority (content_type content : text) : text :=
  let content_lower := lower content in
  if bool_decide (content_type
                  ∈ [cps "overview"; cps "installation"; cps "configuration"])
  then cps "high"
  else if bool_decide (content_type = cps "troubleshooting")
          || existsb (λ word, contains word content_lower)
               [cps "error"; cps "issue"; cps "problem"; cps "troubleshoot";
                cps "fail"; cps "debug"]
  then cps "high"
  else if bool_decide (content_type
                       ∈ [cps "monitoring"; cps "dashboard"; cps "architecture"])
  then cps "medium"
  else if bool_decide (content_type ∈ [cps "connector"; cps "integration"])
  then cps "medium"
  else if bool_decide (content_type ∈ [cps "ootb-assets"; cps "cost-optimization"])
  then cps "low"
  else cps "medium".

(** [process_entry] once [entry['content']] is at hand. *)
Definition processed_entry (content : text) : Manager.entry :=
  let title_topic := extract_title_and_topic content in
  let content_type := detect_content_type toupper_full content in
  let question :=
    generate_question_from_content title_topic.1 content content_type in
  let answer := clean_and_format_answer content in
  let tags := generate_tags title_topic.1 content content_type title_topic.2 in
  let priority := determine_priority content_type content in
  {| Manager.fields :=
       <[Manager.k_question := Manager.Str question]>
       (<[Manager.k_answer := Manager.Str answer]>
        (<[Manager.k_category := Manager.Str category]>
         (<[Manager.k_tags := Manager.Str (join_with 44 tags)]>
          (<[Manager.k_priority := Manager.Str priority]> ∅))));
     Manager.overflow := None |}.

(** [process_entry]: [None] when it raises, for want of a column
    [content] ([KeyError]) or of a cell under it ([None] has no
    [split]); the caller catches the exception and goes on. *)
Definition process_entry (entry : Manager.entry) : option Manager.entry :=
  match Manager.fields entry !! cps "content" with
  | Some (Manager.Str content) => Some (processed_entry content)
  | _ => None
  end.

(** What [process_documentation_csv] raises again: the input file is
    missing, the reader refuses a cell longer than the field size limit
    ([csv.Error]), the writer refuses a dictionary, or
    [generate_statistics] divides the sum of the lengths by the number of
    entries, which is zero. *)
Inductive failure :=
  FileNotFoundError | CsvError | ValueError | ZeroDivisionError.

(** [process_documentation_csv]: the rows that cannot be processed are
    left out; the loop over the reader stands in the outer [try], so the
    exception of the reader is raised again before the output is
    opened; the statistics come after the output is written.  [None]
    stands for a normal return. *)
Definition process_documentation_csv (input_file output_file : text)
    (d : Manager.directory) : Manager.directory * option failure :=
  match Manager.lookup_file input_file d with
  | None => (d, Some FileNotFoundError)
  | Some f =>
      match Manager.csv_reader f with
      | (_, true) => (d, Some CsvError)
      | (rows, false) =>
          let processed_entries :=
            omap process_entry (Manager.dict_reader rows) in
          match Manager.writerows processed_entries [Manager.fieldnames] with
          | (content, Manager.Ok _) =>
              (Manager.write_file output_file content d,
               match processed_entries with
               | [] => Some ZeroDivisionError
               | _ => None
               end)
          | (content, Manager.Raise _) =>
              (Manager.write_file output_file content d, Some ValueError)
          end
      end
  end.

End WithCase.

End Documentation.

(** ** Notions used to state the properties of the documentation processor *)

Module Spacing.

(** Every white-space character of the text is a space, and what
    follows it, if anything, is not white space: one line, the words one
    space apart. *)
Fixpoint single_spaced (t : text) : bool :=
  match t with
  | [] => true
  | c :: t' =>
      (if isspace c
       then (c =? 32) && match t' with
                         | [] => true
                         | c' :: _ => negb (isspace c')
                         end
       else true)
      && single_spaced t'
  end.

End Spacing.

(** ** Notions used to state the properties of the written corpora *)

Module Written.
Import Manager.

(** The row dictionary holds a string under [content]. *)
Definition has_content (e : entry) : bool :=
  match fields e !! cps "content" with
  | Some (Str _) => true
  | _ => false
  end.

(** A row of five cells whose category, tags and priority need no
    repair and hold no carriage return. *)
Definition tidy_row (r : row) : Prop :=
  ∃ q a c t p,
    r = [q; a; c; t; p]
    ∧ (13 ∉ c) ∧ strip c ≠ []
    ∧ (13 ∉ t) ∧ strip t = t ∧ cleaned_tags t = t
    ∧ p ∈ [cps "high"; cps "low"; cps "medium"].

End Written.

(** ** The files of the character normalizer ([fix_csv_encoding.py]) *)

Module Fixer.
Import Normalizer Manager.

(** [list(dict.fromkeys(names))]: the keys of a row dictionary, in the
    order in which [dict(zip(fieldnames, row))] and the padding with
    [restval] insert them. *)
Definition keys_of (names : list text) : list text :=
  fold_left (λ keys k, if bool_decide (k ∈ keys) then keys else keys ++ [k])
            names [].

(** [fix_text] handed the list of surplus cells that stands under the
    key [None]: [in] and [count] work on a list, [replace] does not, so
    the call raises as soon as a cell is one character of the table;
    otherwise the list comes back with no change. *)
Definition fix_cells (cells : list text) : result (list text) :=
  if existsb (λ cr : N * text, bool_decide ([cr.1] ∈ cells)) character_replacements
  then Raise AttributeError
  else Ok cells.

(** *** Analysis *)

(** One element of [analysis['sample_issues']]. *)
Record sample := Sample {
  sample_row : nat;
  sample_field : text;
  sample_changes : list change;
  sample_preview : text
}.

(** The dictionary [analysis]. *)
Record analysis := Analysis {
  file_path : text;
  total_rows : nat;
  rows_with_issues : nat;
  total_replacements : nat;
  issues_by_field : list (text * nat);
  sample_issues : list sample
}.

(** [field_value[:100] + '...' if len(field_value) > 100 else field_value] *)
Definition preview (field_value : text) : text :=
  if (100 <? length field_value)%nat
  then take 100 field_value ++ cps "..."
  else field_value.

(** [if field_name not in d: d[field_name] = 0] and [d[field_name] += 1] *)
Fixpoint bump (field_name : text) (counts : list (text * nat))
    : list (text * nat) :=
  match counts with
  | [] => [(field_name, 1%nat)]
  | (k, n) :: counts' =>
      if decide (k = field_name) then (k, S n) :: counts'
      else (k, n) :: bump field_name counts'
  end.

(** The body of [for field_name, field_value in row.items()] for a value
    that is a string; the state is [row_has_issues] and the two
    collections of the analysis. *)
Definition analyze_field (row_num : nat) (field_name field_value : text)
    (st : bool * list (text * nat) * list sample)
    : bool * list (text * nat) * list sample :=
  if nonempty field_value then
    match (fix_text field_value).2 with
    | [] => st
    | changes =>
        (true, bump field_name st.1.2,
         if (length st.2 <? 5)%nat
         then st.2 ++ [Sample row_num field_name changes (preview field_value)]
         else st.2)
    end
  else st.

(** The same loop over the keys of the row, those with [None] under
    them passed over. *)
Fixpoint analyze_fields (row_num : nat) (keys : list text) (row : entry)
    (st : bool * list (text * nat) * list sample)
    : bool * list (text * nat) * list sample :=
  match keys with
  | [] => st
  | k :: keys' =>
      analyze_fields row_num keys' row
        (match fields row !! k with
         | Some (Str s) => analyze_field row_num k s st
         | _ => st
         end)
  end.

(** [for row_num, row in enumerate(reader, start=2)]; [None] when
    [fix_text] raises on the surplus cells of a row. *)
Fixpoint analyze_rows (names : list text) (row_num : nat) (rows : list entry)
    (a : analysis) : option analysis :=
  match rows with
  | [] => Some a
  | row :: rows' =>
      let st :=
        analyze_fields row_num (keys_of names) row
          (false, issues_by_field a, sample_issues a) in
      match from_option fix_cells (Ok []) (overflow row) with
      | Raise _ => None
      | Ok _ =>
          analyze_rows names (S row_num) rows'
            {| file_path := file_path a;
               total_rows := S (total_rows a);
               rows_with_issues :=
                 if st.1.1 then S (rows_with_issues a) else rows_with_issues a;
               total_replacements := total_replacements a;
               issues_by_field := st.1.2;
               sample_issues := st.2 |}
      end
  end.

(** [analyze_csv_file]: [None] when an exception is caught: that of a
    file that cannot be opened, that of [fix_text] on the surplus cells
    of a row that the reader has yielded, or that of the reader. *)
Definition analyze_csv_file (path : text) (d : directory) : option analysis :=
  match lookup_file path d with
  | None => None
  | Some f =>
      let start := Analysis path 0 0 0 [] [] in
      match csv_reader f with
      | ([], raised) => if raised then None else Some start
      | (names :: rows, raised) =>
          match analyze_rows names 2
                  (map (dict_of_row names) (filter (λ r, r ≠ []) rows)) start with
          | None => None
          | Some a => if raised then None else Some a
          end
      end
  end.

(** *** Repair *)

(** [fixed_row[field_name] = ...] for one value that is not a list. *)
Definition fix_field (v : value) : value :=
  match v with
  | Str s => if nonempty s then Str (fix_text s).1 else Str s
  | NoneV => NoneV
  end.

(** The dictionary [fixed_row]. *)
Definition fix_row (row : entry) : result entry :=
  match overflow row with
  | None => Ok {| fields := fix_field <$> fields row; overflow := None |}
  | Some cells =>
      match fix_cells cells with
      | Raise x => Raise x
      | Ok cells' =>
          Ok {| fields := fix_field <$> fields row; overflow := Some cells' |}
      end
  end.

(** [for row in reader: ... rows.append(fixed_row)] *)
Fixpoint fix_rows (rows : list entry) : result (list entry) :=
  match rows with
  | [] => Ok []
  | row :: rows' =>
      match fix_row row with
      | Raise x => Raise x
      | Ok fixed_row =>
          match fix_rows rows' with
          | Raise x => Raise x
          | Ok fixed => Ok (fixed_row :: fixed)
          end
      end
  end.

(** [csv.DictWriter(f, fieldnames=names)]: what it accepts and the row
    it writes. *)
Definition accepted (names : list text) (e : entry) : Prop :=
  overflow e = None ∧ dom (fields e) ⊆@{gset text} list_to_set names.

#[export] Instance accepted_dec names e : Decision (accepted names e).
Proof. unfold accepted. apply _. Defined.

Definition row_for (names : list text) (e : entry) : row :=
  map (λ k, cell_of (fields e !! k)) names.

Fixpoint writerows_for (names : list text) (entries : list entry)
    (written : file) : file * result unit :=
  match entries with
  | [] => (written, Ok tt)
  | e :: entries' =>
      if decide (accepted names e)
      then writerows_for names entries' (written ++ [row_for names e])
      else (written, Raise ValueError)
  end.

(** [file_path.with_suffix(f'{file_path.suffix}.backup')] *)
Definition backup_path (path : text) : text := path ++ cps ".backup".

(** [fix_csv_file]: the backup is copied before anything is tried; every
    exception after that is caught and turned into [False].  The file is
    read to its end before it is opened for writing, which truncates it,
    so an exception of the reader or of [fix_text] leaves the file as it
    is.  An empty file has no header: [writeheader] raises on [None].
    The result is [None] when [shutil.copy2] raises for want of the
    file. *)
Definition fix_csv_file (path : text) (backup : bool) (d : directory)
    : directory * option bool :=
  match lookup_file path d with
  | None => (d, if backup then None else Some false)
  | Some f =>
      let d := if backup then write_file (backup_path path) f d else d in
      match csv_reader f with
      | ([], raised) =>
          if raised then (d, Some false)
          else (write_file path [] d, Some false)
      | (names :: rows, raised) =>
          match fix_rows (map (dict_of_row names) (filter (λ r, r ≠ []) rows)) with
          | Raise _ => (d, Some false)
          | Ok fixed =>
              if raised then (d, Some false)
              else
                match writerows_for names fixed [names] with
                | (content, Ok _) => (write_file path content d, Some true)
                | (content, Raise _) => (write_file path content d, Some false)
                end
          end
      end
  end.

(** *** Several files *)

(** The dictionary [results]. *)
Record results := Results {
  analyzed_files : nat;
  files_with_issues : nat;
  total_fixes_needed : nat;
  files_processed : list text
}.

(** [process_files]; [None] when the exception of [fix_csv_file] leaves
    the loop. *)
Fixpoint process_files (file_paths : list text) (dry_run : bool)
    (d : directory) (res : results) : directory * option results :=
  match file_paths with
  | [] => (d, Some res)
  | path :: rest =>
      match lookup_file path d with
      | None => process_files rest dry_run d res
      | Some _ =>
          match analyze_csv_file path d with
          | None => process_files rest dry_run d res
          | Some a =>
              let res :=
                Results (S (analyzed_files res)) (files_with_issues res)
                        (total_fixes_needed res) (files_processed res) in
              if (0 <? rows_with_issues a)%nat then
                let res :=
                  Results (analyzed_files res) (S (files_with_issues res))
                          (total_fixes_needed res + rows_with_issues a)
                          (files_processed res) in
                if dry_run then process_files rest dry_run d res
                else
                  match fix_csv_file path true d with
                  | (d', None) => (d', None)
                  | (d', Some true) =>
                      process_files rest dry_run d'
                        (Results (analyzed_files res) (files_with_issues res)
                                 (total_fixes_needed res)
                                 (files_processed res ++ [path]))
                  | (d', Some false) => process_files rest dry_run d' res
                  end
              else process_files rest dry_run d res
          end
      end
  end.

End Fixer.

(** ** Notions used to state the properties of the repaired files *)

Module Clean.
Import Normalizer Manager.

(** A text without any character of the replacement table. *)
Definition clean (t : text) : Prop :=
  Forall (λ x, x ∉ character_replacements.*1) t.

(** A row dictionary without surplus cells whose strings are clean. *)
Definition clean_entry (e : entry) : Prop :=
  overflow e = None ∧ ∀ k s, fields e !! k = Some (Str s) → clean s.

(** [fixed_row] for a row without surplus cells. *)
Definition fixed_entry (e : entry) : entry :=
  {| fields := Fixer.fix_field <$> fields e; overflow := None |}.

End Clean.

(** ** Inputs of the further scenarios *)

Module Samples.
Import Manager.

Definition raw_csv : text := cps "knowledge-base.csv".
Definition enhanced_csv : text := cps "enhanced.csv".
Definition web_csv : text := cps "web-documentation.csv".

(** A raw knowledge base with one article. *)
Definition raw_dir : directory :=
  [ (raw_csv,
     [ [cps "id"; cps "content"];
       [cps "1";
        cps "Title: Agent fails" ++ [10] ++ cps "Problem: error on start"
        ++ [10] ++ cps "Resolution: restart the agent"] ]) ].

(** Scraped documentation: one page, and one row that is too short to
    have a content. *)
Definition web_file : file :=
  [ [cps "id"; cps "content"];
    [cps "1";
     cps "Datadog" ++ [0xae] ++ cps "  Overview" ++ [10; 10]
     ++ cps "  Monitor   your" ++ [9] ++ cps "Mule apps. "];
    [cps "2"] ].

Definition web_dir : directory := [ (web_csv, web_file) ].

(** A corpus with typographic quotes, a short row and a blank line. *)
Definition quotes_dir : directory :=
  [ (Scenarios.kb_csv,
     [ [cps "question"; cps "answer"];
       [[0x201c] ++ cps "hi" ++ [0x201d]; cps "5" ++ [0x20ac]];
       [];
       [cps "short"] ]) ].

(** The same once repaired, with its backup. *)
Definition quotes_fixed : file :=
  [ [cps "question"; cps "answer"];
    [[34] ++ cps "hi" ++ [34]; cps "5EUR"];
    [cps "short"; []] ].

(** Content that is white space only. *)
Definition blank_content : text := [32; 32; 10; 9; 10].

(** A corpus with one column and one cell. *)
Definition one_cell_dir (c : text) : directory :=
  [ (Scenarios.kb_csv, [ [cps "question"]; [c] ]) ].

(** A run of ellipses that is within the field size limit, and the run
    of dots that the repair makes of it, which is not. *)
Definition ellipsis_count : nat := N.to_nat 43691.
Definition ellipses : text := replicate ellipsis_count 0x2026.
Definition dots : text := replicate (3 * ellipsis_count) 46.

End Samples.

(** * Properties *)

(** ** Trimming, splitting and joining *)

Module TextFacts.

Lemma lstrip_suffix t : ∃ ws, t = ws ++ lstrip t.
Proof.
  induction t as [|c t [ws IH]]; [by exists []|]. simpl.
  destruct (isspace c); [|by exists []].
  exists (c :: ws). simpl. by f_equal.
Qed.

Lemma lstrip_first t : no_space_first (lstrip t).
Proof.
  induction t as [|c t IH]; simpl; [done|].
  by destruct (isspace c) eqn:Hc; simpl.
Qed.

Lemma lstrip_id t : no_space_first t → lstrip t = t.
Proof. destruct t as [|c t]; simpl; [done|]. by intros ->. Qed.

Lemma rstrip_prefix t : ∃ ws, t = rstrip t ++ ws.
Proof.
  unfold rstrip. destruct (lstrip_suffix (reverse t)) as [ws Hws].
  exists (reverse ws). rewrite <- reverse_app, <- Hws. by rewrite reverse_involutive.
Qed.

Lemma strip_first t : no_space_first (strip t).
Proof.
  unfold strip. pose proof (lstrip_first t) as Hl.
  destruct (rstrip_prefix (lstrip t)) as [ws Hws].
  destruct (rstrip (lstrip t)) as [|c r]; [done|].
  rewrite Hws in Hl. exact Hl.
Qed.

Lemma strip_last t : no_space_first (reverse (strip t)).
Proof.
  unfold strip, rstrip. rewrite reverse_involutive. apply lstrip_first.
Qed.

Lemma strip_id t :
  no_space_first t → no_space_first (reverse t) → strip t = t.
Proof.
  intros H1 H2. unfold strip, rstrip.
  by rewrite (lstrip_id t H1), (lstrip_id _ H2), reverse_involutive.
Qed.

Lemma strip_strip t : strip (strip t) = strip t.
Proof. apply strip_id; [apply strip_first|apply strip_last]. Qed.

Lemma elem_of_lstrip x t : x ∈ lstrip t → x ∈ t.
Proof.
  destruct (lstrip_suffix t) as [ws Hws]. intros Hx.
  rewrite Hws. apply elem_of_app. by right.
Qed.

Lemma elem_of_strip x t : x ∈ strip t → x ∈ t.
Proof.
  unfold strip. intros Hx. apply elem_of_lstrip.
  destruct (rstrip_prefix (lstrip t)) as [ws Hws].
  rewrite Hws. apply elem_of_app. by left.
Qed.

Lemma split_on_cons sep c t :
  split_on sep (c :: t)
  = if c =? sep then [] :: split_on sep t
    else match split_on sep t with
         | p :: ps => (c :: p) :: ps
         | [] => [[c]]
         end.
Proof. done. Qed.

Lemma split_on_not_nil sep t : split_on sep t ≠ [].
Proof.
  destruct t as [|c t]; [done|]. rewrite split_on_cons.
  destruct (c =? sep); [done|]. by destruct (split_on sep t).
Qed.

Lemma split_on_no_sep sep t : Forall (λ p, sep ∉ p) (split_on sep t).
Proof.
  induction t as [|c t IH].
  - repeat constructor. apply not_elem_of_nil.
  - rewrite split_on_cons. destruct (N.eqb_spec c sep) as [->|Hne].
    + constructor; [apply not_elem_of_nil|done].
    + destruct (split_on sep t) as [|p ps].
      * repeat constructor. by intros ->%list_elem_of_singleton.
      * apply Forall_cons in IH as [Hp Hps]. constructor; [|done].
        apply not_elem_of_cons. by split.
Qed.

Lemma elem_of_split_on sep t p x : p ∈ split_on sep t → x ∈ p → x ∈ t.
Proof.
  revert p. induction t as [|c t IH]; intros p.
  - intros ->%list_elem_of_singleton. done.
  - rewrite split_on_cons. destruct (c =? sep).
    + intros [->|Hp]%elem_of_cons; [by intros ?%elem_of_nil|].
      intros Hx. right. by apply (IH p).
    + destruct (split_on sep t) as [|q qs].
      * intros ->%list_elem_of_singleton ->%list_elem_of_singleton. left.
      * intros [->|Hp]%elem_of_cons.
        -- intros [->|Hx]%elem_of_cons; [left|right]. apply (IH q); [left|done].
        -- intros Hx. right. apply (IH p); [by right|done].
Qed.

Lemma split_on_whole sep p : sep ∉ p → split_on sep p = [p].
Proof.
  induction p as [|c p IH]; [done|].
  rewrite not_elem_of_cons. intros [Hc Hp]. rewrite split_on_cons.
  destruct (N.eqb_spec c sep) as [->|_]; [done|]. by rewrite IH.
Qed.

Lemma split_on_app sep p t :
  sep ∉ p → split_on sep (p ++ sep :: t) = p :: split_on sep t.
Proof.
  induction p as [|c p IH]; simpl app.
  - intros _. rewrite split_on_cons. by rewrite N.eqb_refl.
  - rewrite not_elem_of_cons. intros [Hc Hp]. rewrite split_on_cons.
    destruct (N.eqb_spec c sep) as [->|_]; [done|]. by rewrite IH.
Qed.

Lemma join_with_cons sep p q qs :
  join_with sep (p :: q :: qs) = p ++ sep :: join_with sep (q :: qs).
Proof. done. Qed.

Lemma split_on_join sep parts :
  parts ≠ [] → Forall (λ p, sep ∉ p) parts →
  split_on sep (join_with sep parts) = parts.
Proof.
  intros Hne H. induction H as [|p parts Hp Hparts IH]; [done|].
  destruct parts as [|q qs].
  - simpl. by apply split_on_whole.
  - rewrite join_with_cons, split_on_app by done. by rewrite IH.
Qed.

Lemma elem_of_join_with sep parts x :
  x ∈ join_with sep parts → x = sep ∨ ∃ p, p ∈ parts ∧ x ∈ p.
Proof.
  induction parts as [|p parts IH]; [by intros ?%elem_of_nil|].
  destruct parts as [|q qs].
  - simpl. intros Hx. right. exists p. split; [left|done].
  - rewrite join_with_cons, elem_of_app, elem_of_cons.
    intros [Hx|[->|Hx]]; [right|by left|].
    + exists p. split; [left|done].
    + destruct (IH Hx) as [->|(p' & Hp' & Hx')]; [by left|right].
      exists p'. split; [by right|done].
Qed.

(** Trimming, splitting and joining never make a text longer. *)
Lemma length_lstrip t : (length (lstrip t) ≤ length t)%nat.
Proof.
  destruct (lstrip_suffix t) as [ws Hws]. rewrite Hws at 2.
  rewrite length_app. lia.
Qed.

Lemma length_strip t : (length (strip t) ≤ length t)%nat.
Proof.
  unfold strip. destruct (rstrip_prefix (lstrip t)) as [ws Hws].
  pose proof (length_lstrip t) as Hl. rewrite Hws, length_app in Hl. lia.
Qed.

Lemma length_join_with sep parts :
  length (join_with sep parts) = (weight parts - 1)%nat.
Proof.
  induction parts as [|p parts IH]; [done|].
  destruct parts as [|q qs].
  - unfold weight. simpl. lia.
  - rewrite join_with_cons, length_app. cbn [length]. rewrite IH.
    unfold weight. simpl. lia.
Qed.

Lemma weight_split_on sep t : weight (split_on sep t) = S (length t).
Proof.
  induction t as [|c t IH]; [done|]. rewrite split_on_cons.
  destruct (c =? sep).
  - unfold weight in *. simpl. lia.
  - destruct (split_on sep t) as [|p ps]; unfold weight in *; simpl in *; lia.
Qed.

Lemma weight_strip_filter (P : text → Prop) `{∀ p, Decision (P p)} parts :
  (weight (filter P (map strip parts)) ≤ weight parts)%nat.
Proof.
  induction parts as [|p parts IH]; [done|]. cbn [map].
  pose proof (length_strip p) as Hp. rewrite filter_cons.
  destruct (decide (P (strip p))); unfold weight in *; simpl in *; lia.
Qed.

End TextFacts.

(** ** The character normalizer *)

Module NormalizerProofs.
Import Normalizer.

Lemma char_in_false c t : char_in c t = false ↔ c ∉ t.
Proof.
  unfold char_in. induction t as [|x t IH]; simpl.
  - split; [intros _; apply not_elem_of_nil | done].
  - rewrite orb_false_iff, IH, not_elem_of_cons, N.eqb_neq. tauto.
Qed.

Lemma str_replace_absent c r t : c ∉ t → str_replace c r t = t.
Proof.
  induction t as [|x t IH]; simpl; [done|].
  rewrite not_elem_of_cons. intros [Hx Ht].
  destruct (N.eqb_spec x c) as [->|_]; [done|]. simpl. by rewrite IH.
Qed.

Lemma elem_of_str_replace c r t x :
  x ∈ str_replace c r t → (x ∈ t ∧ x ≠ c) ∨ x ∈ r.
Proof.
  induction t as [|y t IH]; simpl.
  - by intros ?%elem_of_nil.
  - rewrite elem_of_app. intros [Hx|Hx].
    + destruct (N.eqb_spec y c) as [->|Hne]; [by right|].
      apply list_elem_of_singleton in Hx as ->. left. split; [left|done].
    + destruct (IH Hx) as [[? ?]|?]; [left|by right]. split; [by right|done].
Qed.

(** A table entry whose character the text does not hold is skipped. *)
Lemma fix_loop_absent table t changes :
  Forall (λ cr, cr.1 ∉ t) table → fix_loop table t changes = (t, changes).
Proof.
  induction 1 as [|[c r] table Hc _ IH]; simpl in *; [done|].
  apply char_in_false in Hc. by rewrite Hc.
Qed.

(** After the loop over a table, a character of the whole table's keys
    can only remain if it was not a key of the part that was run. *)
Lemma fix_loop_clean (keys : list N) table t changes :
  Forall (λ cr, Forall (λ x, x ∉ keys) cr.2) table →
  (∀ x, x ∈ t → x ∈ keys → x ∈ table.*1) →
  Forall (λ x, x ∉ keys) (fix_loop table t changes).1.
Proof.
  intros Htable. revert t changes.
  induction Htable as [|[c r] table Hr _ IH]; intros t changes Ht; simpl.
  - apply Forall_forall. intros x Hx Hk. by apply (Ht x Hx), elem_of_nil in Hk.
  - destruct (char_in c t) eqn:Hc.
    + apply IH. intros x Hx Hk.
      apply elem_of_str_replace in Hx as [[Hx Hne]|Hx].
      * specialize (Ht x Hx Hk). simpl in Ht.
        apply elem_of_cons in Ht as [?|?]; [done|done].
      * simpl in Hr. rewrite Forall_forall in Hr. by destruct (Hr x Hx).
    + apply IH. intros x Hx Hk. apply char_in_false in Hc.
      specialize (Ht x Hx Hk). simpl in Ht.
      apply elem_of_cons in Ht as [->|?]; [done|done].
Qed.

Lemma replacements_are_plain :
  Forall (λ cr, Forall (λ x, x ∉ character_replacements.*1) cr.2)
         character_replacements.
Proof.
  repeat constructor; by apply (bool_decide_unpack _); vm_compute.
Qed.

Lemma fix_text_clean t :
  Forall (λ x, x ∉ character_replacements.*1) (fix_text t).1.
Proof.
  destruct t as [|c t]; [constructor|]. unfold fix_text.
  apply fix_loop_clean; [apply replacements_are_plain|].
  intros x _ Hx. exact Hx.
Qed.

Lemma fix_text_of_clean t :
  Forall (λ x, x ∉ character_replacements.*1) t → fix_text t = (t, []).
Proof.
  intros Ht. destruct t as [|c t]; [done|]. unfold fix_text.
  apply fix_loop_absent. apply Forall_forall. intros [k r] Hk Hin.
  rewrite Forall_forall in Ht. apply (Ht k Hin).
  apply list_elem_of_fmap. by exists (k, r).
Qed.

(** One step of the loop over the table. *)
Lemma fix_loop_skip c r table t changes :
  c ∉ t → fix_loop ((c, r) :: table) t changes = fix_loop table t changes.
Proof. intros Hc%char_in_false. simpl. by rewrite Hc. Qed.

Lemma fix_loop_hit c r table t changes :
  c ∈ t →
  fix_loop ((c, r) :: table) t changes
  = fix_loop table (str_replace c r t) (changes ++ [Change c r (str_count c t)]).
Proof.
  intros Hc. simpl. destruct (char_in c t) eqn:E; [done|].
  by apply char_in_false in E.
Qed.

Lemma str_replace_ellipses n :
  str_replace 0x2026 (cps "...") (replicate n 0x2026) = replicate (3 * n) 46.
Proof.
  induction n as [|n IH]; [done|].
  cbn [replicate str_replace]. rewrite N.eqb_refl, IH.
  replace (3 * S n)%nat with (S (S (S (3 * n)))) by lia. reflexivity.
Qed.

(** A run of ellipses becomes a run of dots, three times as long. *)
Lemma fix_text_ellipses n :
  (0 < n)%nat →
  (fix_text (replicate n 0x2026)).1 = replicate (3 * n) 46.
Proof.
  intros Hn. unfold fix_text.
  destruct (replicate n 0x2026) as [|c0 t0] eqn:Hrep.
  { destruct n; [lia|done]. }
  rewrite <- Hrep. clear c0 t0 Hrep. unfold character_replacements.
  rewrite !fix_loop_skip by (by intros [? _]%elem_of_replicate).
  rewrite fix_loop_hit by (apply elem_of_replicate; split; [done|lia]).
  rewrite str_replace_ellipses.
  rewrite fix_loop_absent; [done|].
  repeat constructor; by intros [? _]%elem_of_replicate.
Qed.

(** C7. The character normalizer is idempotent: whatever text [t] is
    normalized to, normalizing that result again returns it unchanged with
    an empty list of changes; and the empty text is returned as it is, with
    an empty list of changes. *)
Theorem fix_text_idempotent :
  (∀ t, fix_text (fix_text t).1 = ((fix_text t).1, []))
  ∧ fix_text [] = ([], []).
Proof.
  split; [|done]. intros t. apply fix_text_of_clean, fix_text_clean.
Qed.

End NormalizerProofs.

(** ** The content extractor *)

Module ExtractorProofs.
Import Extractor.

(** On one line the description does stop at the next label. *)
Example description_same_line :
  section_of description_re (cps "Description: Y Problem: Z") = cps "Y".
Proof. vm_compute. reflexivity. Qed.

(** A description that closes the text is found as well. *)
Example description_last_line :
  section_of description_re (cps "Title: X" ++ [10] ++ cps "Description: Y")
  = cps "Y".
Proof. vm_compute. reflexivity. Qed.

(** C3. On the text of the first scenario,
    ["Title: X\nDescription: Y\nProblem: Z\nResolution: W"], the extractor
    returns title ["X"], problem ["Z"] and resolution ["W"], but an empty
    description instead of ["Y"]: the description pattern cannot cross the
    line break that separates the description from the [Problem:] label. *)
Theorem extract_scenario_description_empty :
  extract_structured_content scenario_text
  = {| title := cps "X"; description := []; problem := cps "Z";
       resolution := cps "W"; category := cps "datadog-mulesoft";
       tags := []; priority := cps "medium" |}.
Proof. vm_compute. reflexivity. Qed.

End ExtractorProofs.

(** ** The content classifier *)

Module ClassifierProofs.
Import Classifier.

Section WithUpper.

Variable toupper_full : N → text.

Lemma upper_app a b :
  upper toupper_full (a ++ b) = upper toupper_full a ++ upper toupper_full b.
Proof. unfold upper. apply bind_app. Qed.

Lemma starts_with_app p t : starts_with p (p ++ t) = true.
Proof.
  induction p as [|c p IH]; simpl; [done|]. by rewrite N.eqb_refl, IH.
Qed.

Lemma contains_app needle a b : contains needle (a ++ needle ++ b) = true.
Proof.
  induction a as [|c a IH]; simpl.
  - assert (contains needle (needle ++ b)
            = starts_with needle (needle ++ b)
              || match needle ++ b with [] => false | _ :: h => contains needle h end)
      as -> by by destruct (needle ++ b).
    by rewrite starts_with_app.
  - rewrite IH. apply orb_true_r.
Qed.

(** An occurrence of a marker in any mix of ASCII upper and lower case is
    an occurrence of the marker in the upper-cased content. *)
Lemma contains_upper_of_ascii_occurrence marker a m b :
  (∀ c, c < 128 → toupper_full c = [ascii_upper c]) →
  is_ascii m → map ascii_upper m = marker →
  contains marker (upper toupper_full (a ++ m ++ b)) = true.
Proof.
  intros Hup Hm <-. rewrite !upper_app.
  assert (upper toupper_full m = map ascii_upper m) as ->.
  { unfold upper. induction Hm as [|c m Hc _ IH]; [done|].
    by rewrite bind_cons, (Hup c Hc), IH. }
  apply contains_app.
Qed.

(** C8. Content-type classification takes the first match in the fixed
    order of the checks: a content whose upper-cased form holds both the
    ["OVERVIEW"] marker and the ["CONFIGURATION"] marker is classified as
    ["overview"], the check made before the one for configuration. *)
Theorem detect_overview_before_configuration (content : text) :
  contains (cps "OVERVIEW") (upper toupper_full content) = true →
  contains (cps "CONFIGURATION") (upper toupper_full content) = true →
  detect_content_type toupper_full content = cps "overview".
Proof. intros Ho _. unfold detect_content_type. by rewrite Ho. Qed.

(** Without the overview marker the configuration marker decides. *)
Lemma detect_configuration (content : text) :
  contains (cps "OVERVIEW") (upper toupper_full content) = false →
  contains (cps "CONFIGURATION") (upper toupper_full content) = true →
  detect_content_type toupper_full content = cps "configuration".
Proof. intros Ho Hc. unfold detect_content_type. by rewrite Ho, Hc. Qed.

End WithUpper.

Lemma detect_overview_before_configuration_witness :
  contains (cps "OVERVIEW")
    (upper ascii_toupper_full Scenarios.both_markers) = true
  ∧ contains (cps "CONFIGURATION")
      (upper ascii_toupper_full Scenarios.both_markers) = true
  ∧ detect_content_type ascii_toupper_full Scenarios.both_markers
    = cps "overview".
Proof.
  split; [reflexivity|]. split; [reflexivity|].
  apply (detect_overview_before_configuration ascii_toupper_full
           Scenarios.both_markers); reflexivity.
Defined.

End ClassifierProofs.

(** ** The corpus store *)

Module StoreProofs.
Import Manager.

Lemma lookup_write_file path content d :
  lookup_file path (write_file path content d) = Some content.
Proof.
  induction d as [|[name f] d IH]; simpl.
  - by rewrite decide_True.
  - destruct (decide (name = path)) as [->|Hne]; simpl.
    + by rewrite decide_True.
    + by rewrite decide_False.
Qed.

Lemma write_file_same path content d :
  lookup_file path d = Some content → write_file path content d = d.
Proof.
  induction d as [|[name f] d IH]; simpl; [done|].
  destruct (decide (name = path)) as [->|Hne].
  - by intros [= ->].
  - intros H. by rewrite IH.
Qed.

Lemma write_file_names path content d :
  path ∈ d.*1 → (write_file path content d).*1 = d.*1.
Proof.
  induction d as [|[name f] d IH]; simpl.
  - by intros ?%elem_of_nil.
  - destruct (decide (name = path)) as [->|Hne]; simpl; [done|].
    intros [?|Hin]%elem_of_cons; [done|]. f_equal. by apply IH.
Qed.

Lemma universal_newlines_id t : 13 ∉ t → universal_newlines t = t.
Proof.
  induction t as [|c t IH]; simpl; [done|].
  rewrite not_elem_of_cons. intros [Hc Ht].
  destruct (N.eqb_spec c 13) as [->|_]; [done|]. by rewrite IH.
Qed.

Lemma universal_newlines_no_cr t : 13 ∉ universal_newlines t.
Proof.
  assert (∀ n t, (length t < n)%nat → 13 ∉ universal_newlines t) as H;
    [|by apply (H (S (length t)) t); lia].
  clear t. induction n as [|n IH]; intros t Hn; [lia|].
  destruct t as [|c t]; simpl; [apply not_elem_of_nil|].
  simpl in Hn. destruct (N.eqb_spec c 13) as [->|Hc].
  - apply not_elem_of_cons. split; [done|].
    destruct t as [|c' t]; [apply not_elem_of_nil|].
    simpl in Hn. destruct (c' =? 10); apply IH; simpl; lia.
  - apply not_elem_of_cons. split; [done|]. apply IH. lia.
Qed.

Lemma universal_newlines_row (r : row) :
  Forall (λ c, 13 ∉ c) r → map universal_newlines r = r.
Proof.
  induction 1 as [|c r Hc _ IH]; simpl; [done|].
  by rewrite universal_newlines_id, IH.
Qed.

Lemma within_limit_true c :
  within_limit c = true ↔ N.of_nat (length c) ≤ field_size_limit.
Proof. unfold within_limit. apply N.leb_le. Qed.

Lemma forallb_within_limit (r : row) :
  forallb within_limit r = true ↔ Forall (λ c, within_limit c = true) r.
Proof.
  rewrite forallb_forall, Forall_forall.
  split; intros H c Hc; apply H; by apply list_elem_of_In.
Qed.

(** A file whose cells hold no carriage return and respect the limit is
    read to its end, as it stands. *)
Lemma csv_reader_id rows :
  Forall (Forall plain) rows → csv_reader rows = (rows, false).
Proof.
  induction 1 as [|r rows Hr _ IH]; [done|].
  cbn [csv_reader]. cbv zeta.
  rewrite universal_newlines_row
    by (eapply Forall_impl; [exact Hr|]; by intros c [? _]).
  rewrite (proj2 (forallb_within_limit r))
    by (eapply Forall_impl; [exact Hr|]; by intros c [_ ?]).
  by rewrite IH.
Qed.

(** What the reader yields are rows of the file, from the first row on,
    with the line ends translated. *)
Lemma csv_reader_prefix f :
  (csv_reader f).1 `prefix_of` map (map universal_newlines) f.
Proof.
  induction f as [|r f IH]; [done|]. cbn [csv_reader]. cbv zeta.
  destruct (forallb within_limit (map universal_newlines r)).
  - destruct (csv_reader f) as [rows raised]. simpl in *.
    by apply prefix_cons.
  - apply prefix_nil.
Qed.

Lemma csv_reader_plain f : Forall (Forall plain) (csv_reader f).1.
Proof.
  induction f as [|r f IH]; [constructor|]. cbn [csv_reader]. cbv zeta.
  destruct (forallb within_limit (map universal_newlines r)) eqn:Hr;
    [|constructor].
  destruct (csv_reader f) as [rows raised]. simpl in *.
  constructor; [|done]. apply forallb_within_limit in Hr.
  apply Forall_forall. intros c Hc. split.
  - apply list_elem_of_fmap in Hc as (c0 & -> & _).
    apply universal_newlines_no_cr.
  - rewrite Forall_forall in Hr. by apply Hr.
Qed.

(** The reader goes to the end of the file exactly when no cell is too
    long once its line ends are translated. *)
Lemma csv_reader_raises f : (csv_reader f).2 = false ↔ readable f.
Proof.
  unfold readable.
  induction f as [|r f IH]; [done|]. cbn [csv_reader]. cbv zeta.
  rewrite Forall_cons. rewrite <- IH.
  destruct (forallb within_limit (map universal_newlines r)) eqn:Hr.
  - apply forallb_within_limit, Forall_fmap in Hr.
    destruct (csv_reader f) as [rows raised]. simpl. tauto.
  - simpl. split; [done|]. intros [Hall _].
    assert (forallb within_limit (map universal_newlines r) = true) as Hr'
      by (by apply forallb_within_limit, Forall_fmap).
    congruence.
Qed.

Lemma csv_reader_complete f :
  (csv_reader f).2 = false → (csv_reader f).1 = map (map universal_newlines) f.
Proof.
  induction f as [|r f IH]; [done|]. cbn [csv_reader]. cbv zeta.
  destruct (forallb within_limit (map universal_newlines r)); [|done].
  destruct (csv_reader f) as [rows raised]. simpl in *.
  intros H. by rewrite IH.
Qed.

Lemma csv_reader_readable f :
  readable f → csv_reader f = (map (map universal_newlines) f, false).
Proof.
  intros H%csv_reader_raises. pose proof (csv_reader_complete f H) as Hrows.
  destruct (csv_reader f) as [rows raised]. simpl in *. by subst.
Qed.

Lemma csv_reader_unreadable f : ¬ readable f → (csv_reader f).2 = true.
Proof.
  intros H. destruct (csv_reader f).2 eqn:Hr; [done|].
  by apply csv_reader_raises in Hr.
Qed.

(** The entries that are loaded when the reader stops early are the
    first of those that the whole file holds. *)
Lemma dict_reader_prefix (rows rows' : file) :
  rows `prefix_of` rows' → dict_reader rows `prefix_of` dict_reader rows'.
Proof.
  intros [k ->]. destruct rows as [|names rows]; [apply prefix_nil|].
  simpl. rewrite filter_app, fmap_app. by eexists.
Qed.

Lemma loaded_prefix f :
  dict_reader (csv_reader f).1
  `prefix_of` dict_reader (map (map universal_newlines) f).
Proof. apply dict_reader_prefix, csv_reader_prefix. Qed.

Lemma Forall_prefix {A} (P : A → Prop) (l k : list A) :
  l `prefix_of` k → Forall P k → Forall P l.
Proof. intros [m ->] [? _]%Forall_app. done. Qed.

Lemma five_cells (r : row) :
  length r = 5%nat → ∃ q a c t p, r = [q; a; c; t; p].
Proof.
  destruct r as [|q [|a [|c [|t [|p [|]]]]]]; simpl; try lia. eauto 6.
Qed.

(** The reader's dictionary for a row of five cells under the canonical
    header, and the row the writer makes of it. *)
Lemma dict_of_row_canonical q a c t p :
  canonical_entry (dict_of_row fieldnames [q; a; c; t; p]).
Proof.
  split; [reflexivity|]. split.
  - apply (bool_decide_unpack _). vm_compute. reflexivity.
  - intros k. unfold dict_of_row. simpl.
    rewrite !lookup_insert. repeat case_decide; done.
Qed.

Lemma canonical_only_fieldnames e : canonical_entry e → only_fieldnames e.
Proof. intros (Ho & Hd & _). split; [done|]. by rewrite Hd. Qed.

Lemma row_of_dict_of_row q a c t p :
  row_of (dict_of_row fieldnames [q; a; c; t; p]) = [q; a; c; t; p].
Proof. vm_compute. reflexivity. Qed.

Lemma writerows_accepted entries written :
  Forall only_fieldnames entries →
  writerows entries written = (written ++ map row_of entries, Ok tt).
Proof.
  intros H. revert written.
  induction H as [|e entries He _ IH]; intros written; simpl.
  - by rewrite app_nil_r.
  - unfold dict_to_list. rewrite decide_True by done.
    rewrite IH. by rewrite <- app_assoc.
Qed.

Lemma writerows_refused accepted e rest written :
  Forall only_fieldnames accepted → ¬ only_fieldnames e →
  writerows (accepted ++ e :: rest) written
  = (written ++ map row_of accepted, Raise ValueError).
Proof.
  intros H He. revert written.
  induction H as [|e' accepted He' _ IH]; intros written; simpl.
  - unfold dict_to_list. rewrite decide_False by done. by rewrite app_nil_r.
  - unfold dict_to_list at 1. rewrite decide_True by done.
    rewrite IH. by rewrite <- app_assoc.
Qed.

Lemma save_csv_file_accepted file_path entries d :
  entries ≠ [] → Forall only_fieldnames entries →
  save_csv_file file_path entries d
  = (write_file file_path (fieldnames :: map row_of entries) d, true).
Proof.
  intros Hne Hall. unfold save_csv_file.
  rewrite (writerows_accepted _ _ Hall). by destruct entries.
Qed.

Lemma save_csv_file_refused file_path accepted e rest d :
  Forall only_fieldnames accepted → ¬ only_fieldnames e →
  save_csv_file file_path (accepted ++ e :: rest) d
  = (write_file file_path (fieldnames :: map row_of accepted) d, false).
Proof.
  intros Hacc He. unfold save_csv_file.
  rewrite (writerows_refused _ _ _ _ Hacc He). by destruct accepted.
Qed.

(** C1 (as the code has it). Saving an empty list writes an empty file,
    without a header.  Saving a non-empty list of entries none of which
    holds a field outside the five canonical names succeeds and writes the
    header [question,answer,category,tags,priority] followed by one row
    per entry, in order.  When an entry holds another field the save fails:
    no field is dropped, and the file is left with the header and the rows
    of the entries before the first such entry. *)
Theorem save_csv_file_writes (file_path : text) (entries : list entry)
    (d : directory) :
  (entries = [] →
     save_csv_file file_path entries d = (write_file file_path [] d, true))
  ∧ (entries ≠ [] → Forall only_fieldnames entries →
     save_csv_file file_path entries d
     = (write_file file_path (fieldnames :: map row_of entries) d, true))
  ∧ (∀ accepted e rest,
       entries = accepted ++ e :: rest →
       Forall only_fieldnames accepted → ¬ only_fieldnames e →
       save_csv_file file_path entries d
       = (write_file file_path (fieldnames :: map row_of accepted) d, false)).
Proof.
  split; [by intros ->|]. split.
  - apply save_csv_file_accepted.
  - intros accepted e rest ->. apply save_csv_file_refused.
Qed.

Lemma save_csv_file_writes_witness :
  save_csv_file Scenarios.kb_csv [] [] = ([(Scenarios.kb_csv, [])], true)
  ∧ save_csv_file Scenarios.kb_csv [Scenarios.plain_entry] []
    = ([(Scenarios.kb_csv,
         [fieldnames; [cps "q"; cps "a"; cps "c"; cps "t"; cps "high"]])], true)
  ∧ save_csv_file Scenarios.kb_csv
      [Scenarios.plain_entry; Scenarios.noted_entry; Scenarios.plain_entry] []
    = ([(Scenarios.kb_csv,
         [fieldnames; [cps "q"; cps "a"; cps "c"; cps "t"; cps "high"]])], false).
Proof.
  split; [|split].
  - apply (save_csv_file_writes Scenarios.kb_csv [] []). reflexivity.
  - apply (save_csv_file_writes Scenarios.kb_csv [Scenarios.plain_entry] []).
    + discriminate.
    + repeat constructor; apply (bool_decide_unpack _); vm_compute; reflexivity.
  - destruct (save_csv_file_writes Scenarios.kb_csv
             [Scenarios.plain_entry; Scenarios.noted_entry; Scenarios.plain_entry]
             []) as (_ & _ & H).
    apply (H [Scenarios.plain_entry] Scenarios.noted_entry [Scenarios.plain_entry]).
    + reflexivity.
    + repeat constructor; apply (bool_decide_unpack _); vm_compute; reflexivity.
    + apply (bool_decide_unpack _). vm_compute. reflexivity.
Defined.

(** C1, the claim as stated fails: an entry with a sixth field [notes] is
    not written with that field dropped; the save fails and leaves a file
    that holds the header alone. *)
Lemma save_extra_field_not_dropped :
  save_csv_file Scenarios.kb_csv [Scenarios.noted_entry] []
  = ([(Scenarios.kb_csv, [fieldnames])], false)
  ∧ save_csv_file Scenarios.kb_csv [Scenarios.noted_entry] []
    ≠ ([(Scenarios.kb_csv, [fieldnames; row_of Scenarios.noted_entry])], true).
Proof. split; [vm_compute; reflexivity|]. vm_compute. discriminate. Qed.

Lemma dict_reader_canonical rows :
  Forall (λ r, length r = 5%nat) rows →
  dict_reader (fieldnames :: rows) = map (dict_of_row fieldnames) rows
  ∧ Forall canonical_entry (map (dict_of_row fieldnames) rows)
  ∧ map row_of (map (dict_of_row fieldnames) rows) = rows.
Proof.
  intros H. unfold dict_reader.
  induction H as [|r rows Hr _ (IH1 & IH2 & IH3)]; [done|].
  destruct (five_cells r Hr) as (q & a & c & t & p & ->).
  rewrite filter_cons_True by done. simpl map.
  rewrite IH1, row_of_dict_of_row, IH3.
  split; [done|]. split; [|done].
  constructor; [apply dict_of_row_canonical | done].
Qed.

Lemma fieldnames_plain : Forall plain fieldnames.
Proof.
  repeat constructor; by apply (bool_decide_unpack _); vm_compute.
Qed.

(** C4 (as the code has it). For a corpus file whose header is the five
    canonical names in the canonical order, that holds at least one row,
    each row of exactly five cells and no cell with a carriage return or
    longer than the field size limit of the reader, loading gives entries
    with exactly the five canonical fields, and saving them succeeds and
    leaves the file as it was, row by row and cell by cell. *)
Theorem save_load_roundtrip (file_path : text) (rows : file) (d : directory) :
  rows ≠ [] →
  Forall (λ r, length r = 5%nat
               ∧ Forall (λ c, (13 ∉ c)
                              ∧ N.of_nat (length c) ≤ field_size_limit) r) rows →
  lookup_file file_path d = Some (fieldnames :: rows) →
  Forall canonical_entry (load_csv_file file_path d)
  ∧ save_csv_file file_path (load_csv_file file_path d) d = (d, true).
Proof.
  intros Hne Hrows Hfile. unfold load_csv_file. rewrite Hfile.
  rewrite csv_reader_id.
  2:{ constructor; [apply fieldnames_plain|].
      eapply Forall_impl; [exact Hrows|]. intros r [_ Hr].
      eapply Forall_impl; [exact Hr|]. intros c [? ?].
      split; [done|]. by apply within_limit_true. }
  cbn [fst].
  destruct (dict_reader_canonical rows) as (-> & Hcan & Hrow).
  { eapply Forall_impl; [exact Hrows|]. by intros r [? _]. }
  split; [done|].
  rewrite save_csv_file_accepted.
  - rewrite Hrow. by rewrite write_file_same.
  - by destruct rows.
  - eapply Forall_impl; [exact Hcan|]. apply canonical_only_fieldnames.
Qed.

Lemma save_load_roundtrip_witness :
  Forall canonical_entry
    (load_csv_file Scenarios.kb_csv [(Scenarios.kb_csv, Scenarios.one_row_corpus)])
  ∧ save_csv_file Scenarios.kb_csv
      (load_csv_file Scenarios.kb_csv [(Scenarios.kb_csv, Scenarios.one_row_corpus)])
      [(Scenarios.kb_csv, Scenarios.one_row_corpus)]
    = ([(Scenarios.kb_csv, Scenarios.one_row_corpus)], true).
Proof.
  apply (save_load_roundtrip Scenarios.kb_csv
           [[cps "Q"; cps "A"; cps "c"; cps "t"; cps "high"]]
           [(Scenarios.kb_csv, Scenarios.one_row_corpus)]).
  - discriminate.
  - repeat constructor; by apply (bool_decide_unpack _); vm_compute.
  - reflexivity.
Defined.

(** C4, the claim as stated fails: the entries loaded from a corpus whose
    columns stand in the order answer, question, category, tags, priority
    hold exactly the five canonical fields, yet saving them writes the
    columns in the canonical order, so the file is not what it was. *)
Lemma roundtrip_reorders_columns :
  Forall canonical_entry
    (load_csv_file Scenarios.kb_csv [(Scenarios.kb_csv, Scenarios.reordered_corpus)])
  ∧ save_csv_file Scenarios.kb_csv
      (load_csv_file Scenarios.kb_csv [(Scenarios.kb_csv, Scenarios.reordered_corpus)])
      [(Scenarios.kb_csv, Scenarios.reordered_corpus)]
    = ([(Scenarios.kb_csv,
         [fieldnames; [cps "Q"; cps "A"; cps "c"; cps "t"; cps "high"]])], true)
  ∧ [fieldnames; [cps "Q"; cps "A"; cps "c"; cps "t"; cps "high"]]
    ≠ Scenarios.reordered_corpus.
Proof.
  split; [|split].
  - assert (load_csv_file Scenarios.kb_csv
              [(Scenarios.kb_csv, Scenarios.reordered_corpus)]
            = [dict_of_row [k_answer; k_question; k_category; k_tags; k_priority]
                 [cps "A"; cps "Q"; cps "c"; cps "t"; cps "high"]]) as ->
      by (vm_compute; reflexivity).
    constructor; [|constructor]. split; [reflexivity|]. split.
    + apply (bool_decide_unpack _). vm_compute. reflexivity.
    + intros k. unfold dict_of_row. simpl.
      rewrite !lookup_insert. repeat case_decide; done.
  - vm_compute. reflexivity.
  - vm_compute. discriminate.
Qed.

(** A corpus that holds the header alone comes back empty. *)
Example roundtrip_empty_corpus_loses_header :
  save_csv_file Scenarios.kb_csv
    (load_csv_file Scenarios.kb_csv [(Scenarios.kb_csv, [fieldnames])])
    [(Scenarios.kb_csv, [fieldnames])]
  = ([(Scenarios.kb_csv, [])], true).
Proof. vm_compute. reflexivity. Qed.

(** A blank line between the rows is not read and so not written back. *)
Example roundtrip_drops_blank_row :
  save_csv_file Scenarios.kb_csv
    (load_csv_file Scenarios.kb_csv
       [(Scenarios.kb_csv, [fieldnames; Scenarios.qa_row "Q" "A"; []])])
    [(Scenarios.kb_csv, [fieldnames; Scenarios.qa_row "Q" "A"; []])]
  = ([(Scenarios.kb_csv, [fieldnames; Scenarios.qa_row "Q" "A"])], true).
Proof. vm_compute. reflexivity. Qed.

(** A line break [\r\n] inside a cell comes back as [\n]. *)
Example roundtrip_translates_carriage_return :
  save_csv_file Scenarios.kb_csv
    (load_csv_file Scenarios.kb_csv [(Scenarios.kb_csv, Scenarios.crlf_corpus)])
    [(Scenarios.kb_csv, Scenarios.crlf_corpus)]
  = ([(Scenarios.kb_csv,
       [fieldnames; [cps "Q"; cps "line 1" ++ [10] ++ cps "line 2";
                     cps "c"; cps "t"; cps "high"]])], true).
Proof. vm_compute. reflexivity. Qed.

(** A cell longer than the field size limit stops the load at its row. *)
Lemma load_stops_at_long_cell (c : text) :
  within_limit (universal_newlines c) = false →
  load_csv_file Scenarios.kb_csv (Scenarios.long_cell_dir c)
  = [dict_of_row fieldnames [cps "q1"; cps "a1"; []; cps "t"; cps "high"]].
Proof.
  intros Hc.
  unfold load_csv_file, Scenarios.long_cell_dir. cbn [lookup_file].
  rewrite decide_True by done. cbn [csv_reader]. cbv zeta.
  assert (forallb within_limit (map universal_newlines fieldnames) = true)
    as -> by (vm_compute; reflexivity).
  assert (forallb within_limit
            (map universal_newlines
               [cps "q1"; cps "a1"; []; cps "t"; cps "high"]) = true)
    as -> by (vm_compute; reflexivity).
  assert (forallb within_limit
            (map universal_newlines
               [cps "q2"; c; cps "c"; cps "t"; cps "high"]) = false)
    as ->.
  { cbn [map forallb]. rewrite Hc. by rewrite andb_false_r. }
  vm_compute. reflexivity.
Qed.

(** A cell of one character more than the field size limit is refused by
    the reader. *)
Lemma long_cell_refused :
  within_limit (universal_newlines Scenarios.long_cell) = false.
Proof.
  unfold Scenarios.long_cell.
  rewrite universal_newlines_id by (by intros [? _]%elem_of_replicate).
  unfold within_limit. rewrite length_replicate, N2Nat.id. reflexivity.
Qed.

(** Saving what was loaded from a corpus with such a cell loses the row
    of the cell and the row after it. *)
Example roundtrip_stops_at_long_cell :
  save_csv_file Scenarios.kb_csv
    (load_csv_file Scenarios.kb_csv
       (Scenarios.long_cell_dir Scenarios.long_cell))
    (Scenarios.long_cell_dir Scenarios.long_cell)
  = ([(Scenarios.kb_csv,
       [fieldnames; [cps "q1"; cps "a1"; []; cps "t"; cps "high"]])], true).
Proof.
  rewrite (load_stops_at_long_cell _ long_cell_refused).
  generalize Scenarios.long_cell. intros c. vm_compute. reflexivity.
Qed.

End StoreProofs.

(** ** The integrity engine *)

Module ManagerProofs.
Import Manager.

(** *** Facts that hold for every case mapping *)

Section AnyLower.

Variable lower : text → text.

(** **** Frame of the repair loop *)

Lemma untouched_refl e : untouched_outside_repair e e.
Proof. by split. Qed.

Lemma untouched_trans e1 e2 e3 :
  untouched_outside_repair e1 e2 → untouched_outside_repair e2 e3 →
  untouched_outside_repair e1 e3.
Proof.
  intros [Ho1 Hf1] [Ho2 Hf2]. split; [congruence|].
  intros k ???. rewrite Hf2, Hf1; done.
Qed.

Lemma frame_ret {A} (a : A) : frame (mret a).
Proof. intros e. apply untouched_refl. Qed.

Lemma frame_bind {A B} (m : M A) (f : A → M B) :
  frame m → (∀ a, frame (f a)) → frame (m ≫= f).
Proof.
  intros Hm Hf e. unfold mbind, M_bind. specialize (Hm e).
  destruct (m e) as [e' [a|x]]; simpl in *; [|done].
  eapply untouched_trans; [exact Hm|apply Hf].
Qed.

Lemma frame_field_strip k : frame (field_strip k).
Proof. intros e. apply untouched_refl. Qed.

Lemma frame_fix_or_report fix_ k v :
  k ∈ [k_category; k_priority; k_tags] → frame (fix_or_report fix_ k v).
Proof.
  intros Hk e. destruct fix_; simpl; [|apply untouched_refl].
  split; [done|]. intros k' H1 H2 H3. simpl.
  apply lookup_insert_ne. intros ->.
  repeat (apply elem_of_cons in Hk as [->|Hk]; [done|]).
  by apply elem_of_nil in Hk.
Qed.

Lemma frame_check_entry fix_ : frame (check_entry lower fix_).
Proof.
  unfold check_entry, check_category, check_priority_present,
    check_priority_valid, check_tags.
  repeat first
    [ apply frame_bind; [|intros ?]
    | apply frame_field_strip
    | apply frame_ret
    | apply frame_fix_or_report; set_solver
    | match goal with |- frame (if ?b then _ else _) => destruct b end ].
Qed.

Lemma check_entries_length fix_ entries :
  length (check_entries lower fix_ entries).1 = length entries.
Proof.
  induction entries as [|e entries IH]; simpl; [done|].
  destruct (check_entry lower fix_ e) as [e' [f|x]]; simpl; [|done].
  destruct (check_entries lower fix_ entries) as [rest [f'|x]]; simpl in *;
    by rewrite IH.
Qed.

Lemma check_entries_frame fix_ entries :
  Forall2 untouched_outside_repair entries (check_entries lower fix_ entries).1.
Proof.
  induction entries as [|e entries IH]; simpl; [constructor|].
  pose proof (frame_check_entry fix_ e) as He.
  destruct (check_entry lower fix_ e) as [e' [f|x]]; simpl in *.
  - destruct (check_entries lower fix_ entries) as [rest [f'|x]]; simpl in *;
      by constructor.
  - constructor; [done|]. clear.
    induction entries; constructor; [apply untouched_refl|done].
Qed.

(** The loop over the entries of a corpus, in either mode, leaves each
    entry with the question and the answer it had before, and so with
    every field other than category, priority and tags. *)
Lemma check_entries_keeps_question_and_answer (fix_ : bool)
    (entries : list entry) :
  Forall2
    (λ e e', fields e' !! k_question = fields e !! k_question
             ∧ fields e' !! k_answer = fields e !! k_answer
             ∧ untouched_outside_repair e e')
    entries (check_entries lower fix_ entries).1.
Proof.
  eapply Forall2_impl; [apply check_entries_frame|].
  intros e e' [Ho Hf]. split; [|split]; [by apply Hf..|by split].
Qed.

(** **** Duplicate detection *)

Lemma get_all_entries_load d f es :
  (f, es) ∈ get_all_entries d → es = load_csv_file f d.
Proof.
  unfold get_all_entries. rewrite list_elem_of_filter, list_elem_of_fmap.
  intros [_ ([name c] & [= -> ->] & _)]. done.
Qed.

Lemma append_location_ok d q l seen :
  q ≠ [] → located lower d q l → seen_ok lower d seen →
  seen_ok lower d (append_location q l seen).
Proof.
  intros Hq Hl. induction seen as [|[q' ls] seen IH]; intros Hseen; simpl.
  - intros q0 locs [[= -> ->]|?%elem_of_nil]%elem_of_cons; [|done].
    split; [done|]. by intros l' ->%list_elem_of_singleton.
  - destruct (decide (q' = q)) as [->|Hne].
    + intros q0 locs [[= -> ->]|Hin]%elem_of_cons.
      * split; [done|]. intros l' [Hl'| ->%list_elem_of_singleton]%elem_of_app;
          [|done].
        eapply (Hseen q ls); [left|done].
      * apply Hseen. by right.
    + intros q0 locs [[= -> ->]|Hin]%elem_of_cons.
      * apply Hseen. left.
      * apply IH; [|done]. intros ?? ?. apply Hseen. by right.
Qed.

Lemma scan_entries_ok d f entries idx seen seen' :
  (1 ≤ idx)%nat →
  (∀ j e, entries !! j = Some e →
          load_csv_file f d !! (idx - 1 + j)%nat = Some e) →
  seen_ok lower d seen →
  scan_entries lower f idx entries seen = Ok seen' →
  seen_ok lower d seen'.
Proof.
  revert idx seen. induction entries as [|e entries IH];
    intros idx seen Hidx Hent Hseen; simpl.
  - by intros [= <-].
  - destruct (question_key lower e) as [q|x] eqn:Hq; [|done].
    apply IH; [lia| |].
    + intros j e' Hj. replace (S idx - 1 + j)%nat with (idx - 1 + S j)%nat by lia.
      by apply Hent.
    + destruct q as [|c q]; simpl; [done|].
      apply append_location_ok; [done| |done].
      split; [done|]. exists e. split; [|done].
      simpl. specialize (Hent 0%nat e eq_refl).
      by replace (idx - 1 + 0)%nat with (idx - 1)%nat in Hent by lia.
Qed.

Lemma scan_files_ok d all_entries seen seen' :
  (∀ f es, (f, es) ∈ all_entries → es = load_csv_file f d) →
  seen_ok lower d seen →
  scan_files lower all_entries seen = Ok seen' →
  seen_ok lower d seen'.
Proof.
  revert seen. induction all_entries as [|[f es] rest IH];
    intros seen Hall Hseen; simpl.
  - by intros [= <-].
  - destruct (scan_entries lower f 1 es seen) as [seen1|x] eqn:Hscan; [|done].
    apply IH; [intros ?? ?; apply Hall; by right|].
    eapply scan_entries_ok; [| |exact Hseen|exact Hscan]; [lia|].
    intros j e Hj. rewrite <- (Hall f es) by left. done.
Qed.

Lemma find_duplicates_ok d groups :
  find_duplicates lower d = Ok groups → seen_ok lower d groups.
Proof.
  unfold find_duplicates.
  destruct (scan_files lower (get_all_entries d) []) as [seen|x] eqn:Hscan;
    [|done].
  intros [= <-] q locs [_ Hin]%list_elem_of_filter.
  eapply scan_files_ok; [| |exact Hscan|exact Hin].
  - apply get_all_entries_load.
  - by intros ?? ?%elem_of_nil.
Qed.

(** **** Merge *)

Lemma merge_entries_blanks entries acc seen acc' seen' :
  [] ∉ seen →
  merge_entries lower true entries (acc, seen) = Ok (acc', seen') →
  ([] ∉ seen')
  ∧ filter (λ e, blank_question lower e = true) acc'
    = filter (λ e, blank_question lower e = true) acc
      ++ filter (λ e, blank_question lower e = true) entries.
Proof.
  revert acc seen. induction entries as [|e entries IH]; intros acc seen Hs; simpl.
  - intros [= <- <-]. by rewrite app_nil_r.
  - destruct (question_key lower e) as [q|x] eqn:Hq; [|done].
    assert (blank_question lower e = match q with [] => true | _ => false end)
      as Hb by (unfold blank_question; by rewrite Hq).
    rewrite (filter_cons _ e entries).
    destruct (bool_decide (q ∈ seen)) eqn:Hin; simpl.
    + apply bool_decide_eq_true in Hin.
      destruct q as [|c q]; [done|]. intros H.
      apply IH in H as [? ->]; [|done].
      rewrite decide_False; [done|]. by rewrite Hb.
    + intros H. apply IH in H as [? ->].
      * split; [done|]. rewrite filter_app, <- app_assoc. f_equal.
        rewrite (filter_cons _ e []), filter_nil.
        by destruct (decide (blank_question lower e = true)).
      * simpl. destruct q; simpl; [done|].
        rewrite elem_of_union, elem_of_singleton. by intros [?|?].
Qed.

Lemma merge_sources_blanks sources d acc seen acc' seen' :
  [] ∉ seen →
  merge_sources lower true sources d (acc, seen) = Ok (Some (acc', seen')) →
  filter (λ e, blank_question lower e = true) acc'
  = filter (λ e, blank_question lower e = true) acc
    ++ filter (λ e, blank_question lower e = true)
         (mjoin (map (λ s, load_csv_file s d) sources)).
Proof.
  revert acc seen. induction sources as [|s sources IH]; intros acc seen Hs; simpl.
  - intros [= <- <-]. by rewrite app_nil_r.
  - destruct (lookup_file s d); [|done].
    destruct (merge_entries lower true (load_csv_file s d) (acc, seen))
      as [[acc1 seen1]|x] eqn:Hm; [|done].
    apply merge_entries_blanks in Hm as [Hs1 Hacc1]; [|done].
    intros H. apply IH in H; [|done].
    by rewrite H, Hacc1, filter_app, <- app_assoc.
Qed.

Lemma first_wins_app earlier a b :
  first_wins lower earlier (a ++ b)
  = first_wins lower earlier a ++ first_wins lower (earlier ++ a) b.
Proof.
  revert earlier. induction a as [|e a IH]; intros earlier; simpl.
  - by rewrite app_nil_r.
  - rewrite IH, <- app_assoc. simpl. by case_decide.
Qed.

Lemma merge_entries_first_wins entries earlier acc seen acc' seen' :
  (∀ q, q ∈ seen ↔ q ≠ [] ∧ q ∈ map (normalized_question lower) earlier) →
  merge_entries lower true entries (acc, seen) = Ok (acc', seen') →
  acc' = acc ++ first_wins lower earlier entries
  ∧ (∀ q, q ∈ seen'
          ↔ q ≠ [] ∧ q ∈ map (normalized_question lower) (earlier ++ entries)).
Proof.
  revert earlier acc seen.
  induction entries as [|e entries IH]; intros earlier acc seen Hseen; simpl.
  - intros [= <- <-]. by rewrite !app_nil_r.
  - destruct (question_key lower e) as [q|x] eqn:Hq; [|done].
    assert (normalized_question lower e = q) as Hnq
      by (unfold normalized_question; by rewrite Hq).
    rewrite Hnq.
    replace (earlier ++ e :: entries) with ((earlier ++ [e]) ++ entries)
      by (by rewrite <- app_assoc).
    destruct (bool_decide (q ∈ seen)) eqn:Hin; simpl.
    + apply bool_decide_eq_true in Hin. pose proof Hin as Hin'.
      apply Hseen in Hin'. rewrite decide_True by done.
      apply IH. intros q'. rewrite Hseen, map_app, elem_of_app. simpl.
      rewrite list_elem_of_singleton, Hnq. destruct Hin'.
      split; [tauto|]. intros [? [?| ->]]; done.
    + apply bool_decide_eq_false in Hin.
      rewrite decide_False by (by rewrite <- Hseen).
      intros H. apply IH with (earlier := earlier ++ [e]) in H as [-> ?].
      * split; [by rewrite <- app_assoc|done].
      * intros q'. rewrite map_app, elem_of_app. simpl.
        rewrite list_elem_of_singleton, Hnq.
        destruct q as [|c q]; simpl.
        -- rewrite Hseen. split; [tauto|]. intros [? [?| ->]]; done.
        -- rewrite elem_of_union, elem_of_singleton, Hseen.
           split; [intros [->|?]; [split; [done|by right]|tauto]|].
           intros [? [?| ->]]; [right|left]; done.
Qed.

Lemma merge_sources_first_wins sources d earlier acc seen acc' seen' :
  (∀ q, q ∈ seen ↔ q ≠ [] ∧ q ∈ map (normalized_question lower) earlier) →
  merge_sources lower true sources d (acc, seen) = Ok (Some (acc', seen')) →
  acc' = acc ++ first_wins lower earlier
                  (mjoin (map (λ s, load_csv_file s d) sources)).
Proof.
  revert earlier acc seen.
  induction sources as [|s sources IH]; intros earlier acc seen Hseen; simpl.
  - intros [= <- <-]. by rewrite app_nil_r.
  - destruct (lookup_file s d); [|done].
    destruct (merge_entries lower true (load_csv_file s d) (acc, seen))
      as [[acc1 seen1]|x] eqn:Hm; [|done].
    apply (merge_entries_first_wins _ earlier) in Hm as [-> Hseen1]; [|done].
    intros H. apply (IH _ _ _ Hseen1) in H as ->.
    by rewrite first_wins_app, app_assoc.
Qed.








(** C10. An entry whose question is empty after trimming is never
    treated as a duplicate.  Duplicate detection puts the location of no
    such entry into any group; and the merge with duplicate suppression
    keeps every such entry of its sources, in order, so that two entries
    with empty questions do not suppress each other. *)
Theorem blank_question_never_duplicate :
  (∀ d groups f i e q locs,
     find_duplicates lower d = Ok groups →
     (1 ≤ i)%nat → load_csv_file f d !! (i - 1)%nat = Some e →
     blank_question lower e = true →
     (q, locs) ∈ groups → (f, i) ∉ locs)
  ∧ (∀ sources d all_entries seen,
       merge_sources lower true sources d ([], ∅) = Ok (Some (all_entries, seen)) →
       filter (λ e, blank_question lower e = true) all_entries
       = filter (λ e, blank_question lower e = true)
           (mjoin (map (λ s, load_csv_file s d) sources))).
Proof.
  split.
  - intros d groups f i e q locs Hfind Hi He Hblank Hgroup Hloc.
    destruct (find_duplicates_ok d groups Hfind q locs Hgroup) as [Hq Hlocs].
    destruct (Hlocs _ Hloc) as [_ (e' & He' & Hkey)]. simpl in *.
    rewrite He in He'. injection He' as <-.
    unfold blank_question in Hblank. rewrite Hkey in Hblank.
    by destruct q.
  - intros sources d all_entries seen H.
    apply merge_sources_blanks in H; [done|]. apply not_elem_of_empty.
Qed.

End AnyLower.

(** *** Cleaning a tag string *)

Section CleanedTags.
Import TextFacts.

Lemma tags_good t :
  Forall good_tag (filter (λ t, t ≠ []) (map strip (split_on 44 t))).
Proof.
  apply Forall_forall. intros p [Hp (q & -> & Hq)%list_elem_of_fmap]%list_elem_of_filter.
  split; [done|]. split; [|split; [apply strip_first|apply strip_last]].
  intros Hin%elem_of_strip.
  pose proof (split_on_no_sep 44 t) as Hsep. rewrite Forall_forall in Hsep.
  by apply (Hsep q Hq).
Qed.

Lemma join_first parts :
  Forall good_tag parts → no_space_first (join_with 44 parts).
Proof.
  destruct 1 as [|p parts (Hne & _ & Hfirst & _) _]; [done|].
  destruct parts as [|q qs]; [done|]. rewrite join_with_cons.
  by destruct p.
Qed.

Lemma join_last parts :
  Forall good_tag parts → no_space_first (reverse (join_with 44 parts)).
Proof.
  induction 1 as [|p parts (Hne & _ & _ & Hlast) _ IH]; [done|].
  destruct parts as [|q qs]; [done|].
  rewrite join_with_cons, reverse_app, reverse_cons, <- app_assoc.
  destruct (reverse (join_with 44 (q :: qs))); [done|exact IH].
Qed.

Lemma cleaned_tags_strip t : strip (cleaned_tags t) = cleaned_tags t.
Proof.
  apply strip_id; [apply join_first|apply join_last]; apply tags_good.
Qed.

Lemma cleaned_tags_idem t :
  cleaned_tags t ≠ [] → cleaned_tags (cleaned_tags t) = cleaned_tags t.
Proof.
  unfold cleaned_tags. pose proof (tags_good t) as Hgood.
  set (tags := filter (λ t, t ≠ []) (map strip (split_on 44 t))) in *.
  intros Hne. rewrite split_on_join.
  - f_equal. clear Hne. induction Hgood as [|p ps (Hp & _ & H1 & H2) _ IH]; [done|].
    simpl. rewrite (strip_id p H1 H2), filter_cons_True by done. by rewrite IH.
  - by destruct tags.
  - eapply Forall_impl; [exact Hgood|]. by intros p (_ & ? & _).
Qed.

Lemma cleaned_tags_no_cr t : 13 ∉ t → 13 ∉ cleaned_tags t.
Proof.
  intros Ht Hin. apply elem_of_join_with in Hin as [?|(p & Hp & Hin)]; [done|].
  apply list_elem_of_filter in Hp as [_ (q & -> & Hq)%list_elem_of_fmap].
  apply elem_of_strip in Hin. by apply Ht, (elem_of_split_on 44 t q).
Qed.

Lemma length_cleaned_tags t : (length (cleaned_tags t) ≤ length t)%nat.
Proof.
  unfold cleaned_tags. rewrite length_join_with.
  pose proof (weight_strip_filter (λ t, t ≠ []) (split_on 44 t)) as H.
  rewrite weight_split_on in H. lia.
Qed.

(** What the repair writes under [tags] is read back as it is whenever
    the string that it replaces is. *)
Lemma cleaned_tags_plain t : plain t → plain (cleaned_tags (strip t)).
Proof.
  intros [Hcr Hlim]. split.
  - apply cleaned_tags_no_cr. by intros ?%elem_of_strip.
  - apply StoreProofs.within_limit_true in Hlim.
    apply StoreProofs.within_limit_true.
    pose proof (length_cleaned_tags (strip t)). pose proof (length_strip t).
    lia.
Qed.

End CleanedTags.

(** *** Repair: what one entry becomes *)

(** Case distinction on the [decide] of the goal. *)
Ltac goal_decide :=
  match goal with
  | |- context [decide ?P] => destruct (decide P)
  end.

Section Repair.

Variable lower : text → text.

(** On ASCII text [str.lower] maps the letters A-Z and nothing else. *)
Hypothesis lower_ascii : ∀ t, is_ascii t → lower t = map ascii_lower t.

Lemma keys_distinct :
  k_category ≠ k_priority ∧ k_category ≠ k_tags ∧ k_priority ≠ k_tags.
Proof. by vm_compute. Qed.

Lemma lower_medium : lower (strip (cps "medium")) ∈ valid_priorities.
Proof.
  rewrite lower_ascii.
  - by apply (bool_decide_unpack _); vm_compute.
  - by apply (bool_decide_unpack _); vm_compute.
Qed.

Lemma strip_general : strip (cps "general") ≠ [].
Proof. by vm_compute. Qed.

Lemma strip_medium : strip (cps "medium") ≠ [].
Proof. by vm_compute. Qed.

Lemma lookup_set_field k v e k' :
  fields (set_field k v e) !! k'
  = if decide (k = k') then Some (Str v) else fields e !! k'.
Proof. unfold set_field. simpl. apply lookup_insert. Qed.

Lemma nonempty_true t : nonempty t = true ↔ t ≠ [].
Proof. by destruct t. Qed.

Lemma nonempty_false t : nonempty t = false ↔ t = [].
Proof. by destruct t. Qed.

(** The four blocks of the loop body as plain case distinctions. *)
Lemma check_category_eq fix_ e :
  check_category fix_ e
  = match fields e !! k_category with
    | Some NoneV => (e, Raise AttributeError)
    | v =>
        if nonempty (strip (cell_of v)) then (e, Ok no_flags)
        else if fix_ then (set_field k_category (cps "general") e, Ok (true, false))
        else (e, Ok (false, true))
    end.
Proof.
  unfold check_category, mbind, M_bind, field_strip.
  destruct (fields e !! k_category) as [[s|]|]; simpl; try done;
    try destruct (nonempty _); by destruct fix_.
Qed.

Lemma check_priority_present_eq fix_ e :
  check_priority_present fix_ e
  = match fields e !! k_priority with
    | Some NoneV => (e, Raise AttributeError)
    | v =>
        if nonempty (strip (cell_of v)) then (e, Ok no_flags)
        else if fix_ then (set_field k_priority (cps "medium") e, Ok (true, false))
        else (e, Ok (false, true))
    end.
Proof.
  unfold check_priority_present, mbind, M_bind, field_strip.
  destruct (fields e !! k_priority) as [[s|]|]; simpl; try done;
    try destruct (nonempty _); by destruct fix_.
Qed.

Lemma check_priority_valid_eq fix_ e :
  check_priority_valid lower fix_ e
  = match fields e !! k_priority with
    | Some NoneV => (e, Raise AttributeError)
    | v =>
        let priority := lower (strip (cell_of v)) in
        if nonempty priority && negb (bool_decide (priority ∈ valid_priorities))
        then if fix_ then (set_field k_priority (cps "medium") e, Ok (true, false))
             else (e, Ok (false, true))
        else (e, Ok no_flags)
    end.
Proof.
  unfold check_priority_valid, mbind, M_bind, field_strip.
  destruct (fields e !! k_priority) as [[s|]|]; simpl; try done;
    try destruct (_ && _); by destruct fix_.
Qed.

Lemma check_tags_eq fix_ e :
  check_tags fix_ e
  = match fields e !! k_tags with
    | Some NoneV => (e, Raise AttributeError)
    | v =>
        let tags_str := strip (cell_of v) in
        if nonempty tags_str && bool_decide (cleaned_tags tags_str ≠ tags_str)
        then if fix_ then (set_field k_tags (cleaned_tags tags_str) e, Ok (true, false))
             else (e, Ok (false, true))
        else (e, Ok no_flags)
    end.
Proof.
  unfold check_tags, mbind, M_bind, field_strip.
  destruct (fields e !! k_tags) as [[s|]|]; simpl; try done;
    try destruct (nonempty _); simpl; try destruct (bool_decide _);
    by destruct fix_.
Qed.

Lemma check_entry_inv fix_ e e' f :
  check_entry lower fix_ e = (e', Ok f) →
  ∃ e1 e2 e3 f1 f2 f3 f4,
    check_category fix_ e = (e1, Ok f1)
    ∧ check_priority_present fix_ e1 = (e2, Ok f2)
    ∧ check_priority_valid lower fix_ e2 = (e3, Ok f3)
    ∧ check_tags fix_ e3 = (e', Ok f4)
    ∧ f = or_flags (or_flags f1 f2) (or_flags f3 f4).
Proof.
  unfold check_entry, mbind at 1 2 3 4, M_bind.
  destruct (check_category fix_ e) as [e1 [f1|x]] eqn:H1; [|done].
  destruct (check_priority_present fix_ e1) as [e2 [f2|x]] eqn:H2; [|done].
  destruct (check_priority_valid lower fix_ e2) as [e3 [f3|x]] eqn:H3; [|done].
  destruct (check_tags fix_ e3) as [e4 [f4|x]] eqn:H4; [|done].
  intros [= <- <-]. by exists e1, e2, e3, f1, f2, f3, f4.
Qed.

(** A settled field makes its block a no-op, in either mode. *)
Lemma check_category_settled fix_ e :
  category_settled e → check_category fix_ e = (e, Ok no_flags).
Proof.
  intros (s & Hs & Hne). rewrite check_category_eq, Hs. simpl.
  by apply nonempty_true in Hne as ->.
Qed.

Lemma check_priority_present_settled fix_ e :
  priority_present e → check_priority_present fix_ e = (e, Ok no_flags).
Proof.
  intros (s & Hs & Hne). rewrite check_priority_present_eq, Hs. simpl.
  by apply nonempty_true in Hne as ->.
Qed.

Lemma check_priority_valid_settled fix_ e :
  priority_settled lower e → check_priority_valid lower fix_ e = (e, Ok no_flags).
Proof.
  intros (s & Hs & _ & Hv). rewrite check_priority_valid_eq, Hs. simpl.
  destruct Hv as [->|Hv]; [done|].
  rewrite (bool_decide_eq_true_2 _ Hv). by rewrite andb_false_r.
Qed.

Lemma check_tags_settled fix_ e :
  tags_settled e → check_tags fix_ e = (e, Ok no_flags).
Proof.
  unfold tags_settled. rewrite check_tags_eq.
  destruct (fields e !! k_tags) as [[s|]|]; simpl; [|done|done].
  intros [->|Hc]; [done|].
  rewrite (bool_decide_eq_false_2 _); [by rewrite andb_false_r|]. by intros ?.
Qed.

Lemma check_entry_settled fix_ e :
  settled lower e → check_entry lower fix_ e = (e, Ok no_flags).
Proof.
  intros (Hc & Hp & Ht). unfold check_entry, mbind at 1 2 3 4, M_bind.
  rewrite check_category_settled, check_priority_present_settled,
    check_priority_valid_settled, check_tags_settled; try done.
  destruct Hp as (s & ? & ? & _). by exists s.
Qed.

(** Assignments to one field and the settledness of the others. *)
Lemma category_settled_set k v e :
  k ≠ k_category → category_settled e → category_settled (set_field k v e).
Proof.
  intros Hk (s & Hs & Hne). exists s. split; [|done].
  by rewrite lookup_set_field, decide_False.
Qed.

Lemma priority_settled_set k v e :
  k ≠ k_priority → priority_settled lower e → priority_settled lower (set_field k v e).
Proof.
  intros Hk (s & Hs & Hne). exists s. split; [|done].
  by rewrite lookup_set_field, decide_False.
Qed.

Lemma cr_free_set k v e : 13 ∉ v → cr_free e → cr_free (set_field k v e).
Proof.
  intros Hv He k' s. rewrite lookup_set_field.
  case_decide; [by intros [= <-]|apply He].
Qed.

Lemma cell_nonblank e k :
  strip (cell_of (fields e !! k)) ≠ [] →
  ∃ s, fields e !! k = Some (Str s) ∧ strip s ≠ [].
Proof. destruct (fields e !! k) as [[s|]|]; simpl; [by exists s|done|done]. Qed.

Lemma cell_no_cr e k : cr_free e → 13 ∉ cell_of (fields e !! k).
Proof.
  intros He. destruct (fields e !! k) as [[s|]|] eqn:Hk; simpl;
    [by apply (He k)|apply not_elem_of_nil..].
Qed.

(** Assignments and the strings of an entry. *)
Lemma cells_set (P : text → Prop) k v e :
  P v → cells P e → cells P (set_field k v e).
Proof.
  intros Hv He k' s. rewrite lookup_set_field.
  case_decide; [by intros [= <-]|apply He].
Qed.

Lemma cell_of_cells (P : text → Prop) e k :
  P [] → cells P e → P (cell_of (fields e !! k)).
Proof.
  intros Hnil He. destruct (fields e !! k) as [[s|]|] eqn:Hk; simpl;
    [by apply (He k)|done..].
Qed.

Lemma plain_nil : plain [].
Proof. split; [apply not_elem_of_nil|done]. Qed.

Lemma plain_general : plain (cps "general").
Proof. split; [by apply (bool_decide_unpack _); vm_compute|done]. Qed.

Lemma plain_medium : plain (cps "medium").
Proof. split; [by apply (bool_decide_unpack _); vm_compute|done]. Qed.

(** The loop body, in either mode, assigns only strings that are read
    back as they are written, to an entry whose strings are such. *)
Lemma check_entry_plain fix_ e e' f :
  check_entry lower fix_ e = (e', Ok f) → cells plain e → cells plain e'.
Proof.
  intros (e1 & e2 & e3 & f1 & f2 & f3 & f4 & H1 & H2 & H3 & H4 & _)%check_entry_inv
    He.
  assert (cells plain e1) as He1.
  { rewrite check_category_eq in H1.
    destruct (fields e !! k_category) as [[s|]|]; [|done|];
      destruct (nonempty _); try destruct fix_; injection H1 as <- _;
      try done; by apply cells_set; [apply plain_general|]. }
  assert (cells plain e2) as He2.
  { rewrite check_priority_present_eq in H2.
    destruct (fields e1 !! k_priority) as [[s|]|]; [|done|];
      destruct (nonempty _); try destruct fix_; injection H2 as <- _;
      try done; by apply cells_set; [apply plain_medium|]. }
  assert (cells plain e3) as He3.
  { rewrite check_priority_valid_eq in H3.
    destruct (fields e2 !! k_priority) as [[s|]|]; [|done|]; cbv zeta in H3;
      destruct (_ && _); try destruct fix_; injection H3 as <- _;
      try done; by apply cells_set; [apply plain_medium|]. }
  rewrite check_tags_eq in H4.
  destruct (fields e3 !! k_tags) as [[s|]|] eqn:Hk; [|done|]; cbv zeta in H4;
    destruct (_ && _); try destruct fix_; injection H4 as <- _;
    try done; (apply cells_set; [|done]); apply cleaned_tags_plain.
  - by apply (He3 k_tags).
  - apply plain_nil.
Qed.

Lemma check_entries_plain fix_ entries entries' f :
  check_entries lower fix_ entries = (entries', Ok f) →
  Forall (cells plain) entries → Forall (cells plain) entries'.
Proof.
  revert entries' f. induction entries as [|e entries IH]; intros entries' f; simpl.
  - by intros [= <- _].
  - destruct (check_entry lower fix_ e) as [e' [fe|x]] eqn:He; [|done].
    destruct (check_entries lower fix_ entries) as [rest [fr|x]] eqn:Hr; [|done].
    intros [= <- _] [? ?]%Forall_cons.
    constructor; [by eapply check_entry_plain|by eapply IH].
Qed.

(** The category block in repair mode. *)
Lemma check_category_fix e e1 f1 :
  check_category true e = (e1, Ok f1) →
  e1 = (if decide (strip (cell_of (fields e !! k_category)) = [])
        then set_field k_category (cps "general") e else e)
  ∧ f1 = (bool_decide (strip (cell_of (fields e !! k_category)) = []), false)
  ∧ category_settled e1.
Proof.
  rewrite check_category_eq.
  assert (∀ v, fields e !! k_category = v → v ≠ Some NoneV →
    (if nonempty (strip (cell_of v)) then (e, Ok no_flags)
     else (set_field k_category (cps "general") e, Ok (true, false)))
    = (e1, Ok f1) →
    e1 = (if decide (strip (cell_of v) = [])
          then set_field k_category (cps "general") e else e)
    ∧ f1 = (bool_decide (strip (cell_of v) = []), false)
    ∧ category_settled e1) as H.
  { intros v Hv Hnone. destruct (nonempty _) eqn:Hne; intros [= <- <-].
    - apply nonempty_true in Hne. rewrite decide_False, bool_decide_eq_false_2 by done.
      split; [done|]. split; [done|]. rewrite <- Hv in Hne. by apply cell_nonblank.
    - apply nonempty_false in Hne. rewrite decide_True, bool_decide_eq_true_2 by done.
      split; [done|]. split; [done|]. exists (cps "general").
      split; [|apply strip_general]. by rewrite lookup_set_field, decide_True. }
  destruct (fields e !! k_category) as [[s|]|] eqn:Hk; [|done|]; by apply H.
Qed.

(** The two priority blocks in repair mode. *)
Lemma check_priority_fix e e2 e3 f2 f3 :
  check_priority_present true e = (e2, Ok f2) →
  check_priority_valid lower true e2 = (e3, Ok f3) →
  let p := strip (cell_of (fields e !! k_priority)) in
  e3 = (if decide (p = [] ∨ (lower p ≠ [] ∧ lower p ∉ valid_priorities))
        then set_field k_priority (cps "medium") e else e)
  ∧ f2.1 || f3.1
    = bool_decide (p = [] ∨ (lower p ≠ [] ∧ lower p ∉ valid_priorities))
  ∧ f2.2 = false ∧ f3.2 = false
  ∧ priority_settled lower e3.
Proof.
  intros H2 H3 p.
  assert (fields e !! k_priority ≠ Some NoneV) as Hnone.
  { intros Hk. rewrite check_priority_present_eq, Hk in H2. done. }
  assert (check_priority_present true e
          = if nonempty p then (e, Ok no_flags)
            else (set_field k_priority (cps "medium") e, Ok (true, false))) as H2'.
  { rewrite check_priority_present_eq. unfold p.
    by destruct (fields e !! k_priority) as [[s|]|]. }
  rewrite H2' in H2. clear H2'.
  destruct (nonempty p) eqn:Hp; injection H2 as <- <-.
  - apply nonempty_true in Hp.
    destruct (cell_nonblank e k_priority Hp) as (s & Hs & Hne).
    rewrite check_priority_valid_eq, Hs in H3. simpl in H3.
    assert (strip s = p) as Hsp by (unfold p; by rewrite Hs). rewrite Hsp in H3.
    destruct (nonempty (lower p)) eqn:Hl; simpl in H3.
    + apply nonempty_true in Hl.
      destruct (decide (lower p ∈ valid_priorities)) as [Hv|Hv].
      * rewrite (bool_decide_eq_true_2 _ Hv) in H3. injection H3 as <- <-.
        rewrite decide_False, bool_decide_eq_false_2 by tauto.
        repeat split; try done. exists s. rewrite Hsp. auto.
      * rewrite (bool_decide_eq_false_2 _ Hv) in H3. injection H3 as <- <-.
        rewrite decide_True, bool_decide_eq_true_2 by tauto.
        repeat split; try done. exists (cps "medium").
        rewrite lookup_set_field, decide_True by done.
        split; [done|]. split; [apply strip_medium|right; apply lower_medium].
    + apply nonempty_false in Hl. injection H3 as <- <-.
      rewrite decide_False, bool_decide_eq_false_2 by (rewrite Hl; tauto).
      repeat split; try done. exists s. rewrite Hsp. auto.
  - apply nonempty_false in Hp.
    rewrite decide_True, bool_decide_eq_true_2 by tauto.
    assert (priority_settled lower (set_field k_priority (cps "medium") e)) as Hset.
    { exists (cps "medium"). rewrite lookup_set_field, decide_True by done.
      split; [done|]. split; [apply strip_medium|right; apply lower_medium]. }
    rewrite (check_priority_valid_settled _ _ Hset) in H3. injection H3 as <- <-.
    done.
Qed.

(** The tags block in repair mode. *)
Lemma check_tags_fix e e4 f4 :
  check_tags true e = (e4, Ok f4) →
  let t := strip (cell_of (fields e !! k_tags)) in
  e4 = (if decide (t ≠ [] ∧ cleaned_tags t ≠ t)
        then set_field k_tags (cleaned_tags t) e else e)
  ∧ f4 = (bool_decide (t ≠ [] ∧ cleaned_tags t ≠ t), false)
  ∧ tags_settled e4.
Proof.
  intros H4 t.
  assert (fields e !! k_tags ≠ Some NoneV) as Hnone.
  { intros Hk. rewrite check_tags_eq, Hk in H4. done. }
  assert (check_tags true e
          = if nonempty t && bool_decide (cleaned_tags t ≠ t)
            then (set_field k_tags (cleaned_tags t) e, Ok (true, false))
            else (e, Ok no_flags)) as H4'.
  { rewrite check_tags_eq. unfold t.
    by destruct (fields e !! k_tags) as [[s|]|]. }
  rewrite H4' in H4. clear H4'.
  destruct (decide (t ≠ [] ∧ cleaned_tags t ≠ t)) as [[Ht Hc]|Hno].
  - apply nonempty_true in Ht as Ht'.
    rewrite Ht', (bool_decide_eq_true_2 _ Hc) in H4. injection H4 as <- <-.
    rewrite bool_decide_eq_true_2 by done. split; [done|]. split; [done|].
    unfold tags_settled. rewrite lookup_set_field, decide_True by done.
    rewrite cleaned_tags_strip.
    destruct (decide (cleaned_tags t = [])); [by left|right].
    by apply cleaned_tags_idem.
  - assert (nonempty t && bool_decide (cleaned_tags t ≠ t) = false) as Hb.
    { destruct (nonempty t) eqn:Ht; [|done]. apply nonempty_true in Ht.
      simpl. apply bool_decide_eq_false_2. tauto. }
    rewrite Hb in H4. injection H4 as <- <-.
    rewrite bool_decide_eq_false_2 by done. split; [done|]. split; [done|].
    unfold tags_settled, t in *.
    destruct (fields e !! k_tags) as [[s|]|]; [|done|done]. simpl in *.
    destruct (decide (strip s = [])); [by left|right].
    destruct (decide (cleaned_tags (strip s) = strip s)); [done|tauto].
Qed.

Lemma tags_settled_set k v e :
  k ≠ k_tags → tags_settled e → tags_settled (set_field k v e).
Proof.
  intros Hk. unfold tags_settled. by rewrite lookup_set_field, decide_False.
Qed.

(** The loop body in repair mode, when it raises nothing: the entry
    becomes [repaired], which is settled; an entry that is not reported as
    modified is unchanged; no issue is reported. *)
Lemma check_entry_fix e e' f :
  check_entry lower true e = (e', Ok f) →
  e' = repaired lower e
  ∧ f.2 = false
  ∧ (f.1 = false → e' = e)
  ∧ settled lower e'
  ∧ (cr_free e → cr_free e').
Proof.
  intros (e1 & e2 & e3 & f1 & f2 & f3 & f4 & H1 & H2 & H3 & H4 & ->)%check_entry_inv.
  destruct keys_distinct as (Hcp & Hct & Hpt).
  apply check_category_fix in H1 as (He1 & -> & Hs1).
  destruct (check_priority_fix _ _ _ _ _ H2 H3) as (He3 & Hf23 & Hf2 & Hf3 & Hs3).
  apply check_tags_fix in H4 as (He4 & -> & Hs4).
  split; [|split; [|split; [|split]]].
  - unfold repaired. by rewrite <- He1, <- He3, <- He4.
  - simpl. by rewrite Hf2, Hf3.
  - simpl. intros Hf. apply orb_false_iff in Hf as [Hf12 Hf34].
    apply orb_false_iff in Hf12 as [Hf1 Hf2'].
    apply orb_false_iff in Hf34 as [Hf3' Hf4].
    rewrite Hf2', Hf3' in Hf23. simpl in Hf23. symmetry in Hf23.
    apply bool_decide_eq_false in Hf1, Hf23, Hf4.
    rewrite decide_False in He1 by done.
    rewrite decide_False in He3 by done.
    rewrite decide_False in He4 by done. congruence.
  - assert (category_settled e3) as Hc3.
    { rewrite He3. goal_decide; [apply category_settled_set|]; done. }
    split; [|split; [|done]].
    + rewrite He4. goal_decide; [apply category_settled_set|]; done.
    + rewrite He4. goal_decide; [apply priority_settled_set|]; done.
  - intros Hcr.
    assert (13 ∉ cps "general") as Hg by (by apply (bool_decide_unpack _); vm_compute).
    assert (13 ∉ cps "medium") as Hm by (by apply (bool_decide_unpack _); vm_compute).
    assert (cr_free e1) as Hcr1.
    { rewrite He1. goal_decide; [by apply cr_free_set|done]. }
    assert (cr_free e3) as Hcr3.
    { rewrite He3. goal_decide; [by apply cr_free_set|done]. }
    rewrite He4. goal_decide; [|done].
    apply cr_free_set; [|done]. apply cleaned_tags_no_cr.
    intros Hin%TextFacts.elem_of_strip. by apply (cell_no_cr e3 k_tags).
Qed.

(** *** Repair: one file *)

Lemma check_entries_fix entries entries' f :
  check_entries lower true entries = (entries', Ok f) →
  Forall (settled lower) entries'
  ∧ (f.1 = false → entries' = entries)
  ∧ (Forall cr_free entries → Forall cr_free entries').
Proof.
  revert entries' f. induction entries as [|e entries IH]; intros entries' f; simpl.
  - intros [= <- <-]. by repeat split.
  - destruct (check_entry lower true e) as [e' [fe|x]] eqn:He; [|done].
    destruct (check_entries lower true entries) as [rest [fr|x]] eqn:Hr; [|done].
    intros [= <- <-].
    apply check_entry_fix in He as (_ & _ & Hsame & Hset & Hcr).
    destruct (IH _ _ eq_refl) as (Hsets & Hsames & Hcrs).
    split; [by constructor|]. split.
    + simpl. intros [? ?]%orb_false_iff. by rewrite Hsame, Hsames.
    + intros [? ?]%Forall_cons. constructor; auto.
Qed.

Lemma check_entries_settled fix_ entries :
  Forall (settled lower) entries →
  check_entries lower fix_ entries = (entries, Ok no_flags).
Proof.
  induction 1 as [|e entries He _ IH]; simpl; [done|].
  by rewrite (check_entry_settled _ _ He), IH.
Qed.

Lemma writerows_ok_inv entries written content r :
  writerows entries written = (content, Ok r) →
  Forall only_fieldnames entries ∧ content = written ++ map row_of entries.
Proof.
  revert written. induction entries as [|e entries IH]; intros written; simpl.
  - intros [= <-]. by rewrite app_nil_r.
  - unfold dict_to_list. destruct (decide (only_fieldnames e)); [|done].
    intros H. apply IH in H as [? ->]. split; [by constructor|].
    by rewrite <- app_assoc.
Qed.

(** What is loaded holds the cells that the reader has yielded. *)
Lemma dict_of_row_cells (P : text → Prop) names (r : row) :
  Forall P r → cells P (dict_of_row names r).
Proof.
  intros Hr. unfold cells, dict_of_row. simpl.
  assert (∀ (ks : list text) (m : gmap text value),
            (∀ k s, m !! k = Some (Str s) → P s) →
            ∀ k s, fold_left (λ m k, <[k:=NoneV]> m) ks m !! k = Some (Str s) →
                   P s) as Hnone.
  { induction ks as [|k0 ks IH]; intros m Hm; simpl; [done|].
    apply IH. intros k s. rewrite lookup_insert. case_decide; [done|apply Hm]. }
  apply Hnone.
  assert (∀ (kvs : list (text * text)) (m : gmap text value),
            Forall (λ kv, P kv.2) kvs →
            (∀ k s, m !! k = Some (Str s) → P s) →
            ∀ k s, fold_left (λ m kv, <[kv.1:=Str kv.2]> m) kvs m !! k
                   = Some (Str s) → P s) as Hstr.
  { induction kvs as [|kv kvs IH]; intros m Hkvs Hm; simpl; [done|].
    apply Forall_cons in Hkvs as [Hkv Hkvs].
    apply IH; [done|]. intros k s. rewrite lookup_insert.
    case_decide; [by intros [= <-]|apply Hm]. }
  apply Hstr; [|by intros k s; rewrite lookup_empty].
  apply Forall_forall. intros [k c] Hin. simpl.
  rewrite Forall_forall in Hr. apply Hr.
  apply elem_of_zip_r in Hin. done.
Qed.

Lemma dict_of_row_cr_free names (r : row) :
  Forall (λ c, 13 ∉ c) r → cr_free (dict_of_row names r).
Proof. apply (dict_of_row_cells (λ c, 13 ∉ c)). Qed.

Lemma csv_reader_no_cr f : Forall (Forall (λ c, 13 ∉ c)) (csv_reader f).1.
Proof.
  eapply Forall_impl; [apply StoreProofs.csv_reader_plain|]. intros r Hr.
  eapply Forall_impl; [exact Hr|]. by intros c [? _].
Qed.

(** What is loaded is read back as it is written. *)
Lemma loaded_plain f : Forall (cells plain) (dict_reader (csv_reader f).1).
Proof.
  pose proof (StoreProofs.csv_reader_plain f) as H. unfold dict_reader.
  destruct (csv_reader f).1 as [|names rows]; [done|].
  apply Forall_cons in H as [_ H]. apply Forall_fmap.
  apply Forall_forall. intros r [_ Hr]%list_elem_of_filter. simpl.
  apply dict_of_row_cells. rewrite Forall_forall in H. by apply H.
Qed.

Lemma loaded_cr_free f : Forall cr_free (dict_reader (csv_reader f).1).
Proof.
  eapply Forall_impl; [apply loaded_plain|].
  intros e He k s Hk. by destruct (He k s Hk).
Qed.

(** The entry read back from the row written for an entry. *)
Lemma row_of_cells e :
  row_of e = [ cell_of (fields e !! k_question); cell_of (fields e !! k_answer);
               cell_of (fields e !! k_category); cell_of (fields e !! k_tags);
               cell_of (fields e !! k_priority) ].
Proof. done. Qed.

Lemma reload_settled e :
  settled lower e → settled lower (dict_of_row fieldnames (row_of e)).
Proof.
  intros ((c & Hc & Hcne) & (p & Hp & Hpne) & Ht). rewrite row_of_cells.
  split; [|split].
  - exists c. split; [|done]. rewrite Hc. vm_compute fields. reflexivity.
  - exists p. split; [|done]. rewrite Hp.
    generalize (cell_of (fields e !! k_question)) (cell_of (fields e !! k_answer))
      (cell_of (fields e !! k_category)) (cell_of (fields e !! k_tags)).
    intros. vm_compute. reflexivity.
  - unfold tags_settled in *.
    assert (∀ q a c t p, fields (dict_of_row fieldnames [q; a; c; t; p]) !! k_tags
                         = Some (Str t)) as -> by (intros; by vm_compute).
    destruct (fields e !! k_tags) as [[s|]|]; simpl; [done|done|by left].
Qed.

Lemma check_entries_nil_inv fix_ entries entries' r :
  check_entries lower fix_ entries = (entries', r) → entries' = [] → entries = [].
Proof.
  intros H ->. pose proof (check_entries_length lower fix_ entries) as Hlen.
  rewrite H in Hlen. by destruct entries.
Qed.

(** A corpus written for entries that are read back as they are written
    is read to its end, row by row. *)
Lemma csv_reader_written entries :
  Forall (cells plain) entries →
  csv_reader (fieldnames :: map row_of entries)
  = (fieldnames :: map row_of entries, false).
Proof.
  intros H. apply StoreProofs.csv_reader_id.
  constructor; [apply StoreProofs.fieldnames_plain|].
  apply Forall_fmap. eapply Forall_impl; [exact H|].
  intros e He. simpl. rewrite row_of_cells.
  repeat constructor; by apply (cell_of_cells plain); [apply plain_nil|].
Qed.

Lemma dict_reader_written entries :
  Forall (cells plain) entries →
  dict_reader (csv_reader (fieldnames :: map row_of entries)).1
  = map (λ e, dict_of_row fieldnames (row_of e)) entries.
Proof.
  intros H. rewrite csv_reader_written by done. cbn [fst].
  destruct (StoreProofs.dict_reader_canonical (map row_of entries))
    as (-> & _ & _).
  { apply Forall_fmap, Forall_true. by intros e. }
  by rewrite <- list_fmap_compose.
Qed.

(** What a pass does to a file that it saves: the entries are loaded,
    the loop goes through them, and the corpus that is written holds the
    canonical header and one row for each of them. *)
Lemma repair_file_saved_inv f content :
  repair_file lower f = Saved content →
  ∃ entries' flags,
    check_entries lower true (dict_reader (csv_reader f).1) = (entries', Ok flags)
    ∧ content = fieldnames :: map row_of entries'
    ∧ Forall (cells plain) entries'.
Proof.
  unfold repair_file. pose proof (loaded_plain f) as Hplain.
  destruct (dict_reader (csv_reader f).1) as [|e0 entries0] eqn:Hload; [done|].
  destruct (check_entries lower true (e0 :: entries0))
    as [entries' [[[] issues]|x]] eqn:Hcheck; [|done|done].
  destruct (writerows entries' [fieldnames]) as [c [u|x]] eqn:Hwrite; [|done].
  intros [= ->]. apply writerows_ok_inv in Hwrite as [_ ->].
  exists entries', (true, issues). split; [done|]. split; [done|].
  by eapply check_entries_plain.
Qed.

(** A file that a pass has saved is left alone by the next pass. *)
Lemma repair_file_saved f content :
  repair_file lower f = Saved content →
  repair_file lower content = Untouched.
Proof.
  intros (entries' & flags & Hcheck & -> & Hplain)%repair_file_saved_inv.
  apply check_entries_fix in Hcheck as (Hset & _ & _).
  unfold repair_file. rewrite dict_reader_written by done.
  assert (Forall (settled lower)
            (map (λ e, dict_of_row fieldnames (row_of e)) entries')) as Hset'.
  { apply Forall_fmap. eapply Forall_impl; [exact Hset|].
    intros e He. by apply reload_settled. }
  destruct (map (λ e, dict_of_row fieldnames (row_of e)) entries') as [|e l];
    [done|].
  by rewrite (check_entries_settled _ _ Hset').
Qed.

(** A file that a pass saves carries, row by row, the questions and the
    answers of the entries that were loaded from it. *)
Lemma repair_file_saved_rows f content :
  repair_file lower f = Saved content →
  ∃ rows, content = fieldnames :: rows
    ∧ Forall2 (λ e (r : row),
                 r !! 0%nat = Some (question_of e)
                 ∧ r !! 1%nat = Some (answer_of e))
              (dict_reader (csv_reader f).1) rows.
Proof.
  intros (entries' & flags & Hcheck & -> & _)%repair_file_saved_inv.
  pose proof (check_entries_frame lower true (dict_reader (csv_reader f).1))
    as Hframe.
  rewrite Hcheck in Hframe.
  exists (map row_of entries'). split; [done|].
  apply Forall2_fmap_r. eapply Forall2_impl; [exact Hframe|].
  intros e e' [_ Hf]. unfold compose, question_of, answer_of.
  rewrite row_of_cells. simpl. by rewrite !Hf.
Qed.

(** The entry read back from a written row has the question and the
    answer of the entry that the row was written for. *)
Lemma reload_question_answer e :
  question_of (dict_of_row fieldnames (row_of e)) = question_of e
  ∧ answer_of (dict_of_row fieldnames (row_of e)) = answer_of e.
Proof.
  rewrite row_of_cells. unfold question_of, answer_of.
  generalize (cell_of (fields e !! k_question)) (cell_of (fields e !! k_answer))
    (cell_of (fields e !! k_category)) (cell_of (fields e !! k_tags))
    (cell_of (fields e !! k_priority)).
  intros. by vm_compute.
Qed.

(** The entries that are loaded from a file that a pass has saved are as
    many as were loaded before the pass, with the same questions and the
    same answers. *)
Lemma repair_file_saved_loads f content :
  repair_file lower f = Saved content →
  Forall2 (λ e e', question_of e' = question_of e ∧ answer_of e' = answer_of e)
    (dict_reader (csv_reader f).1) (dict_reader (csv_reader content).1).
Proof.
  intros (entries' & flags & Hcheck & -> & Hplain)%repair_file_saved_inv.
  rewrite dict_reader_written by done.
  pose proof (check_entries_frame lower true (dict_reader (csv_reader f).1))
    as Hframe.
  rewrite Hcheck in Hframe.
  apply Forall2_fmap_r. eapply Forall2_impl; [exact Hframe|].
  intros e e' [_ Hf]. unfold compose.
  destruct (reload_question_answer e') as [-> ->].
  unfold question_of, answer_of. by rewrite !Hf.
Qed.

Lemma repair_pass_names d : (repair_pass lower d).1.*1 = d.*1.
Proof.
  induction d as [|[name f] d IH]; [done|]. simpl.
  destruct (repair_file lower f); try done;
    destruct (repair_pass lower d) as [d'' r]; simpl in *; by f_equal.
Qed.


(** *** Repair: the directory *)

Lemma lookup_file_fresh name pre (f : file) todo :
  name ∉ pre.*1 → lookup_file name (pre ++ (name, f) :: todo) = Some f.
Proof.
  induction pre as [|[n g] pre IH]; simpl.
  - intros _. by rewrite decide_True.
  - rewrite not_elem_of_cons. intros [Hne Hpre]. by rewrite decide_False, IH.
Qed.

Lemma write_file_fresh name pre (f content : file) todo :
  name ∉ pre.*1 →
  write_file name content (pre ++ (name, f) :: todo)
  = pre ++ (name, content) :: todo.
Proof.
  induction pre as [|[n g] pre IH]; simpl.
  - intros _. by rewrite decide_True.
  - rewrite not_elem_of_cons. intros [Hne Hpre]. by rewrite decide_False, IH.
Qed.

Lemma get_all_entries_files d :
  NoDup d.*1 →
  get_all_entries d
  = filter (λ ne, ne.2 ≠ [])
      (map (λ nf : text * file, (nf.1, dict_reader (csv_reader nf.2).1)) d).
Proof.
  intros Hd. unfold get_all_entries. f_equal.
  assert (∀ pre todo, d = pre ++ todo →
            map (λ nf : text * file, (nf.1, load_csv_file nf.1 d)) todo
            = map (λ nf : text * file, (nf.1, dict_reader (csv_reader nf.2).1)) todo)
    as H; [|by apply (H [] d)].
  intros pre todo. revert pre.
  induction todo as [|[name f] todo IH]; intros pre Hpre; [done|].
  simpl. f_equal.
  - unfold load_csv_file. rewrite Hpre, lookup_file_fresh; [done|].
    rewrite Hpre, fmap_app in Hd. apply NoDup_app in Hd as (_ & Hd & _).
    intros Hin. apply (Hd name Hin). left.
  - apply (IH (pre ++ [(name, f)])). by rewrite <- app_assoc.
Qed.

#[local] Arguments check_entries : simpl never.
#[local] Arguments writerows : simpl never.

(** In repair mode the loop over the files is the pass file by file. *)
Lemma validate_files_pass todo pre has_issues :
  NoDup (pre ++ todo).*1 →
  validate_files lower true
    (filter (λ ne, ne.2 ≠ [])
       (map (λ nf : text * file, (nf.1, dict_reader (csv_reader nf.2).1)) todo))
    has_issues (pre ++ todo)
  = (pre ++ (repair_pass lower todo).1, (repair_pass lower todo).2).
Proof.
  revert pre has_issues.
  induction todo as [|[name f] todo IH]; intros pre has_issues Hd.
  - simpl. by rewrite app_nil_r.
  - assert (∀ g, NoDup ((pre ++ [(name, g)]) ++ todo).*1) as Hd'.
    { intros g. rewrite <- app_assoc. simpl.
      by rewrite fmap_app in Hd |- *. }
    assert (name ∉ pre.*1) as Hfresh.
    { rewrite fmap_app in Hd. apply NoDup_app in Hd as (_ & Hd & _).
      intros Hin. apply (Hd name Hin). left. }
    assert (∀ g h, validate_files lower true
               (filter (λ ne, ne.2 ≠ [])
                  (map (λ nf : text * file, (nf.1, dict_reader (csv_reader nf.2).1)) todo))
               h (pre ++ (name, g) :: todo)
             = (pre ++ (name, g) :: (repair_pass lower todo).1,
                (repair_pass lower todo).2)) as Hrest.
    { intros g h. specialize (IH (pre ++ [(name, g)]) h (Hd' g)).
      by rewrite <- !app_assoc in IH. }
    simpl map. rewrite filter_cons. simpl repair_pass. unfold repair_file.
    destruct (dict_reader (csv_reader f).1) as [|e0 entries0] eqn:Hload.
    + rewrite decide_False by (by intros ?). rewrite Hrest.
      by destruct (repair_pass lower todo).
    + rewrite decide_True by done. simpl validate_files.
      destruct (check_entries lower true (e0 :: entries0))
        as [entries' [[[] issues]|x]] eqn:Hcheck; simpl.
      * assert (entries' ≠ []) as Hne
          by (intros Hn; by apply (check_entries_nil_inv _ _ _ _ Hcheck) in Hn).
        unfold save_csv_file.
        destruct (writerows entries' [fieldnames]) as [content [u|x]];
          (destruct entries'; [done|]); rewrite write_file_fresh by done.
        -- rewrite Hrest. by destruct (repair_pass lower todo).
        -- done.
      * rewrite Hrest. by destruct (repair_pass lower todo).
      * done.
Qed.

Lemma validate_and_fix_pass d :
  NoDup d.*1 → validate_and_fix lower true d = repair_pass lower d.
Proof.
  intros Hd. unfold validate_and_fix. rewrite get_all_entries_files by done.
  pose proof (validate_files_pass d [] false Hd) as H. simpl in H.
  rewrite H. by destruct (repair_pass lower d).
Qed.

(** *** Repair: questions and answers *)

Lemma keeps_loaded_refl f : keeps_loaded f f.
Proof. apply Forall_Forall2_diag, Forall_true. by intros e. Qed.

Lemma repair_pass_loads d d' r :
  r ≠ Ok false → repair_pass lower d = (d', r) →
  Forall2 (λ nf nf' : text * file, nf'.1 = nf.1 ∧ keeps_loaded nf.2 nf'.2) d d'.
Proof.
  intros Hr.
  assert (∀ d0 : directory,
            Forall2 (λ nf nf' : text * file,
                       nf'.1 = nf.1 ∧ keeps_loaded nf.2 nf'.2) d0 d0) as Hsame.
  { intros d0. apply Forall_Forall2_diag, Forall_true.
    intros nf. split; [done|apply keeps_loaded_refl]. }
  revert d'. induction d as [|[name f] d IH]; intros d'; simpl.
  - intros [= <- _]. constructor.
  - destruct (repair_file lower f) as [|x|content|content] eqn:Hf.
    + destruct (repair_pass lower d) as [d'' r']. intros [= <- ->].
      constructor; [|by apply IH]. split; [done|apply keeps_loaded_refl].
    + intros [= <- _]. apply Hsame.
    + destruct (repair_pass lower d) as [d'' r']. intros [= <- ->].
      constructor; [|by apply IH]. split; [done|].
      by apply repair_file_saved_loads.
    + by intros [= _ <-].
Qed.

Lemma lookup_file_related (Q : file → file → Prop) (d d' : directory) path :
  Forall2 (λ nf nf' : text * file, nf'.1 = nf.1 ∧ Q nf.2 nf'.2) d d' →
  match lookup_file path d, lookup_file path d' with
  | Some f, Some f' => Q f f'
  | None, None => True
  | _, _ => False
  end.
Proof.
  induction 1 as [|[n f] [n' f'] d d' [Hn HQ] _ IH]; simpl; [done|].
  simpl in Hn. subst n'. by destruct (decide (n = path)).
Qed.

(** C9 (as the code has it).  The repair never changes the question or
    the answer of an entry that it has loaded.  In memory, the loop over
    the entries of a corpus leaves every field other than category,
    priority and tags as it is, in either mode.  On disk, for distinctly
    named corpora on which a repair pass does not return [False], every
    corpus gives after the pass as many entries as it gave before, with
    the same questions and the same answers, a missing one counted as
    empty.  What the loader does not give is not kept by a corpus that
    the pass saves: a carriage return, the rows from a cell longer than
    the field size limit on, blank lines. *)
Theorem repair_keeps_question_and_answer :
  (∀ fix_ entries,
     Forall2
       (λ e e', fields e' !! k_question = fields e !! k_question
                ∧ fields e' !! k_answer = fields e !! k_answer
                ∧ untouched_outside_repair e e')
       entries (check_entries lower fix_ entries).1)
  ∧ (∀ d d' r file_path,
       NoDup d.*1 →
       validate_and_fix lower true d = (d', r) → r ≠ Ok false →
       Forall2
         (λ e e', question_of e' = question_of e ∧ answer_of e' = answer_of e)
         (load_csv_file file_path d) (load_csv_file file_path d')).
Proof.
  split; [apply check_entries_keeps_question_and_answer|].
  intros d d' r file_path Hd. rewrite validate_and_fix_pass by done.
  intros Hpass Hr. apply (repair_pass_loads _ _ _ Hr) in Hpass.
  apply (lookup_file_related keeps_loaded d d' file_path) in Hpass.
  unfold load_csv_file.
  by destruct (lookup_file file_path d), (lookup_file file_path d').
Qed.

(** *** Repair: the scenario of an invalid priority *)





End Repair.

Lemma lower_ascii_only_spec t :
  is_ascii t → Scenarios.lower_ascii_only t = map ascii_lower t.
Proof. done. Qed.




(** The two corpora in need of repair: after the pass each gives the
    entry it gave before, with its question and its answer. *)
Lemma repair_keeps_question_and_answer_witness :
  NoDup Scenarios.untidy_dir.*1
  ∧ validate_and_fix Scenarios.lower_ascii_only true Scenarios.untidy_dir
    = (Scenarios.tidy_dir, Ok true)
  ∧ Forall2
      (λ e e', question_of e' = question_of e ∧ answer_of e' = answer_of e)
      (load_csv_file Scenarios.b_csv Scenarios.untidy_dir)
      (load_csv_file Scenarios.b_csv Scenarios.tidy_dir).
Proof.
  assert (NoDup Scenarios.untidy_dir.*1) as Hnames
    by (by apply (bool_decide_unpack _); vm_compute).
  assert (validate_and_fix Scenarios.lower_ascii_only true Scenarios.untidy_dir
          = (Scenarios.tidy_dir, Ok true)) as Hfirst
    by (vm_compute; reflexivity).
  split; [exact Hnames|]. split; [exact Hfirst|].
  apply (proj2 (repair_keeps_question_and_answer Scenarios.lower_ascii_only)
           Scenarios.untidy_dir Scenarios.tidy_dir (Ok true) Scenarios.b_csv
           Hnames Hfirst).
  discriminate.
Defined.

(** C9, the claim as stated fails.  A repair pass that returns [True]
    saves the corpus with the question as it was loaded, with the line
    feed that the text mode has made of the carriage return and line feed
    that the file held: the question of the entry is no longer what it
    was.  And a pass that fails to save a corpus leaves it with its
    header alone: the entry, its question and its answer are gone. *)
Lemma repair_rewrites_stored_question :
  (validate_and_fix Scenarios.lower_ascii_only true Scenarios.crlf_question_dir
   = (Scenarios.crlf_question_after, Ok true)
   ∧ lookup_file Scenarios.kb_csv Scenarios.crlf_question_dir
     = Some [ fieldnames;
              [Scenarios.crlf_question; cps "a"; []; cps "t"; cps "high"] ]
   ∧ lookup_file Scenarios.kb_csv Scenarios.crlf_question_after
     = Some [ fieldnames;
              [Scenarios.lf_question; cps "a"; cps "general"; cps "t";
               cps "high"] ]
   ∧ Scenarios.lf_question ≠ Scenarios.crlf_question)
  ∧ (validate_and_fix Scenarios.lower_ascii_only true Scenarios.drifted_dir
     = (Scenarios.drifted_after_first, Ok false)
     ∧ map question_of (load_csv_file Scenarios.a_csv Scenarios.drifted_dir)
       = [cps "q1"]
     ∧ load_csv_file Scenarios.a_csv Scenarios.drifted_after_first = []).
Proof.
  split; [split; [|split; [|split]]|split; [|split]];
    try (vm_compute; reflexivity).
  vm_compute. discriminate.
Qed.

(** A repair pass saves what it has loaded: the load stops at the row
    that holds a cell longer than the field size limit, the first entry
    is repaired, and the corpus that is saved holds that entry alone,
    though the pass returns [True]. *)
Lemma repair_stops_at_long_cell (c : text) :
  within_limit (universal_newlines c) = false →
  validate_and_fix Scenarios.lower_ascii_only true (Scenarios.long_cell_dir c)
  = ([(Scenarios.kb_csv,
       [ fieldnames;
         [cps "q1"; cps "a1"; cps "general"; cps "t"; cps "high"] ])],
     Ok true).
Proof.
  intros Hc. unfold validate_and_fix, get_all_entries.
  unfold Scenarios.long_cell_dir at 2. cbn [map fst].
  rewrite (StoreProofs.load_stops_at_long_cell c Hc). vm_compute. reflexivity.
Qed.

Example repair_loses_rows_after_long_cell :
  validate_and_fix Scenarios.lower_ascii_only true
    (Scenarios.long_cell_dir Scenarios.long_cell)
  = ([(Scenarios.kb_csv,
       [ fieldnames;
         [cps "q1"; cps "a1"; cps "general"; cps "t"; cps "high"] ])],
     Ok true).
Proof.
  apply repair_stops_at_long_cell, StoreProofs.long_cell_refused.
Qed.

Lemma blank_question_never_duplicate_witness :
  find_duplicates Scenarios.lower_ascii_only Scenarios.blanks_dir
  = Ok [(cps "x", [(Scenarios.kb_csv, 2%nat); (Scenarios.kb_csv, 4%nat)])]
  ∧ load_csv_file Scenarios.kb_csv Scenarios.blanks_dir !! 0%nat
    = Some (dict_of_row fieldnames (Scenarios.no_question_row "1"))
  ∧ ((Scenarios.kb_csv, 1%nat)
     ∉ [(Scenarios.kb_csv, 2%nat); (Scenarios.kb_csv, 4%nat)])
  ∧ filter (λ e, blank_question Scenarios.lower_ascii_only e = true)
      [dict_of_row fieldnames (Scenarios.no_question_row "1");
       dict_of_row fieldnames (Scenarios.qa_row "x" "2");
       dict_of_row fieldnames (Scenarios.qa_row " " "3")]
    = filter (λ e, blank_question Scenarios.lower_ascii_only e = true)
        (mjoin (map (λ s, load_csv_file s Scenarios.blanks_dir)
                    [Scenarios.kb_csv])).
Proof.
  destruct (blank_question_never_duplicate Scenarios.lower_ascii_only)
    as [Hdup Hmerge].
  split; [vm_compute; reflexivity|]. split; [vm_compute; reflexivity|]. split.
  - apply (Hdup Scenarios.blanks_dir
             [(cps "x", [(Scenarios.kb_csv, 2%nat); (Scenarios.kb_csv, 4%nat)])]
             Scenarios.kb_csv 1%nat
             (dict_of_row fieldnames (Scenarios.no_question_row "1"))
             (cps "x")
             [(Scenarios.kb_csv, 2%nat); (Scenarios.kb_csv, 4%nat)]).
    + vm_compute. reflexivity.
    + lia.
    + vm_compute. reflexivity.
    + vm_compute. reflexivity.
    + left.
  - apply (Hmerge [Scenarios.kb_csv] Scenarios.blanks_dir _ {[cps "x"]}).
    vm_compute. reflexivity.
Defined.


(** The merge of the two corpora of the scenario, as it is written. *)
Example merge_scenario :
  merge_files Scenarios.lower_ascii_only [Scenarios.a_csv; Scenarios.b_csv]
    Scenarios.merged_csv true Scenarios.merge_dir
  = (Scenarios.merge_dir ++
       [(Scenarios.merged_csv,
         [ fieldnames; Scenarios.qa_row "How do I log in?" "1";
           Scenarios.qa_row "How do I reset my password?" "2";
           Scenarios.qa_row "Where are the logs?" "3";
           Scenarios.qa_row "Who do I call?" "5" ])],
     Ok true).
Proof. vm_compute. reflexivity. Qed.

(** *** The walk of a set *)

(** The walk of a set goes through the names that were added, each
    once, by increasing slot. *)
Lemma set_insert_perm slot x l : set_insert slot x l ≡ₚ x :: l.
Proof.
  induction l as [|y l IH]; [done|]. cbn [set_insert].
  destruct (slot y <=? slot x); [|done].
  rewrite IH. apply Permutation_swap.
Qed.

Lemma set_walk_acc_perm slot l acc :
  fold_left (λ walk filename, set_insert slot filename walk) l acc ≡ₚ acc ++ l.
Proof.
  revert acc. induction l as [|x l IH]; intros acc; simpl.
  - by rewrite app_nil_r.
  - rewrite IH, set_insert_perm. simpl. apply Permutation_middle.
Qed.

Lemma set_walk_perm slot l : set_walk slot l ≡ₚ l.
Proof. apply (set_walk_acc_perm slot l []). Qed.

Lemma set_insert_sorted slot x l :
  StronglySorted (λ a b, slot a ≤ slot b) l →
  StronglySorted (λ a b, slot a ≤ slot b) (set_insert slot x l).
Proof.
  induction 1 as [|y l Hl IH Hy]; [by repeat constructor|].
  cbn [set_insert]. destruct (N.leb_spec (slot y) (slot x)) as [Hle|Hlt].
  - constructor; [done|]. rewrite set_insert_perm. by constructor.
  - constructor; [by constructor|]. constructor; [lia|].
    eapply Forall_impl; [exact Hy|]. intros z Hz. simpl in *. lia.
Qed.

Lemma set_walk_sorted slot l :
  StronglySorted (λ a b, slot a ≤ slot b) (set_walk slot l).
Proof.
  unfold set_walk.
  assert (∀ acc, StronglySorted (λ a b, slot a ≤ slot b) acc →
            StronglySorted (λ a b, slot a ≤ slot b)
              (fold_left (λ walk filename, set_insert slot filename walk) l acc))
    as H; [|apply H; constructor].
  induction l as [|x l IH]; intros acc Hacc; simpl; [done|].
  apply IH. by apply set_insert_sorted.
Qed.

Lemma StronglySorted_ext_in {A} (R R' : relation A) (l : list A) :
  (∀ a b, a ∈ l → b ∈ l → R a b → R' a b) →
  StronglySorted R l → StronglySorted R' l.
Proof.
  intros Hext Hl. induction Hl as [|x l Hl IH Hx]; [constructor|].
  constructor.
  - apply IH. intros a b Ha Hb. apply Hext; by right.
  - apply Forall_forall. intros y Hy. rewrite Forall_forall in Hx.
    apply Hext; [left|by right|by apply Hx].
Qed.

Lemma place_in_sorted order :
  NoDup order →
  StronglySorted (λ a b, place_in order a ≤ place_in order b) order.
Proof.
  induction 1 as [|x order Hx Hnd IH]; [constructor|].
  constructor.
  - eapply StronglySorted_ext_in; [|exact IH].
    intros a b Ha Hb Hab. simpl.
    assert (x ≠ a) as Hxa by (by intros ->).
    assert (x ≠ b) as Hxb by (by intros ->).
    rewrite !decide_False by done. simpl in Hab. lia.
  - apply Forall_true. intros y. simpl. rewrite decide_True by done. lia.
Qed.

Lemma place_in_inj order a b :
  a ∈ order → b ∈ order → place_in order a = place_in order b → a = b.
Proof.
  induction order as [|x order IH]; [by intros ?%elem_of_nil|].
  simpl. intros Ha Hb.
  destruct (decide (x = a)) as [Ea|Hxa]; destruct (decide (x = b)) as [Eb|Hxb];
    [congruence|lia|lia|].
  apply elem_of_cons in Ha as [->|Ha]; [done|].
  apply elem_of_cons in Hb as [->|Hb]; [done|].
  intros H. apply IH; [done|done|lia].
Qed.

(** The parameter leaves the order free: every order of the names that
    were added is the walk for some table. *)
Lemma set_walk_any_order (modified order : list text) :
  NoDup modified → order ≡ₚ modified →
  set_walk (place_in order) modified = order.
Proof.
  intros Hnd Hperm.
  apply (StronglySorted_unique_strong
           (λ a b, place_in order a ≤ place_in order b)).
  - intros a b Ha Hb H1 H2. apply (place_in_inj order); [|done|lia].
    by rewrite Hperm, <- (set_walk_perm (place_in order) modified).
  - apply set_walk_sorted.
  - apply place_in_sorted. by rewrite Hperm.
  - by rewrite set_walk_perm.
Qed.

(** *** Removal of duplicates *)

(** The dry run of the removal leaves the directory as it is. *)
Lemma remove_duplicates_dry_run lower slot d :
  (remove_duplicates lower slot true d).1 = d.
Proof.
  unfold remove_duplicates.
  destruct (find_duplicates lower d) as [[|g groups]|x]; [done| |done].
  by destruct (remove_groups true (g :: groups) (get_all_entries d, []))
    as [[all_entries modified]|x].
Qed.

(** The same question three times: the third copy survives. *)
Example remove_duplicates_triple (slot : text → N) :
  remove_duplicates Scenarios.lower_ascii_only slot false Scenarios.triple_dir
  = ([(Scenarios.kb_csv,
       [fieldnames; Scenarios.qa_row "q" "1"; Scenarios.qa_row "q" "3"])],
     Ok true).
Proof. vm_compute. reflexivity. Qed.

(** C2. On a corpus with the questions a, b, A, B, c in this order,
    duplicate detection reports the groups of a (rows 1 and 3) and of b
    (rows 2 and 4); the removal in apply mode deletes row 3 and then, by
    the row number taken before that deletion, the row that has meanwhile
    become the fourth: the entry c, which duplicates nothing, is deleted
    and the second occurrence of b stays in the corpus that is saved.
    This holds whatever the order in which the set of the modified files
    is walked. *)
Theorem remove_duplicates_stale_row_numbers (slot : text → N) :
  find_duplicates Scenarios.lower_ascii_only Scenarios.interleaved_dir
  = Ok [ (cps "a", [(Scenarios.kb_csv, 1%nat); (Scenarios.kb_csv, 3%nat)]);
         (cps "b", [(Scenarios.kb_csv, 2%nat); (Scenarios.kb_csv, 4%nat)]) ]
  ∧ remove_duplicates Scenarios.lower_ascii_only slot false
      Scenarios.interleaved_dir
    = ([(Scenarios.kb_csv,
         [fieldnames; Scenarios.qa_row "a" "1"; Scenarios.qa_row "b" "2";
          Scenarios.qa_row "B" "4"])],
       Ok true).
Proof. split; vm_compute; reflexivity. Qed.

End ManagerProofs.

(** ** Validation without repair *)

Module ValidationProofs.
Import Manager.

Section Report.

Variable lower : text → text.









End Report.

Section AfterRepair.

Variable lower : text → text.
Hypothesis lower_ascii : ∀ t, is_ascii t → lower t = map ascii_lower t.

Lemma repair_file_untouched f :
  repair_file lower f = Untouched →
  Forall (settled lower) (dict_reader (csv_reader f).1).
Proof.
  unfold repair_file.
  destruct (dict_reader (csv_reader f).1) as [|e0 entries0] eqn:Hload; [done|].
  destruct (check_entries lower true (e0 :: entries0))
    as [entries' [[[] issues]|x]] eqn:Hcheck; [|intros _|done].
  - by destruct (writerows entries' [fieldnames]) as [c [u|x]].
  - apply (ManagerProofs.check_entries_fix lower lower_ascii) in Hcheck
      as (Hset & Hid & _).
    by rewrite <- (Hid eq_refl).
Qed.

Lemma repair_pass_settled d d' :
  repair_pass lower d = (d', Ok true) →
  Forall (λ nf : text * file, Forall (settled lower) (dict_reader (csv_reader nf.2).1)) d'.
Proof.
  revert d'. induction d as [|[name f] d IH]; intros d'; simpl.
  - by intros [= <-].
  - destruct (repair_file lower f) as [|x|content|content] eqn:Hf; [| done | |done].
    + destruct (repair_pass lower d) as [d'' r]. intros [= <- ->].
      constructor; [by apply repair_file_untouched|by apply IH].
    + destruct (repair_pass lower d) as [d'' r]. intros [= <- ->].
      constructor; [|by apply IH]. simpl.
      apply repair_file_untouched.
      by apply (ManagerProofs.repair_file_saved lower lower_ascii f).
Qed.

Lemma validate_files_settled fix_ all_entries has_issues d :
  Forall (λ fe : text * list entry, Forall (settled lower) fe.2) all_entries →
  validate_files lower fix_ all_entries has_issues d
  = (d, Ok (negb (negb fix_ && has_issues))).
Proof.
  revert has_issues.
  induction all_entries as [|[f entries] rest IH]; intros has_issues Hall;
    [done|].
  apply Forall_cons in Hall as [He Hrest]. simpl in *.
  rewrite (ManagerProofs.check_entries_settled lower _ _ He). simpl.
  rewrite andb_false_r, orb_false_r. by apply IH.
Qed.

(** X2.  After a repair pass that ends with [True], validation without
    [fix] finds nothing: it returns [True] and leaves the directory as the
    repair wrote it. *)
Theorem repaired_directory_validates (d d' : directory) :
  NoDup d.*1 →
  validate_and_fix lower true d = (d', Ok true) →
  validate_and_fix lower false d' = (d', Ok true).
Proof.
  intros Hd. rewrite (ManagerProofs.validate_and_fix_pass lower) by done.
  intros Hpass.
  assert (NoDup d'.*1) as Hd'.
  { pose proof (ManagerProofs.repair_pass_names lower d) as Hn.
    rewrite Hpass in Hn. simpl in Hn. by rewrite Hn. }
  apply repair_pass_settled in Hpass.
  unfold validate_and_fix.
  rewrite (ManagerProofs.get_all_entries_files d' Hd').
  rewrite validate_files_settled; [done|].
  apply Forall_forall. intros [f es] [_ Hin]%list_elem_of_filter.
  apply list_elem_of_fmap in Hin as ([n g] & [= -> ->] & Hin). simpl.
  rewrite Forall_forall in Hpass. by apply (Hpass (n, g)).
Qed.

End AfterRepair.

(** A directory that needs repair and validates once repaired. *)
Lemma repaired_directory_validates_witness :
  NoDup Scenarios.untidy_dir.*1
  ∧ validate_and_fix Scenarios.lower_ascii_only true Scenarios.untidy_dir
    = (Scenarios.tidy_dir, Ok true)
  ∧ validate_and_fix Scenarios.lower_ascii_only false Scenarios.tidy_dir
    = (Scenarios.tidy_dir, Ok true).
Proof.
  assert (NoDup Scenarios.untidy_dir.*1) as Hd
    by (apply (bool_decide_unpack _); vm_compute; reflexivity).
  assert (validate_and_fix Scenarios.lower_ascii_only true Scenarios.untidy_dir
          = (Scenarios.tidy_dir, Ok true)) as Hfix
    by (vm_compute; reflexivity).
  split; [exact Hd|]. split; [exact Hfix|].
  exact (repaired_directory_validates Scenarios.lower_ascii_only
           ManagerProofs.lower_ascii_only_spec _ _ Hd Hfix).
Defined.


End ValidationProofs.

(** ** The groups of [find_duplicates] *)

Module GroupsProofs.
Import Manager Groups.

Section Scan.

Variable lower : text → text.

Lemma append_location_keys q l seen :
  (append_location q l seen).*1
  = if decide (q ∈ seen.*1) then seen.*1 else seen.*1 ++ [q].
Proof.
  induction seen as [|[q' ls] seen IH]; [done|].
  cbn [append_location]. rewrite fmap_cons. cbn [fst].
  destruct (decide (q' = q)) as [->|Hne].
  - rewrite fmap_cons. cbn [fst]. by rewrite decide_True by left.
  - rewrite fmap_cons, IH. cbn [fst].
    destruct (decide (q ∈ seen.*1)) as [Hin|Hout].
    + by rewrite decide_True by (by right).
    + rewrite decide_False; [done|].
      intros [?|?]%elem_of_cons; [by subst|done].
Qed.

Lemma append_location_nonempty q l seen :
  Forall (λ ql : text * list location, ql.2 ≠ []) seen →
  Forall (λ ql : text * list location, ql.2 ≠ []) (append_location q l seen).
Proof.
  induction seen as [|[q' ls] seen IH]; simpl.
  - intros _. by repeat constructor.
  - intros [Hls Hseen]%Forall_cons. destruct (decide (q' = q)).
    + constructor; [|done]. simpl. by destruct ls.
    + constructor; [done|by apply IH].
Qed.

Lemma append_location_well_keyed q l seen :
  q ≠ [] → well_keyed seen → well_keyed (append_location q l seen).
Proof.
  intros Hq (Hnd & Hne & Hls). unfold well_keyed.
  rewrite append_location_keys.
  split; [|split; [|by apply append_location_nonempty]].
  - destruct (decide (q ∈ seen.*1)); [done|].
    apply NoDup_app. split; [done|]. split; [|apply NoDup_singleton].
    intros x Hx ->%list_elem_of_singleton. done.
  - destruct (decide (q ∈ seen.*1)); [done|].
    rewrite elem_of_app, list_elem_of_singleton. intros [?|?]; [done|by subst].
Qed.

Lemma group_of_append q l seen q' :
  group_of q' (append_location q l seen)
  = if decide (q = q') then group_of q' seen ++ [l] else group_of q' seen.
Proof.
  induction seen as [|[q0 ls] seen IH]; simpl.
  - destruct (decide (q = q')); done.
  - destruct (decide (q0 = q)) as [->|Hne]; simpl.
    + destruct (decide (q = q')); done.
    + destruct (decide (q0 = q')) as [->|Hne'].
      * by rewrite decide_False by done.
      * done.
Qed.

Lemma group_of_elem q locs seen :
  well_keyed seen →
  (q, locs) ∈ seen ↔ locs ≠ [] ∧ group_of q seen = locs.
Proof.
  intros (Hnd & _ & Hls).
  induction seen as [|[q0 ls] seen IH]; simpl.
  - split; [by intros ?%elem_of_nil|]. by intros [? <-].
  - apply Forall_cons in Hls as [Hl Hls]. simpl in *.
    apply NoDup_cons in Hnd as [Hq0 Hnd]. rewrite elem_of_cons.
    destruct (decide (q0 = q)) as [->|Hne].
    + split.
      * intros [[= <-]|Hin]; [done|].
        exfalso. apply Hq0. apply list_elem_of_fmap. by exists (q, locs).
      * intros [_ ->]. by left.
    + rewrite <- (IH Hnd Hls). split; [|tauto].
      intros [[= -> ->]|?]; done.
Qed.

Lemma scan_entries_groups f entries idx seen seen' :
  scan_entries lower f idx entries seen = Ok seen' →
  well_keyed seen →
  well_keyed seen'
  ∧ ∀ q, q ≠ [] →
         group_of q seen' = group_of q seen ++ locations_in lower q f idx entries.
Proof.
  revert idx seen. induction entries as [|e entries IH]; intros idx seen; simpl.
  - intros [= <-] Hk. split; [done|]. intros. by rewrite app_nil_r.
  - destruct (question_key lower e) as [question|x]; [|done].
    intros Hscan Hk. destruct (nonempty question) eqn:Hne.
    + apply ManagerProofs.nonempty_true in Hne.
      apply IH in Hscan as [Hk' Hg];
        [|by apply append_location_well_keyed].
      split; [done|]. intros q Hq. rewrite (Hg q Hq), group_of_append.
      destruct (decide (question = q)); [|done].
      by rewrite <- app_assoc.
    + apply ManagerProofs.nonempty_false in Hne as ->.
      apply IH in Hscan as [Hk' Hg]; [|done].
      split; [done|]. intros q Hq. rewrite (Hg q Hq).
      by rewrite decide_False by done.
Qed.

Lemma scan_files_groups all_entries seen seen' :
  scan_files lower all_entries seen = Ok seen' →
  well_keyed seen →
  well_keyed seen'
  ∧ ∀ q, q ≠ [] →
         group_of q seen' = group_of q seen ++ locations_of lower q all_entries.
Proof.
  revert seen. induction all_entries as [|[f entries] rest IH]; intros seen; simpl.
  - intros [= <-] Hk. split; [done|]. intros. by rewrite app_nil_r.
  - destruct (scan_entries lower f 1 entries seen) as [seen1|x] eqn:Hscan;
      [|done].
    intros Hrest Hk.
    apply scan_entries_groups in Hscan as [Hk1 Hg1]; [|done].
    apply IH in Hrest as [Hk' Hg]; [|done].
    split; [done|]. intros q Hq.
    rewrite (Hg q Hq), (Hg1 q Hq). unfold locations_of.
    by rewrite <- app_assoc.
Qed.

Lemma well_keyed_nil : well_keyed [].
Proof.
  split; [constructor|]. split; [by intros ?%elem_of_nil|constructor].
Qed.

(** X3.  The groups that [find_duplicates] returns are the whole truth:
    a question occurs as a key once, and it is a key with the locations
    [locs] exactly when it is not empty, [locs] lists every entry of the
    corpus whose normalized question it is, in the order of the scan, and
    there are at least two of them. *)
Theorem find_duplicates_groups (d : directory)
    (groups : list (text * list location)) :
  find_duplicates lower d = Ok groups →
  NoDup groups.*1
  ∧ ∀ q locs,
      (q, locs) ∈ groups
      ↔ q ≠ [] ∧ locs = locations_of lower q (get_all_entries d)
        ∧ (1 < length locs)%nat.
Proof.
  unfold find_duplicates.
  destruct (scan_files lower (get_all_entries d) []) as [seen|x] eqn:Hscan;
    [|done].
  intros [= <-].
  apply scan_files_groups in Hscan as [Hk Hg]; [|apply well_keyed_nil].
  pose proof Hk as (Hnd & Hnil & Hls).
  split.
  - eapply sublist_NoDup; first [exact Hnd|apply fmap_sublist, sublist_filter].
  - intros q locs. rewrite list_elem_of_filter. simpl. split.
    + intros (Hlen & Hin).
      assert (q ≠ []) as Hq.
      { intros ->. apply Hnil. apply list_elem_of_fmap. by exists ([], locs). }
      apply (group_of_elem _ _ _ Hk) in Hin as [_ Hgroup].
      rewrite (Hg q Hq) in Hgroup. simpl in Hgroup. by subst.
    + intros (Hq & -> & Hlen). split; [done|].
      apply (group_of_elem _ _ _ Hk). rewrite (Hg q Hq). simpl.
      split; [|done]. intros Hn. rewrite Hn in Hlen. simpl in Hlen. lia.
Qed.

End Scan.


(** A corpus with one pair of duplicates and two blank questions. *)
Lemma find_duplicates_groups_witness :
  find_duplicates Scenarios.lower_ascii_only Scenarios.blanks_dir
  = Ok [(cps "x", [(Scenarios.kb_csv, 2%nat); (Scenarios.kb_csv, 4%nat)])]
  ∧ (NoDup [(cps "x", [(Scenarios.kb_csv, 2%nat); (Scenarios.kb_csv, 4%nat)])].*1
     ∧ ∀ q locs,
         (q, locs) ∈ [(cps "x", [(Scenarios.kb_csv, 2%nat); (Scenarios.kb_csv, 4%nat)])]
         ↔ q ≠ []
           ∧ locs = locations_of Scenarios.lower_ascii_only q
                      (get_all_entries Scenarios.blanks_dir)
           ∧ (1 < length locs)%nat).
Proof.
  split; [vm_compute; reflexivity|].
  apply (find_duplicates_groups Scenarios.lower_ascii_only Scenarios.blanks_dir).
  vm_compute. reflexivity.
Defined.

(** ** The corpus that [merge_files] writes *)

Section Merged.

Variable lower : text → text.

Lemma first_wins_sublist earlier entries :
  first_wins lower earlier entries `sublist_of` entries.
Proof.
  revert earlier. induction entries as [|e entries IH]; intros earlier; simpl.
  - constructor.
  - destruct (decide _); [apply sublist_cons|apply sublist_skip]; apply IH.
Qed.

(** The questions of what [first_wins] keeps, the blank ones apart, are
    pairwise distinct and none of them was met earlier. *)
Lemma first_wins_distinct earlier entries :
  NoDup (filter (λ q, q ≠ [])
           (map (normalized_question lower) (first_wins lower earlier entries)))
  ∧ ∀ q, q ∈ filter (λ q, q ≠ [])
               (map (normalized_question lower) (first_wins lower earlier entries)) →
         q ∉ map (normalized_question lower) earlier.
Proof.
  revert earlier. induction entries as [|e entries IH]; intros earlier; simpl.
  - split; [constructor|]. by intros q ?%elem_of_nil.
  - destruct (IH (earlier ++ [e])) as [Hnd Hout].
    assert (∀ q, q ∈ filter (λ q, q ≠ [])
                   (map (normalized_question lower)
                      (first_wins lower (earlier ++ [e]) entries)) →
                 q ≠ normalized_question lower e
                 ∧ q ∉ map (normalized_question lower) earlier) as Hout'.
    { intros q Hq. apply Hout in Hq. rewrite map_app, elem_of_app in Hq.
      simpl in Hq. rewrite list_elem_of_singleton in Hq. tauto. }
    destruct (decide _) as [Hdup|Hnew].
    + split; [done|]. intros q Hq. by apply Hout'.
    + simpl. rewrite filter_cons.
      destruct (decide (normalized_question lower e ≠ [])) as [Hne|_].
      * split.
        -- apply NoDup_cons. split; [|done]. intros Hq.
           by apply Hout' in Hq as [? _].
        -- intros q [->|Hq]%elem_of_cons; [tauto|by apply Hout'].
      * split; [done|]. intros q Hq. by apply Hout'.
Qed.

Lemma merge_entries_keys dedup entries st st' :
  merge_entries lower dedup entries st = Ok st' →
  Forall (λ e, ∃ q, question_key lower e = Ok q) entries.
Proof.
  revert st. induction entries as [|e entries IH]; intros st; simpl; [done|].
  destruct (question_key lower e) as [q|x] eqn:Hq; [|done].
  intros H. constructor; [by exists q|].
  destruct (dedup && bool_decide (q ∈ st.2)); by apply IH in H.
Qed.

Lemma merge_sources_keys dedup sources d st st' :
  merge_sources lower dedup sources d st = Ok (Some st') →
  Forall (λ e, ∃ q, question_key lower e = Ok q)
         (mjoin (map (λ s, load_csv_file s d) sources)).
Proof.
  revert st. induction sources as [|s sources IH]; intros st; simpl; [done|].
  destruct (lookup_file s d); [|done].
  destruct (merge_entries lower dedup (load_csv_file s d) st) as [st1|x] eqn:Hm;
    [|done].
  intros H. apply Forall_app. split.
  - by apply merge_entries_keys in Hm.
  - by apply IH in H.
Qed.

Lemma loads_plain sources d :
  Forall (cells plain) (mjoin (map (λ s, load_csv_file s d) sources)).
Proof.
  induction sources as [|s sources IH]; simpl; [done|].
  apply Forall_app. split; [|done]. unfold load_csv_file.
  destruct (lookup_file s d); [apply ManagerProofs.loaded_plain|done].
Qed.

(** Reading back the row written for an entry gives its question. *)
Lemma question_key_reload e q :
  question_key lower e = Ok q →
  question_key lower (dict_of_row fieldnames (row_of e)) = Ok q.
Proof.
  rewrite ManagerProofs.row_of_cells. unfold question_key.
  assert (∀ q a c t p,
            fields (dict_of_row fieldnames [q; a; c; t; p]) !! k_question
            = Some (Str q)) as -> by (intros; by vm_compute).
  by destruct (fields e !! k_question) as [[s|]|].
Qed.

Lemma load_written target entries :
  Forall (cells plain) entries →
  load_csv_file target [(target, fieldnames :: map row_of entries)]
  = map (λ e, dict_of_row fieldnames (row_of e)) entries.
Proof.
  intros Hplain. unfold load_csv_file. simpl. rewrite decide_True by done.
  by apply ManagerProofs.dict_reader_written.
Qed.

Lemma locations_in_absent q f idx entries :
  q ∉ map (normalized_question lower) entries →
  Forall (λ e, ∃ q, question_key lower e = Ok q) entries →
  locations_in lower q f idx entries = [].
Proof.
  revert idx. induction entries as [|e entries IH]; intros idx; simpl; [done|].
  rewrite not_elem_of_cons. intros [Hne Hout] [[q' Hq'] Hall]%Forall_cons.
  unfold normalized_question in Hne. rewrite Hq' in *.
  rewrite decide_False by done. by apply IH.
Qed.

Lemma locations_in_distinct q f idx entries :
  q ≠ [] →
  Forall (λ e, ∃ q, question_key lower e = Ok q) entries →
  NoDup (filter (λ q, q ≠ []) (map (normalized_question lower) entries)) →
  (length (locations_in lower q f idx entries) ≤ 1)%nat.
Proof.
  intros Hq. revert idx.
  induction entries as [|e entries IH]; intros idx; simpl; [lia|].
  intros [[q' Hq'] Hall]%Forall_cons. rewrite filter_cons.
  assert (normalized_question lower e = q') as Hnq
    by (unfold normalized_question; by rewrite Hq').
  rewrite Hq', Hnq.
  destruct (decide (q' = q)) as [->|Hne].
  - rewrite decide_True by done. intros [Hout _]%NoDup_cons.
    rewrite locations_in_absent; [simpl; lia| |done].
    intros Hin. apply Hout. by apply list_elem_of_filter.
  - destruct (decide (q' ≠ [])).
    + intros [_ Hnd]%NoDup_cons. by apply IH.
    + by apply IH.
Qed.

Lemma scan_entries_total f idx entries seen :
  Forall (λ e, ∃ q, question_key lower e = Ok q) entries →
  ∃ seen', scan_entries lower f idx entries seen = Ok seen'.
Proof.
  revert idx seen. induction entries as [|e entries IH]; intros idx seen; simpl.
  - by exists seen.
  - intros [[q Hq] Hall]%Forall_cons. rewrite Hq. by apply IH.
Qed.

Lemma sublist_forall {A} (P : A → Prop) (l k : list A) :
  l `sublist_of` k → Forall P k → Forall P l.
Proof.
  induction 1 as [|x l k Hs IH|x l k Hs IH]; [done| |].
  - intros [Hx Hk]%Forall_cons. constructor; [done|by apply IH].
  - intros [_ Hk]%Forall_cons. by apply IH.
Qed.

Lemma filter_none {A} (P : A → Prop) `{∀ x, Decision (P x)} (l : list A) :
  Forall (λ x, ¬ P x) l → filter P l = [].
Proof.
  induction 1 as [|x l Hx Hl IH]; [done|].
  by rewrite filter_cons, decide_False.
Qed.

(** A single corpus whose questions, the blank ones apart, are pairwise
    distinct has no duplicate group. *)
Lemma find_duplicates_distinct target content :
  Forall (λ e, ∃ q, question_key lower e = Ok q)
         (load_csv_file target [(target, content)]) →
  NoDup (filter (λ q, q ≠ [])
           (map (normalized_question lower)
              (load_csv_file target [(target, content)]))) →
  find_duplicates lower [(target, content)] = Ok [].
Proof.
  intros Hkeys Hnd. unfold find_duplicates, get_all_entries.
  simpl map. rewrite filter_cons.
  destruct (decide _) as [Hne|_]; [|done]. simpl in Hne. simpl.
  destruct (scan_entries_total target 1 _ [] Hkeys) as [seen Hscan].
  rewrite Hscan.
  apply scan_entries_groups in Hscan as [Hk Hg]; [|apply well_keyed_nil].
  f_equal. apply filter_none. apply Forall_forall. intros [q locs] Hin.
  simpl.
  assert (q ≠ []) as Hq.
  { intros ->. destruct Hk as (_ & Hnil & _). apply Hnil.
    apply list_elem_of_fmap. by exists ([], locs). }
  apply (group_of_elem lower _ _ _ Hk) in Hin as [_ <-].
  rewrite (Hg q Hq). simpl.
  pose proof (locations_in_distinct q target 1 _ Hq Hkeys Hnd). lia.
Qed.

(** X4.  A merge with duplicate suppression that ends with [True] leaves
    a target corpus in which [find_duplicates] finds no group. *)
Theorem merged_corpus_has_no_duplicates (sources : list text)
    (target : text) (d d' : directory) (content : file) :
  merge_files lower sources target true d = (d', Ok true) →
  lookup_file target d' = Some content →
  find_duplicates lower [(target, content)] = Ok [].
Proof.
  unfold merge_files.
  destruct (merge_sources lower true sources d ([], ∅))
    as [[[all_entries seen]|]|x] eqn:Hmerge; [|done|done].
  destruct (save_csv_file target all_entries d) as [d1 ok] eqn:Hsave.
  intros [= -> ->] Hcontent.
  pose proof (merge_sources_keys _ _ _ _ _ Hmerge) as Hkeys.
  pose proof (loads_plain sources d) as Hcr.
  apply (ManagerProofs.merge_sources_first_wins lower _ _ []) in Hmerge.
  2:{ intros q. rewrite elem_of_empty. simpl. rewrite elem_of_nil. tauto. }
  simpl in Hmerge.
  set (loaded := mjoin (map (λ s, load_csv_file s d) sources)) in *.
  pose proof (first_wins_sublist [] loaded) as Hsub.
  pose proof (first_wins_distinct [] loaded) as [Hnd _].
  rewrite <- Hmerge in Hsub, Hnd.
  assert (Forall (λ e, ∃ q, question_key lower e = Ok q) all_entries) as Hkeys'
    by (by eapply sublist_forall).
  assert (Forall (cells plain) all_entries) as Hcr'
    by (by eapply sublist_forall).
  unfold save_csv_file in Hsave.
  destruct all_entries as [|e0 entries0] eqn:Hall.
  - injection Hsave as <-.
    rewrite StoreProofs.lookup_write_file in Hcontent.
    injection Hcontent as <-.
    assert (load_csv_file target [(target, [])] = []) as Hload
      by (unfold load_csv_file; simpl; by rewrite decide_True).
    apply find_duplicates_distinct; rewrite Hload; constructor.
  - rewrite <- Hall in *.
    destruct (writerows all_entries [fieldnames]) as [written [u|x]] eqn:Hw;
      [|done].
    apply ManagerProofs.writerows_ok_inv in Hw as [_ ->].
    injection Hsave as <-.
    rewrite StoreProofs.lookup_write_file in Hcontent.
    injection Hcontent as <-. simpl app.
    apply find_duplicates_distinct; rewrite load_written by done.
    + apply Forall_fmap. eapply Forall_impl; [exact Hkeys'|].
      intros e [q Hq]. exists q. by apply question_key_reload.
    + rewrite <- list_fmap_compose.
      erewrite (list_fmap_ext _ (normalized_question lower)); [exact Hnd|].
      intros i e Hie. simpl. unfold normalized_question.
      rewrite Forall_forall in Hkeys'.
      destruct (Hkeys' e (list_elem_of_lookup_2 _ _ _ Hie)) as [q Hq].
      by rewrite (question_key_reload _ _ Hq), Hq.
Qed.

End Merged.

(** The merge of the two corpora of the scenario. *)
Lemma merged_corpus_has_no_duplicates_witness :
  find_duplicates Scenarios.lower_ascii_only
    [(Scenarios.merged_csv,
      [ fieldnames; Scenarios.qa_row "How do I log in?" "1";
        Scenarios.qa_row "How do I reset my password?" "2";
        Scenarios.qa_row "Where are the logs?" "3";
        Scenarios.qa_row "Who do I call?" "5" ])]
  = Ok [].
Proof.
  apply (merged_corpus_has_no_duplicates Scenarios.lower_ascii_only
           [Scenarios.a_csv; Scenarios.b_csv] Scenarios.merged_csv
           Scenarios.merge_dir
           (Scenarios.merge_dir ++
              [(Scenarios.merged_csv,
                [ fieldnames; Scenarios.qa_row "How do I log in?" "1";
                  Scenarios.qa_row "How do I reset my password?" "2";
                  Scenarios.qa_row "Where are the logs?" "3";
                  Scenarios.qa_row "Who do I call?" "5" ])])).
  - vm_compute. reflexivity.
  - vm_compute. reflexivity.
Defined.

End GroupsProofs.

(** ** Trimming of texts put together *)

Module TrimFacts.
Import Labels.

Lemma lstrip_blank ws t : blank ws → lstrip (ws ++ t) = lstrip t.
Proof.
  induction 1 as [|c ws Hc Hws IH]; [done|]. simpl. by rewrite Hc.
Qed.

Lemma lstrip_app t y :
  lstrip (t ++ y) = match lstrip t with [] => lstrip y | _ => lstrip t ++ y end.
Proof.
  induction t as [|c t IH]; simpl; [done|].
  destruct (isspace c); [done|done].
Qed.

Lemma blank_reverse ws : blank ws → blank (reverse ws).
Proof.
  unfold blank. rewrite !Forall_forall. intros H c Hc.
  apply H. by apply elem_of_reverse.
Qed.

Lemma lstrip_all_blank ws : blank ws → lstrip ws = [].
Proof. induction 1 as [|c ws Hc Hws IH]; [done|]. simpl. by rewrite Hc. Qed.

Lemma rstrip_blank t ws : blank ws → rstrip (t ++ ws) = rstrip t.
Proof.
  intros Hws. unfold rstrip. rewrite reverse_app.
  by rewrite lstrip_blank by (by apply blank_reverse).
Qed.

Lemma strip_blank_l ws t : blank ws → strip (ws ++ t) = strip t.
Proof. intros Hws. unfold strip. by rewrite lstrip_blank. Qed.

Lemma strip_blank_r t ws : blank ws → strip (t ++ ws) = strip t.
Proof.
  intros Hws. unfold strip. rewrite lstrip_app.
  destruct (lstrip t) as [|c t'] eqn:Ht.
  - by rewrite lstrip_all_blank.
  - by rewrite rstrip_blank.
Qed.

Lemma strip_lstrip t : strip (lstrip t) = strip t.
Proof.
  unfold strip. by rewrite (TextFacts.lstrip_id (lstrip t))
    by apply TextFacts.lstrip_first.
Qed.

End TrimFacts.

(** ** The sections that the extractor finds *)

Module SectionProofs.
Import Extractor Labels.

(** *** Literals *)

Lemma ichar_colon c : ichar 58 c = true → ascii_lower c = 58.
Proof.
  unfold ichar. cbv zeta. set (k := ascii_lower 58).
  vm_compute in k. subst k.
  destruct (ascii_lower c =? 58) eqn:E; [by apply N.eqb_eq in E|].
  by vm_compute.
Qed.

Lemma ichar_ci a c : ascii_lower c = ascii_lower a → ichar a c = true.
Proof. intros H. unfold ichar. by rewrite H, N.eqb_refl. Qed.

(** A spelling of the label in any letter case matches. *)
Lemma lit_match_ci p l t :
  map ascii_lower l = map ascii_lower p → lit_match p (l ++ t) = Some t.
Proof.
  revert l. induction p as [|a p IH]; intros [|c l]; simpl; try done.
  intros [= Hc Hl]. rewrite ichar_ci by done. by apply IH.
Qed.

(** A shorter end of the label does not match where the label stands:
    its colon would meet a letter. *)
Lemma lit_match_short u l1 t :
  (length u < length l1)%nat → 58 ∉ map ascii_lower l1 →
  lit_match (u ++ [58]) (l1 ++ t) = None.
Proof.
  revert l1. induction u as [|a u IH]; intros [|c l1]; simpl; try lia.
  - intros _ Hc. destruct (ichar 58 c) eqn:E; [|done].
    apply ichar_colon in E. exfalso. apply Hc. rewrite E. left.
  - intros Hlen Hc. destruct (ichar a c); [|done].
    apply IH; [lia|]. intros Hin. apply Hc. by right.
Qed.

(** The ends of a text fail to match: so does the text with something
    after it on which no end of the label matches. *)
Lemma lit_match_app_none p x rest :
  (∀ pre q, p = pre ++ q → q ≠ [] → lit_match q rest = None) →
  lit_match p x = None → lit_match p (x ++ rest) = None.
Proof.
  revert p. induction x as [|c x IH]; intros p Hends.
  - destruct p as [|a p]; [done|]. intros _. simpl.
    by apply (Hends [] (a :: p)).
  - destruct p as [|a p]; [done|]. simpl.
    destruct (ichar a c); [|done].
    apply IH. intros pre q -> Hq. by apply (Hends (a :: pre) q).
Qed.

(** Before the label nothing matches, when nothing did in the text
    before it: an occurrence cannot reach into the label. *)
Lemma lit_match_no_overlap w l x t :
  58 ∉ map ascii_lower w →
  map ascii_lower l = map ascii_lower (w ++ [58]) →
  x ≠ [] →
  lit_match (w ++ [58]) x = None →
  lit_match (w ++ [58]) (x ++ l ++ t) = None.
Proof.
  intros Hw Hl Hx.
  destruct x as [|c x]; [done|]. clear Hx.
  assert (∃ l1 z, l = l1 ++ [z] ∧ length l1 = length w
                  ∧ 58 ∉ map ascii_lower l1) as (l1 & z & -> & Hlen & Hl1).
  { destruct l as [|z l _] using rev_ind.
    - by destruct w.
    - exists l, z. rewrite !map_app in Hl. simpl in Hl.
      apply app_inj_tail in Hl as [Hl _].
      split; [done|]. split; [|by rewrite Hl].
      apply (f_equal length) in Hl. by rewrite !length_map in Hl. }
  destruct w as [|a w].
  - simpl. destruct (ichar 58 c); [|done]. by destruct x.
  - simpl. destruct (ichar a c); [|done].
    apply lit_match_app_none.
    intros pre q Hq Hne.
    destruct q as [|y q _] using rev_ind; [done|].
    rewrite app_assoc in Hq. apply app_inj_tail in Hq as [Hq <-].
    rewrite <- app_assoc.
    apply lit_match_short; [|done].
    rewrite Hlen. apply (f_equal length) in Hq.
    rewrite length_app in Hq. simpl. lia.
Qed.

(** *** Search *)

(** The search passes over a text in which the label does not occur. *)
Lemma re_search_skip w r l a t :
  58 ∉ map ascii_lower w →
  map ascii_lower l = map ascii_lower (w ++ [58]) →
  mentions (w ++ [58]) a = false →
  re_search (Seq (Lit (w ++ [58])) r) (a ++ l ++ t)
  = re_search (Seq (Lit (w ++ [58])) r) (l ++ t).
Proof.
  intros Hw Hl. induction a as [|c a IH]; [done|].
  intros Hm.
  assert (lit_match (w ++ [58]) (c :: a) = None ∧ mentions (w ++ [58]) a = false)
    as [Hc Ha].
  { revert Hm. cbn [mentions].
    destruct (lit_match (w ++ [58]) (c :: a)); [done|]. by intros ->. }
  change ((c :: a) ++ l ++ t) with (c :: (a ++ l ++ t)).
  cbn [re_search re_match].
  change (c :: (a ++ l ++ t)) with ((c :: a) ++ l ++ t).
  rewrite (lit_match_no_overlap w l (c :: a) t Hw Hl) by done.
  by apply IH.
Qed.

(** *** Repetition *)

(** A greedy repetition first hands over the text after the longest run. *)
Lemma star_greedy_max {R} k x rest (cont : text → option R) r :
  Forall (λ c, cls_match k c = true) x →
  match rest with [] => True | c :: _ => cls_match k c = false end →
  cont rest = Some r →
  star_match true k (x ++ rest) cont = Some r.
Proof.
  intros Hx Hrest Hcont. induction Hx as [|c x Hc Hx IH]; simpl.
  - destruct rest as [|c rest]; simpl; [done|]. by rewrite Hrest.
  - by rewrite Hc, IH.
Qed.

Lemma star_greedy_space {R} s (cont : text → option R) r :
  cont (lstrip s) = Some r → star_match true CSpace s cont = Some r.
Proof.
  induction s as [|c s IH]; simpl; [done|].
  destruct (isspace c) eqn:Hc.
  - intros H. by rewrite IH.
  - done.
Qed.

(** A lazy repetition of any character stops at the first place where
    what follows is accepted. *)
Lemma star_lazy_first {R} x rest (ok : text → bool) (F : text → R) :
  (∀ x1 x2, x = x1 ++ x2 → x2 ≠ [] → ok (x2 ++ rest) = false) →
  ok rest = true →
  star_match false CAny (x ++ rest) (λ s, if ok s then Some (F s) else None)
  = Some (F rest).
Proof.
  intros Hx Hrest. induction x as [|c x IH].
  - simpl. destruct rest; simpl; by rewrite Hrest.
  - change ((c :: x) ++ rest) with (c :: (x ++ rest)). cbn [star_match].
    change (c :: (x ++ rest)) with ((c :: x) ++ rest).
    rewrite (Hx [] (c :: x)) by done. simpl.
    apply IH. intros x1 x2 -> Hne. by apply (Hx (c :: x1) x2).
Qed.

(** Whatever a repetition hands over is the text after a run of the class. *)
Lemma star_match_inv {R} greedy k s (cont : text → option R) r :
  star_match greedy k s cont = Some r →
  ∃ x rest, s = x ++ rest ∧ Forall (λ c, cls_match k c = true) x
            ∧ cont rest = Some r.
Proof.
  revert r. induction s as [|c s IH]; intros r; simpl.
  - destruct greedy; intros H.
    + exists [], []. done.
    + exists [], []. by destruct (cont []).
  - assert (∀ r, (if cls_match k c then star_match greedy k s cont else None)
                 = Some r →
                 ∃ x rest, c :: s = x ++ rest
                   ∧ Forall (λ c, cls_match k c = true) x
                   ∧ cont rest = Some r) as Hmore.
    { intros r'. destruct (cls_match k c) eqn:Hc; [|done].
      intros (x & rest & -> & Hx & Hr)%IH.
      exists (c :: x), rest. split; [done|]. split; [by constructor|done]. }
    destruct greedy.
    + destruct (if cls_match k c then star_match true k s cont else None)
        as [r'|] eqn:E.
      * intros [= <-]. by apply Hmore.
      * intros H. by exists [], (c :: s).
    + destruct (cont (c :: s)) as [r'|] eqn:E.
      * intros [= <-]. by exists [], (c :: s).
      * apply Hmore.
Qed.

Lemma re_search_inv r s g :
  re_search r s = Some g →
  ∃ a s', s = a ++ s' ∧ re_match r s' [] (λ _ g, Some g) = Some g.
Proof.
  induction s as [|c s IH]; simpl.
  - destruct (re_match r [] [] _) eqn:E; [|done].
    intros [= <-]. by exists [], [].
  - destruct (re_match r (c :: s) [] _) eqn:E.
    + intros [= <-]. by exists [], (c :: s).
    + intros (a & s' & -> & H)%IH. by exists (c :: a), s'.
Qed.

Lemma take_app_minus (x rest : text) :
  take (length (x ++ rest) - length rest) (x ++ rest) = x.
Proof.
  rewrite length_app. replace (length x + length rest - length rest)%nat
    with (length x) by lia.
  by rewrite take_app_length.
Qed.


Lemma re_search_here r s g :
  re_match r s [] (λ _ g, Some g) = Some g → re_search r s = Some g.
Proof. intros H. destruct s; simpl; by rewrite H. Qed.

Lemma star_match_ext {R} greedy k s (cont cont' : text → option R) :
  (∀ s, cont s = cont' s) →
  star_match greedy k s cont = star_match greedy k s cont'.
Proof.
  intros Hext. induction s as [|c s IH]; simpl.
  - by rewrite Hext.
  - by rewrite IH, Hext.
Qed.

Lemma mentions_none p s : mentions p s = false → lit_match p s = None.
Proof. destruct s; simpl; by destruct (lit_match p _). Qed.

Lemma mentions_suffix p a s : mentions p (a ++ s) = false → mentions p s = false.
Proof.
  induction a as [|c a IH]; [done|].
  change ((c :: a) ++ s) with (c :: (a ++ s)). cbn [mentions].
  destruct (lit_match p (c :: (a ++ s))); [done|]. apply IH.
Qed.

Lemma mentions_prefix_none p x1 x2 :
  mentions p (x1 ++ x2) = false → lit_match p x2 = None.
Proof. intros H. by apply mentions_none, (mentions_suffix p x1). Qed.

Lemma at_eos_inv s : at_eos s = true → s = [] ∨ s = [10].
Proof.
  destruct s as [|c [|c2 s]]; [by left| |].
  - intros H. right. f_equal. revert H. simpl. repeat case_match; done.
  - simpl. repeat case_match; done.
Qed.

Lemma at_eos_long c1 c2 s : at_eos (c1 :: c2 :: s) = false.
Proof.
  destruct (at_eos (c1 :: c2 :: s)) eqn:E; [|done].
  by apply at_eos_inv in E as [?|?].
Qed.

(** The end of the text, or the line feed that ends it, is somewhere. *)
Lemma eos_split s :
  ∃ x e, s = x ++ e ∧ at_eos e = true ∧ blank e
         ∧ ∀ x1 x2, x = x1 ++ x2 → x2 ≠ [] → at_eos (x2 ++ e) = false.
Proof.
  induction s as [|c s (x & e & -> & He & Hb & Hx)].
  - exists [], []. split; [done|]. split; [done|]. split; [constructor|].
    intros x1 x2 H. by destruct x1, x2.
  - destruct (at_eos (c :: x ++ e)) eqn:Hc.
    + exists [], (c :: x ++ e). split; [done|]. split; [done|]. split.
      * apply at_eos_inv in Hc as [Hc|Hc]; [done|]. rewrite Hc.
        by repeat constructor.
      * intros x1 x2 H. by destruct x1, x2.
    + exists (c :: x), e. split; [done|]. split; [done|]. split; [done|].
      intros [|c1 x1] x2.
      * simpl. by intros <-.
      * intros [= -> ->] Hne. by apply (Hx x1 x2).
Qed.

(** A letter is no white space. *)
Lemma label_first_no_space (l : text) c (w : text) :
  map ascii_lower l = c :: w → (97 <=? c) && (c <=? 122) = true →
  ∀ t, lstrip (l ++ t) = l ++ t.
Proof.
  destruct l as [|c0 l]; [done|]. intros [= Hc _] Hrange t. simpl.
  assert (isspace c0 = false) as ->; [|done].
  unfold ascii_lower in Hc. unfold isspace.
  apply andb_true_iff in Hrange as [H1%N.leb_le H2%N.leb_le].
  destruct ((65 <=? c0) && (c0 <=? 90)) eqn:E.
  - apply andb_true_iff in E as [E1%N.leb_le E2%N.leb_le].
    repeat (apply orb_false_iff; split);
      first [apply andb_false_iff; left; apply N.leb_gt; lia
            |apply andb_false_iff; right; apply N.leb_gt; lia
            |apply N.eqb_neq; lia].
  - subst c0.
    repeat (apply orb_false_iff; split);
      first [apply andb_false_iff; left; apply N.leb_gt; lia
            |apply andb_false_iff; right; apply N.leb_gt; lia
            |apply N.eqb_neq; lia].
Qed.

(** *** Resolution *)

Lemma resolution_at_label l b :
  map ascii_lower l = cps "resolution:" →
  ∃ g, re_match resolution_re (l ++ b) [] (λ _ g, Some g) = Some g
       ∧ strip g = strip b.
Proof.
  intros Hl. destruct (eos_split (lstrip b)) as (x & e & Hs & He & Hb & Hx).
  exists x. split.
  - unfold resolution_re. cbn [re_match]. rewrite lit_match_ci by done.
    apply star_greedy_space. rewrite Hs.
    rewrite (star_lazy_first x e at_eos
               (λ s, take (length (x ++ e) - length s) (x ++ e)) Hx He).
    by rewrite take_app_minus.
  - by rewrite <- (TrimFacts.strip_lstrip b), Hs, TrimFacts.strip_blank_r.
Qed.

(** X5.  When the text before the first [Resolution:] label holds no
    such label, in any letter case, the resolution is all that follows
    the label up to the end of the content, trimmed. *)
Theorem resolution_reaches_end (a l b : text) :
  mentions (cps "Resolution:") a = false →
  map ascii_lower l = cps "resolution:" →
  resolution (extract_structured_content (a ++ l ++ b)) = strip b.
Proof.
  intros Ha Hl. simpl. unfold section_of, resolution_re.
  change (cps "Resolution:") with (cps "Resolution" ++ [58]) in Ha |- *.
  rewrite re_search_skip;
    [|by apply (bool_decide_unpack _); vm_compute|done|done].
  destruct (resolution_at_label l b Hl) as (g & Hg & Hstrip).
  by erewrite re_search_here; [|exact Hg].
Qed.


(** A section of the first scenario's kind, the label in capitals. *)
Lemma resolution_reaches_end_witness :
  resolution (extract_structured_content
                (cps "Problem: Z" ++ [10] ++ cps "RESOLUTION:"
                 ++ cps " W" ++ [10] ++ cps "more" ++ [10]))
  = cps "W" ++ [10] ++ cps "more".
Proof.
  change (cps "W" ++ [10] ++ cps "more")
    with (strip (cps " W" ++ [10] ++ cps "more" ++ [10])).
  apply (resolution_reaches_end (cps "Problem: Z" ++ [10]) (cps "RESOLUTION:")).
  - vm_compute. reflexivity.
  - vm_compute. reflexivity.
Defined.

(** *** Problem *)

(** What the look-ahead [(?=Resolution:|$)] accepts. *)
Lemma lookahead_resolution s g :
  re_match (Lookahead (Alt (Lit (cps "Resolution:")) Eos)) s g (λ _ g, Some g)
  = if match lit_match (cps "Resolution:") s with
       | Some _ => true
       | None => at_eos s
       end
    then Some g else None.
Proof.
  cbn [re_match]. destruct (lit_match (cps "Resolution:") s); [done|].
  by destruct (at_eos s).
Qed.

Lemma problem_at_label l s x rest :
  map ascii_lower l = cps "problem:" →
  lstrip s = x ++ rest →
  (∀ x1 x2, x = x1 ++ x2 → x2 ≠ [] →
            lit_match (cps "Resolution:") (x2 ++ rest) = None
            ∧ at_eos (x2 ++ rest) = false) →
  match lit_match (cps "Resolution:") rest with
  | Some _ => true
  | None => at_eos rest
  end = true →
  re_match problem_re (l ++ s) [] (λ _ g, Some g) = Some x.
Proof.
  intros Hl Hs Hx Hrest.
  unfold problem_re. cbn [re_match]. rewrite lit_match_ci by done.
  apply star_greedy_space. rewrite Hs.
  erewrite star_match_ext.
  2:{ intros s'.
      apply (lookahead_resolution s' (take (length (x ++ rest) - length s')
                                           (x ++ rest))). }
  rewrite (star_lazy_first x rest
             (λ s, match lit_match (cps "Resolution:") s with
                   | Some _ => true
                   | None => at_eos s
                   end)
             (λ s, take (length (x ++ rest) - length s) (x ++ rest))).
  - by rewrite take_app_minus.
  - intros x1 x2 H1 H2. by destruct (Hx x1 x2 H1 H2) as [-> ->].
  - done.
Qed.

(** X6.  When the text before the first [Problem:] label holds no such
    label, the problem is what stands between that label and the next
    [Resolution:] label, trimmed; without such a label after it, it is
    all that follows up to the end of the content, trimmed. *)
Theorem problem_stops_at_resolution (a l : text) :
  mentions (cps "Problem:") a = false →
  map ascii_lower l = cps "problem:" →
  (∀ p l' c,
     mentions (cps "Resolution:") p = false →
     map ascii_lower l' = cps "resolution:" →
     problem (extract_structured_content (a ++ l ++ p ++ l' ++ c)) = strip p)
  ∧ (∀ b,
       mentions (cps "Resolution:") b = false →
       problem (extract_structured_content (a ++ l ++ b)) = strip b).
Proof.
  intros Ha Hl.
  assert (∀ s x,
            re_match problem_re (l ++ s) [] (λ _ g, Some g) = Some x →
            problem (extract_structured_content (a ++ l ++ s)) = strip x)
    as Hsearch.
  { intros s x Hx. simpl. unfold section_of, problem_re.
    change (cps "Problem:") with (cps "Problem" ++ [58]) in Ha |- *.
    rewrite re_search_skip;
      [|by apply (bool_decide_unpack _); vm_compute|done|done].
    by erewrite re_search_here; [|exact Hx]. }
  split.
  - intros p l' c Hp Hl'.
    rewrite (Hsearch _ (lstrip p)); [apply TrimFacts.strip_lstrip|].
    apply (problem_at_label l _ (lstrip p) (l' ++ c) Hl).
    + rewrite TrimFacts.lstrip_app.
      destruct (lstrip p); [|done].
      by apply (label_first_no_space l' 114 (cps "esolution:")).
    + intros x1 x2 Hx Hne.
      destruct (TextFacts.lstrip_suffix p) as [ws Hws].
      rewrite Hx in Hws. rewrite Hws, app_assoc in Hp.
      apply mentions_prefix_none in Hp. split.
      * change (cps "Resolution:") with (cps "Resolution" ++ [58]) in Hp |- *.
        apply lit_match_no_overlap;
          [by apply (bool_decide_unpack _); vm_compute|done|done|done].
      * destruct x2 as [|c1 x2]; [done|].
        destruct l' as [|c2 l']; [done|].
        destruct x2; apply at_eos_long.
    + by rewrite lit_match_ci.
  - intros b Hb.
    destruct (eos_split (lstrip b)) as (x & e & Hs & He & Hblank & Hx).
    rewrite (Hsearch _ x).
    { by rewrite <- (TrimFacts.strip_lstrip b), Hs, TrimFacts.strip_blank_r. }
    apply (problem_at_label l _ x e Hl Hs).
    + intros x1 x2 H1 H2. split; [|by apply (Hx x1 x2)].
      destruct (TextFacts.lstrip_suffix b) as [ws Hws].
      rewrite Hs, H1 in Hws. rewrite Hws in Hb.
      rewrite <- app_assoc, app_assoc in Hb.
      by apply mentions_prefix_none in Hb.
    + rewrite He. by destruct (lit_match _ e).
Qed.

(** A problem that runs over two lines, and one that ends the content. *)
Lemma problem_stops_at_resolution_witness :
  problem (extract_structured_content
             (cps "Title: X" ++ [10] ++ cps "problem:"
              ++ cps " Z" ++ [10] ++ cps "more " ++ cps "Resolution:" ++ cps " W"))
  = cps "Z" ++ [10] ++ cps "more"
  ∧ problem (extract_structured_content
               (cps "Title: X" ++ [10] ++ cps "problem:" ++ cps " Z" ++ [10]))
    = cps "Z".
Proof.
  destruct (problem_stops_at_resolution (cps "Title: X" ++ [10]) (cps "problem:"))
    as [H1 H2]; [vm_compute; reflexivity|vm_compute; reflexivity|].
  split.
  - change (cps "Z" ++ [10] ++ cps "more")
      with (strip (cps " Z" ++ [10] ++ cps "more ")).
    rewrite <- (H1 (cps " Z" ++ [10] ++ cps "more ") (cps "Resolution:") (cps " W"));
      [|vm_compute; reflexivity|vm_compute; reflexivity].
    by rewrite <- !app_assoc.
  - change (cps "Z") with (strip (cps " Z" ++ [10])).
    rewrite <- (H2 (cps " Z" ++ [10])); [|vm_compute; reflexivity].
    by rewrite <- !app_assoc.
Defined.

(** *** Title *)

(** X7.  When the text before the first [Title:] label holds no such
    label, the title is the rest of the line on which the title text
    starts, trimmed: the white space after the label is passed over,
    line breaks included. *)
Theorem title_is_rest_of_line (a l ws t rest : text) :
  mentions (cps "Title:") a = false →
  map ascii_lower l = cps "title:" →
  blank ws → t ≠ [] → no_space_first t →
  Forall (λ c, c ≠ 10 ∧ c ≠ 13) t → at_line_end rest →
  title (extract_structured_content (a ++ l ++ ws ++ t ++ rest)) = strip t.
Proof.
  intros Ha Hl Hws Hne Hfirst Ht Hrest. simpl. unfold section_of, title_re.
  change (cps "Title:") with (cps "Title" ++ [58]) in Ha |- *.
  rewrite re_search_skip;
    [|by apply (bool_decide_unpack _); vm_compute|done|done].
  erewrite re_search_here; [done|].
  cbn [re_match]. rewrite lit_match_ci by done.
  destruct t as [|c t]; [done|]. simpl in Hfirst.
  apply Forall_cons in Ht as [[Hc1 Hc2] Ht].
  apply star_greedy_max; [done|by simpl|].
  change ((c :: t) ++ rest) with (c :: (t ++ rest)). cbv beta iota.
  assert (cls_match CNotNewline c = true) as ->.
  { simpl. apply negb_true_iff, orb_false_iff. by rewrite !N.eqb_neq. }
  apply star_greedy_max.
  - eapply Forall_impl; [exact Ht|]. intros x [H1 H2]. simpl.
    apply negb_true_iff, orb_false_iff. by rewrite !N.eqb_neq.
  - destruct rest as [|c' rest]; [done|]. simpl in *.
    apply negb_false_iff, orb_true_iff. rewrite !N.eqb_eq. tauto.
  - change (c :: (t ++ rest)) with ((c :: t) ++ rest).
    by rewrite take_app_minus.
Qed.

(** A title on the line after its label. *)
Lemma title_is_rest_of_line_witness :
  title (extract_structured_content
           (cps "Doc" ++ [10] ++ cps "TITLE:" ++ [32; 10; 32]
            ++ cps "Agent setup  " ++ [13; 10] ++ cps "Description: Y"))
  = cps "Agent setup".
Proof.
  change (cps "Agent setup") with (strip (cps "Agent setup  ")).
  apply (title_is_rest_of_line (cps "Doc" ++ [10]) (cps "TITLE:") [32; 10; 32]
           (cps "Agent setup  ") ([13; 10] ++ cps "Description: Y")).
  - vm_compute. reflexivity.
  - vm_compute. reflexivity.
  - by repeat constructor.
  - done.
  - vm_compute. reflexivity.
  - repeat constructor; done.
  - simpl. by right.
Defined.

(** *** One line *)

Lemma not_newline_run x :
  Forall (λ c, cls_match CNotNewline c = true) x → (10 ∉ x) ∧ (13 ∉ x).
Proof.
  intros H. rewrite Forall_forall in H.
  split; intros Hin; apply H in Hin; done.
Qed.

Lemma title_capture s g :
  re_search title_re s = Some g →
  Forall (λ c, cls_match CNotNewline c = true) g.
Proof.
  intros (a & s' & _ & H)%re_search_inv. revert H.
  unfold title_re. cbn [re_match].
  destruct (lit_match (cps "Title:") s') as [s1|]; [|done].
  intros (ws & s2 & -> & _ & H)%star_match_inv. revert H.
  destruct s2 as [|c s2]; [done|].
  destruct (cls_match CNotNewline c) eqn:Hc; [|done].
  intros (x & rest & -> & Hx & [= <-])%star_match_inv.
  match goal with
  | |- Forall _ ?t =>
      replace t with (c :: x)
        by (symmetry; apply (take_app_minus (c :: x) rest))
  end.
  by constructor.
Qed.

Lemma description_capture s g :
  re_search description_re s = Some g →
  Forall (λ c, cls_match CNotNewline c = true) g.
Proof.
  intros (a & s' & _ & H)%re_search_inv. revert H.
  unfold description_re. cbn [re_match].
  destruct (lit_match (cps "Description:") s') as [s1|]; [|done].
  intros (ws & s2 & -> & _ & H)%star_match_inv.
  apply star_match_inv in H as (x & rest & -> & Hx & H).
  rewrite !take_app_minus in H.
  destruct (lit_match (cps "Problem:") rest); [by injection H as <-|].
  destruct (at_eos rest); [by injection H as <-|done].
Qed.

(** X8.  Whatever the content, the title and the description that are
    extracted hold no line feed and no carriage return: neither reaches
    over the end of a line. *)
Theorem title_and_description_on_one_line (content : text) :
  (10 ∉ title (extract_structured_content content))
  ∧ (13 ∉ title (extract_structured_content content))
  ∧ (10 ∉ description (extract_structured_content content))
  ∧ (13 ∉ description (extract_structured_content content)).
Proof.
  simpl. unfold section_of.
  assert (∀ g, Forall (λ c, cls_match CNotNewline c = true) g →
               (10 ∉ strip g) ∧ (13 ∉ strip g)) as Hstrip.
  { intros g [H1 H2]%not_newline_run.
    split; intros Hin%TextFacts.elem_of_strip; done. }
  destruct (re_search title_re content) as [g|] eqn:Ht;
    destruct (re_search description_re content) as [g'|] eqn:Hd.
  - destruct (Hstrip g (title_capture _ _ Ht)).
    destruct (Hstrip g' (description_capture _ _ Hd)). done.
  - destruct (Hstrip g (title_capture _ _ Ht)).
    repeat split; try done; by intros ?%elem_of_nil.
  - destruct (Hstrip g' (description_capture _ _ Hd)).
    repeat split; try done; by intros ?%elem_of_nil.
  - repeat split; by intros ?%elem_of_nil.
Qed.

End SectionProofs.

(** ** The synthesis of questions and answers *)

Module SynthesizerProofs.
Import Extractor Manager Synthesizer.

(** *** Tags *)

Lemma elem_of_append_missing x tag tags :
  x ∈ append_missing tag tags ↔ x ∈ tags ∨ x = tag.
Proof.
  unfold append_missing. case_bool_decide as Hin.
  - split; [by left|]. by intros [?| ->].
  - rewrite elem_of_app, list_elem_of_singleton. done.
Qed.

Lemma append_missing_nodup tag tags :
  NoDup tags → NoDup (append_missing tag tags).
Proof.
  intros Hnd. unfold append_missing. case_bool_decide as Hin; [done|].
  apply NoDup_app. split; [done|]. split; [|apply NoDup_singleton].
  by intros x Hx ->%list_elem_of_singleton.
Qed.

Lemma vocabulary_good : Forall good_tag tag_mapping.*1.
Proof.
  repeat constructor;
    first [done
          |by apply (bool_decide_unpack _); vm_compute
          |vm_compute; reflexivity].
Qed.

(** The comma-join of tags that need no cleaning needs none. *)
Lemma cleaned_tags_join parts :
  parts ≠ [] → Forall good_tag parts →
  join_with 44 parts ≠ []
  ∧ strip (join_with 44 parts) = join_with 44 parts
  ∧ cleaned_tags (join_with 44 parts) = join_with 44 parts.
Proof.
  intros Hne Hgood. split; [|split].
  - destruct Hgood as [|p ps (Hp & _) _]; [done|].
    destruct ps; [done|]. rewrite TextFacts.join_with_cons. by destruct p.
  - apply TextFacts.strip_id;
      [by apply ManagerProofs.join_first|by apply ManagerProofs.join_last].
  - unfold cleaned_tags. rewrite TextFacts.split_on_join; [|done|].
    + f_equal. clear Hne.
      induction Hgood as [|p ps (Hp & _ & H1 & H2) _ IH]; [done|].
      simpl. rewrite (TextFacts.strip_id p H1 H2), filter_cons_True by done.
      by rewrite IH.
    + eapply Forall_impl; [exact Hgood|]. by intros p (_ & ? & _).
Qed.

Section Tags.

Variable lower : text → text.

(** The tags of [generate_tags]: how many, which, and when the base tags
    are among them. *)
Lemma generate_tags_facts (title description problem resolution : text) :
  (1 ≤ length (generate_tags lower title description problem resolution) ≤ 5)%nat
  ∧ NoDup (generate_tags lower title description problem resolution)
  ∧ Forall (λ t, t ∈ tag_mapping.*1)
           (generate_tags lower title description problem resolution)
  ∧ ((length (generate_tags lower title description problem resolution) < 5)%nat →
     cps "datadog" ∈ generate_tags lower title description problem resolution
     ∧ cps "mulesoft" ∈ generate_tags lower title description problem resolution).
Proof.
  unfold generate_tags. cbv zeta.
  set (content_text := lower _).
  set (matched := map fst (filter (λ tk : text * list text,
                                     any_keyword tk.2 content_text = true)
                                  tag_mapping)).
  set (full := append_missing (cps "mulesoft")
                 (append_missing (cps "datadog") matched)).
  assert (matched `sublist_of` tag_mapping.*1) as Hsub
    by apply fmap_sublist, sublist_filter.
  assert (NoDup full) as Hnd.
  { do 2 apply append_missing_nodup.
    eapply sublist_NoDup; [|exact Hsub].
    apply (bool_decide_unpack _). vm_compute. reflexivity. }
  assert (Forall (λ t, t ∈ tag_mapping.*1) full) as Hvoc.
  { apply Forall_forall. intros t Ht.
    apply elem_of_append_missing in Ht as [Ht| ->];
      [|by apply (bool_decide_unpack _); vm_compute].
    apply elem_of_append_missing in Ht as [Ht| ->];
      [|by apply (bool_decide_unpack _); vm_compute].
    apply list_elem_of_fmap in Ht as (tk & -> & [_ Htk]%list_elem_of_filter).
    apply list_elem_of_fmap. by exists tk. }
  assert (cps "datadog" ∈ full ∧ cps "mulesoft" ∈ full) as [Hd Hm].
  { split; apply elem_of_append_missing; [left|by right].
    apply elem_of_append_missing. by right. }
  split; [|split; [|split]].
  - rewrite length_take. split; [|lia].
    destruct full; [by apply elem_of_nil in Hd|simpl; lia].
  - eapply sublist_NoDup; [exact Hnd|apply sublist_take].
  - by apply Forall_take.
  - rewrite length_take. intros Hlen.
    rewrite take_ge by lia. done.
Qed.

(** X9.  [generate_tags] returns between one and five tags, without
    repetition, all of them keys of its keyword table; when it returns
    fewer than five, [datadog] and [mulesoft] are among them. *)
Theorem generate_tags_bounded (title description problem resolution : text) :
  (1 ≤ length (generate_tags lower title description problem resolution) ≤ 5)%nat
  ∧ NoDup (generate_tags lower title description problem resolution)
  ∧ Forall (λ t, t ∈ tag_mapping.*1)
           (generate_tags lower title description problem resolution)
  ∧ ((length (generate_tags lower title description problem resolution) < 5)%nat →
     cps "datadog" ∈ generate_tags lower title description problem resolution
     ∧ cps "mulesoft" ∈ generate_tags lower title description problem resolution).
Proof. apply generate_tags_facts. Qed.

End Tags.

(** *** Questions and answers *)

Lemma lstrip_nil_blank t : lstrip t = [] → Labels.blank t.
Proof.
  induction t as [|c t IH]; [constructor|]. simpl.
  destruct (isspace c) eqn:Hc; [|done]. intros H. by constructor; [|apply IH].
Qed.

(** A text that starts with a character that is no white space is not
    blank, whatever follows. *)
Lemma strip_not_blank c t : isspace c = false → strip (c :: t) ≠ [].
Proof.
  intros Hc. unfold strip. simpl. rewrite Hc. unfold rstrip.
  intros H. apply (f_equal reverse) in H. rewrite reverse_involutive in H.
  simpl in H. apply lstrip_nil_blank in H.
  unfold Labels.blank in H. rewrite Forall_forall in H.
  specialize (H c). rewrite Hc in H. discriminate H.
  apply elem_of_reverse. left.
Qed.

Lemma strip_app_not_blank t y : t ≠ [] → no_space_first t → strip (t ++ y) ≠ [].
Proof. destruct t as [|c t]; [done|]. intros _ Hc. by apply strip_not_blank. Qed.

Lemma section_of_trimmed r content :
  no_space_first (section_of r content).
Proof.
  unfold section_of. destruct (re_search r content); [|done].
  apply TextFacts.strip_first.
Qed.

Lemma join_head sep p ps : ∃ y, join sep (p :: ps) = p ++ y.
Proof.
  destruct ps as [|q ps]; [|by eexists].
  exists []. by rewrite app_nil_r.
Qed.

Lemma parts_not_blank sep fallback (parts : list text) :
  strip fallback ≠ [] →
  Forall (λ p, p ≠ [] ∧ no_space_first p) parts →
  strip (match parts with [] => fallback | _ => join sep parts end) ≠ [].
Proof.
  intros Hf [|p ps [Hp1 Hp2] _]; [done|].
  destruct (join_head sep p ps) as [y ->]. by apply strip_app_not_blank.
Qed.

Lemma optional_part (b : bool) (p : text) :
  (b = true → p ≠ [] ∧ no_space_first p) →
  Forall (λ p, p ≠ [] ∧ no_space_first p) (if b then [p] else []).
Proof. destruct b; [|constructor]. intros H. by repeat constructor; apply H. Qed.

Lemma nonempty_part (p : text) :
  no_space_first p → nonempty p = true → p ≠ [] ∧ no_space_first p.
Proof. by destruct p. Qed.

(** X10.  Whatever the content, the question and the answer made of what
    was extracted from it are not blank: a title, a problem, or the
    stock question; the labelled parts, or the stock answer. *)
Theorem synthesized_question_and_answer_not_blank (content : text) :
  strip (create_qa_format (extract_structured_content content)).1 ≠ []
  ∧ strip (create_qa_format (extract_structured_content content)).2 ≠ [].
Proof.
  unfold create_qa_format, extract_structured_content.
  cbv zeta. cbn [fst snd title description problem resolution].
  pose proof (section_of_trimmed title_re content) as Ht.
  pose proof (section_of_trimmed problem_re content) as Hp.
  revert Ht Hp.
  generalize (section_of title_re content) (section_of problem_re content)
    (section_of description_re content) (section_of resolution_re content).
  intros t p d r Ht Hp.
  split; apply parts_not_blank; try (by vm_compute);
    repeat (apply Forall_app; split); apply optional_part.
  - by apply nonempty_part.
  - intros [H _]%andb_true_iff. by apply nonempty_part.
  - intros _. split; by vm_compute.
  - intros _. split; by vm_compute.
  - intros _. split; by vm_compute.
Qed.

(** *** The corpus that is written *)

Section Pipeline.

Variable lower : text → text.
Hypothesis lower_ascii : ∀ t, is_ascii t → lower t = map ascii_lower t.

Lemma determine_priority_cases title problem resolution :
  determine_priority lower title problem resolution
  ∈ [cps "high"; cps "low"; cps "medium"].
Proof.
  unfold determine_priority. cbv zeta.
  destruct (any_keyword high_priority_keywords _); [left|].
  destruct (any_keyword low_priority_keywords _); [right; left|].
  right; right; left.
Qed.

Lemma priority_word_settled p :
  p ∈ [cps "high"; cps "low"; cps "medium"] →
  (13 ∉ p) ∧ strip p ≠ [] ∧ lower (strip p) ∈ valid_priorities.
Proof.
  intros Hp.
  assert (∀ w, is_ascii w → map ascii_lower w ∈ valid_priorities →
               lower w ∈ valid_priorities) as Hlow
    by (intros w Hw; by rewrite lower_ascii).
  repeat (apply elem_of_cons in Hp as [->|Hp]);
    [| | |by apply elem_of_nil in Hp];
    (split; [by apply (bool_decide_unpack _); vm_compute|]);
    (split; [by vm_compute|]);
    (change (strip (cps "high")) with (cps "high");
     change (strip (cps "low")) with (cps "low");
     change (strip (cps "medium")) with (cps "medium"));
    (apply Hlow;
     [apply (bool_decide_unpack _); vm_compute; reflexivity
     |apply (bool_decide_unpack _); vm_compute; reflexivity]).
Qed.

(** The row read back for a row whose last three cells are in order. *)
Lemma settled_row q a c t p :
  strip c ≠ [] →
  strip p ≠ [] → lower (strip p) ∈ valid_priorities →
  cleaned_tags (strip t) = strip t →
  settled lower (dict_of_row fieldnames [q; a; c; t; p]).
Proof.
  intros Hc Hp Hv Ht. split; [|split].
  - exists c. split; [|done]. by vm_compute.
  - exists p. split; [by vm_compute|]. split; [done|by right].
  - unfold tags_settled.
    assert (fields (dict_of_row fieldnames [q; a; c; t; p]) !! k_tags
            = Some (Str t)) as -> by (by vm_compute).
    by right.
Qed.

Lemma five_fields_row q a c t p :
  let e := {| fields :=
                <[k_question := Str q]>
                (<[k_answer := Str a]>
                 (<[k_category := Str c]>
                  (<[k_tags := Str t]> (<[k_priority := Str p]> ∅))));
              overflow := None |} in
  row_of e = [q; a; c; t; p] ∧ only_fieldnames e.
Proof.
  split; [by vm_compute|]. split; [done|].
  apply (bool_decide_unpack _). vm_compute. reflexivity.
Qed.

Lemma processed_row content :
  ∃ q a t p,
    row_of (processed_entry lower content)
    = [q; a; cps "datadog-mulesoft"; t; p]
    ∧ only_fieldnames (processed_entry lower content)
    ∧ (13 ∉ t) ∧ strip t = t ∧ cleaned_tags t = t
    ∧ p ∈ [cps "high"; cps "low"; cps "medium"].
Proof.
  unfold processed_entry. cbv zeta.
  set (s := extract_structured_content content).
  pose proof (generate_tags_facts lower (title s) (description s)
                (problem s) (resolution s)) as ([Hlen _] & _ & Hvoc & _).
  pose proof (determine_priority_cases (title s) (problem s) (resolution s))
    as Hprio.
  set (tags := generate_tags lower _ _ _ _) in *.
  set (p := determine_priority lower _ _ _) in *.
  set (qa := create_qa_format s).
  assert (Forall good_tag tags) as Hgood.
  { pose proof vocabulary_good as Hg. rewrite Forall_forall in Hg, Hvoc.
    apply Forall_forall. intros t Ht. by apply Hg, Hvoc. }
  assert (tags ≠ []) as Hne by (intros Hn; rewrite Hn in Hlen; simpl in Hlen; lia).
  destruct (cleaned_tags_join tags Hne Hgood) as (_ & Hstrip & Hclean).
  exists qa.1, qa.2, (join_with 44 tags), p.
  destruct (five_fields_row qa.1 qa.2 (cps "datadog-mulesoft")
              (join_with 44 tags) p) as [Hrow Honly].
  split; [exact Hrow|]. split; [exact Honly|]. split; [|done].
  intros Hin. apply TextFacts.elem_of_join_with in Hin as [?|(t & Ht & Hin)];
      [done|].
  rewrite Forall_forall in Hvoc. specialize (Hvoc t Ht).
  clear Ht. revert t Hvoc Hin.
  apply (proj1 (Forall_forall (λ t : text, 13 ∉ t) tag_mapping.*1)).
  repeat constructor; by apply (bool_decide_unpack _); vm_compute.
Qed.

Lemma process_rows_inv rows processed_entries :
  process_rows lower rows = Done processed_entries →
  length processed_entries = length rows
  ∧ Forall (λ e, ∃ content, e = processed_entry lower content) processed_entries.
Proof.
  revert processed_entries.
  induction rows as [|row rows IH]; intros processed_entries; simpl.
  - by intros [= <-].
  - destruct (content_of row) as [content|x]; [|done].
    destruct (process_rows lower rows) as [es|x]; [|done].
    intros [= <-]. destruct (IH es eq_refl) as [Hlen Hall].
    split; [by simpl; rewrite Hlen|]. constructor; [by exists content|done].
Qed.

(** A corpus of tidy rows under the canonical header needs no repair,
    also when the reader stops before its end. *)
Lemma tidy_corpus_validates output (rows : file) fix_ :
  Forall Written.tidy_row rows →
  validate_and_fix lower fix_ [(output, fieldnames :: rows)]
  = ([(output, fieldnames :: rows)], Ok true).
Proof.
  intros Hrows.
  unfold validate_and_fix, get_all_entries, load_csv_file. simpl.
  rewrite decide_True by done.
  assert (Forall (settled lower)
            (dict_reader (csv_reader (fieldnames :: rows)).1)) as Hset.
  { eapply StoreProofs.Forall_prefix; [apply StoreProofs.loaded_prefix|].
    rewrite fmap_cons.
    assert (map universal_newlines fieldnames = fieldnames) as ->
      by (vm_compute; reflexivity).
    destruct (StoreProofs.dict_reader_canonical
                (map (map universal_newlines) rows)) as (Heq & _ & _).
    { apply Forall_fmap. eapply Forall_impl; [exact Hrows|].
      by intros r (q & a & c & t & p & -> & _). }
    change (Forall (settled lower)
              (dict_reader (fieldnames :: map (map universal_newlines) rows))).
    rewrite Heq.
    do 2 apply Forall_fmap. eapply Forall_impl; [exact Hrows|].
    intros r (q & a & c & t & p & -> & Hc1 & Hc2 & Ht1 & Ht2 & Ht3 & Hp).
    unfold compose.
    destruct (priority_word_settled p Hp) as (Hp1 & Hp2 & Hp3).
    cbn [map].
    rewrite (StoreProofs.universal_newlines_id c) by done.
    rewrite (StoreProofs.universal_newlines_id t) by done.
    rewrite (StoreProofs.universal_newlines_id p) by done.
    apply settled_row; [done|done|done|by rewrite Ht2]. }
  rewrite filter_cons.
  destruct (decide _) as [Hne|Hempty]; simpl.
  - rewrite ManagerProofs.check_entries_settled by done. simpl.
    by rewrite !andb_false_r.
  - by rewrite andb_false_r.
Qed.

(** X11.  When [process_knowledge_base] ends without an exception, the
    output corpus holds the canonical header and one row for each row
    read from the input, and it needs no repair: [validate_and_fix], with
    or without [fix], returns [True] on it and leaves it as it is. *)
Theorem processed_corpus_validates (input_file output_file : text)
    (d d' : directory) (fix_ : bool) :
  process_knowledge_base lower input_file output_file d = (d', Done tt) →
  ∃ rows,
    lookup_file output_file d' = Some (fieldnames :: rows)
    ∧ length rows = length (load_csv_file input_file d)
    ∧ validate_and_fix lower fix_ [(output_file, fieldnames :: rows)]
      = ([(output_file, fieldnames :: rows)], Ok true).
Proof.
  unfold process_knowledge_base, load_csv_file.
  destruct (lookup_file input_file d) as [f|]; [|done].
  destruct (csv_reader f) as [read raised]. cbn [fst].
  destruct (process_rows lower (dict_reader read)) as [es|x] eqn:Hp; [|done].
  destruct raised; [done|].
  destruct (writerows es [fieldnames]) as [content [u|x]] eqn:Hw; [|done].
  intros [= <-].
  apply ManagerProofs.writerows_ok_inv in Hw as [_ ->].
  apply process_rows_inv in Hp as [Hlen Hall].
  exists (map row_of es). split; [apply StoreProofs.lookup_write_file|].
  split; [by rewrite length_map|].
  apply tidy_corpus_validates. apply Forall_fmap.
  eapply Forall_impl; [exact Hall|]. intros e [content ->]. unfold compose.
  destruct (processed_row content)
    as (q & a & t & p & -> & _ & Ht1 & Ht2 & Ht3 & Hp).
  exists q, a, (cps "datadog-mulesoft"), t, p.
  split; [done|].
  split; [by apply (bool_decide_unpack _); vm_compute|].
  split; [by vm_compute|]. done.
Qed.

End Pipeline.

End SynthesizerProofs.

(** ** The documentation processor *)

Module DocumentationProofs.
Import Classifier Manager Documentation Spacing.

(** *** Substitution *)

Lemma many_isspace s : many isspace s Some = Some (lstrip s).
Proof.
  induction s as [|c s IH]; [done|]. simpl.
  destruct (isspace c); [by rewrite IH|done].
Qed.

Lemma sub_skip r repl ws s :
  sub_from r repl (ws ++ s) (length ws) = sub_from r repl s 0.
Proof. induction ws as [|c ws IH]; [done|]. simpl. exact IH. Qed.

Lemma elem_of_sub_from r repl s skip x :
  x ∈ sub_from r repl s skip → x ∈ s ∨ x ∈ repl.
Proof.
  revert skip. induction s as [|c s IH]; intros skip; cbn [sub_from].
  - destruct (pmatch r [] Some); [by right|]. by intros ?%elem_of_nil.
  - destruct skip as [|n].
    + destruct (pmatch r (c :: s) Some) as [rest|].
      * generalize (length (c :: s) - length rest)%nat. intros [|n].
        -- rewrite elem_of_app, elem_of_cons.
           intros [H|[->|[H|H]%IH]];
             [by right|left; by left|left; by right|by right].
        -- rewrite elem_of_app.
           intros [H|[H|H]%IH]; [by right|left; by right|by right].
      * rewrite elem_of_cons.
        intros [->|[H|H]%IH]; [left; by left|left; by right|by right].
    + intros [H|H]%IH; [left; by right|by right].
Qed.

(** Where no character is of the class with which the pattern starts,
    nothing is replaced. *)
Lemma re_sub_absent p r repl t :
  Forall (λ c, p c = false) t → re_sub (Then (One p) r) repl t = t.
Proof.
  unfold re_sub. induction 1 as [|c t Hc Ht IH]; [done|].
  simpl. rewrite Hc. by rewrite IH.
Qed.

(** What is left once the trade-mark signs are deleted. *)
Lemma elem_of_trademarks_sub x s :
  x ∈ re_sub trademarks_re [] s → trademark x = false ∧ x ∈ s.
Proof.
  unfold re_sub. induction s as [|c s IH]; simpl.
  - by intros ?%elem_of_nil.
  - destruct (trademark c) eqn:Hc.
    + replace (S (length s) - length s)%nat with 1%nat by lia. simpl.
      intros [? ?]%IH. split; [done|by right].
    + intros [->|[? ?]%IH]%elem_of_cons; (split; [done|]); [by left|by right].
Qed.

(** [re.sub(r'\s+', ' ', s)], one run of white space at a time. *)
Lemma spaces_sub_cons c s :
  re_sub spaces_re (cps " ") (c :: s)
  = if isspace c then 32 :: re_sub spaces_re (cps " ") (lstrip s)
    else c :: re_sub spaces_re (cps " ") s.
Proof.
  unfold re_sub. cbn [sub_from spaces_re pmatch].
  destruct (isspace c) eqn:Hc; [|done].
  rewrite many_isspace.
  destruct (TextFacts.lstrip_suffix s) as [ws Hws].
  assert (length (c :: s) - length (lstrip s) = S (length ws))%nat as ->.
  { rewrite Hws at 1. simpl. rewrite length_app. lia. }
  rewrite Hws at 1. by rewrite sub_skip.
Qed.

Lemma spaces_sub_first s :
  no_space_first s → no_space_first (re_sub spaces_re (cps " ") s).
Proof.
  destruct s as [|c s]; [done|]. simpl. intros Hc.
  by rewrite spaces_sub_cons, Hc.
Qed.

Lemma spaces_sub_single_spaced s :
  single_spaced (re_sub spaces_re (cps " ") s) = true.
Proof.
  remember (length s) as n eqn:Hn. revert s Hn.
  induction n as [n IH] using lt_wf_ind. intros [|c s] Hn; [done|].
  rewrite spaces_sub_cons. simpl in Hn.
  destruct (isspace c) eqn:Hc.
  - assert (length (lstrip s) ≤ length s)%nat as Hlen.
    { destruct (TextFacts.lstrip_suffix s) as [ws Hws].
      rewrite Hws at 2. rewrite length_app. lia. }
    pose proof (spaces_sub_first (lstrip s) (TextFacts.lstrip_first s)) as Hfirst.
    cbn [single_spaced]. change (isspace 32) with true. cbv beta iota.
    rewrite (IH (length (lstrip s))); [|lia|done].
    destruct (re_sub spaces_re (cps " ") (lstrip s)) as [|c' t]; [done|].
    simpl in Hfirst. by rewrite Hfirst.
  - cbn [single_spaced]. rewrite Hc. by rewrite (IH (length s)); [|lia|].
Qed.

(** *** Texts one space apart *)

Lemma single_spaced_cons c t :
  single_spaced (c :: t) = true → single_spaced t = true.
Proof. cbn [single_spaced]. by intros [_ ?]%andb_true_iff. Qed.

Lemma single_spaced_app_r a b :
  single_spaced (a ++ b) = true → single_spaced b = true.
Proof.
  induction a as [|c a IH]; [done|]. intros H. by apply IH, (single_spaced_cons c).
Qed.

Lemma single_spaced_app_l a b :
  single_spaced (a ++ b) = true → single_spaced a = true.
Proof.
  induction a as [|c a IH]; [done|].
  change ((c :: a) ++ b) with (c :: (a ++ b)). cbn [single_spaced].
  intros [Hc Hrest]%andb_true_iff. rewrite (IH Hrest), andb_true_r.
  destruct (isspace c); [|done].
  apply andb_true_iff in Hc as [-> Hnext]. by destruct a.
Qed.

Lemma single_spaced_strip t :
  single_spaced t = true → single_spaced (strip t) = true.
Proof.
  intros H. unfold strip.
  destruct (TextFacts.lstrip_suffix t) as [ws Hws].
  destruct (TextFacts.rstrip_prefix (lstrip t)) as [ws' Hws'].
  rewrite Hws in H. apply single_spaced_app_r in H.
  rewrite Hws' in H. by apply single_spaced_app_l in H.
Qed.

Lemma single_spaced_space t x :
  single_spaced t = true → x ∈ t → isspace x = true → x = 32.
Proof.
  induction t as [|c t IH]; [by intros _ ?%elem_of_nil|].
  cbn [single_spaced]. intros [Hc Ht]%andb_true_iff [->|Hin]%elem_of_cons Hx.
  - rewrite Hx in Hc. by apply andb_true_iff in Hc as [?%N.eqb_eq _].
  - by apply IH.
Qed.

(** *** The answer *)

Lemma trademark_free_sub r repl s :
  Forall (λ c, trademark c = false) s →
  Forall (λ c, trademark c = false) repl →
  Forall (λ c, trademark c = false) (re_sub r repl s).
Proof.
  rewrite !Forall_forall. intros Hs Hr x [?|?]%elem_of_sub_from; auto.
Qed.

(** X12.  Whatever the content, the cleaned answer is a single line
    with its words one space apart: every white-space character in it is
    a space that is followed by a character that is none; it has no line
    feed, no white space at either end and no trade-mark sign.  The
    replacement of line feeds and the last substitution find nothing to
    do. *)
Theorem cleaned_answer_is_one_line (content : text) :
  single_spaced (clean_and_format_answer content) = true
  ∧ (10 ∉ clean_and_format_answer content)
  ∧ strip (clean_and_format_answer content) = clean_and_format_answer content
  ∧ Forall (λ c, trademark c = false) (clean_and_format_answer content)
  ∧ clean_and_format_answer content
    = strip (re_sub spaces_re (cps " ")
               (re_sub leading_spaces_re [10]
                  (re_sub empty_lines_re [10; 10]
                     (re_sub trademarks_re [] content)))).
Proof.
  unfold clean_and_format_answer. cbv zeta.
  set (c3 := re_sub leading_spaces_re [10] _).
  pose proof (spaces_sub_single_spaced c3) as Hss.
  set (c4 := re_sub spaces_re (cps " ") c3) in *.
  assert (∀ t, single_spaced t = true → 10 ∉ t) as Hnl.
  { intros t Ht Hin. by pose proof (single_spaced_space t 10 Ht Hin eq_refl). }
  rewrite (NormalizerProofs.str_replace_absent 10 [10; 10] c4) by by apply Hnl.
  pose proof (single_spaced_strip c4 Hss) as Hstrip.
  assert (re_sub line_breaks_re [10; 10] (strip c4) = strip c4) as ->.
  { apply re_sub_absent. apply Forall_forall. intros x Hx.
    unfold line_feed. apply N.eqb_neq. intros ->. by apply (Hnl (strip c4)). }
  split; [done|]. split; [by apply Hnl|]. split; [apply TextFacts.strip_strip|].
  split; [|done].
  apply Forall_forall. intros x Hx%TextFacts.elem_of_strip. revert x Hx.
  apply Forall_forall. unfold c4, c3.
  do 3 (apply trademark_free_sub; [|by repeat constructor]).
  apply Forall_forall. by intros x [? _]%elem_of_trademarks_sub.
Qed.


(** *** The title *)

Section Title.

Variable toupper_full : N → text.

(** X13.  Whatever the content, the title that is extracted is clean: a
    single line with its words one space apart, no white space at either
    end and no trade-mark sign; the topic is one of six words.  Content
    without a line that is not blank gives the stock title and the topic
    [general]. *)
Theorem extracted_title_is_clean (content : text) :
  single_spaced (extract_title_and_topic toupper_full content).1 = true
  ∧ strip (extract_title_and_topic toupper_full content).1
    = (extract_title_and_topic toupper_full content).1
  ∧ Forall (λ c, trademark c = false)
           (extract_title_and_topic toupper_full content).1
  ∧ (extract_title_and_topic toupper_full content).2
    ∈ [cps "datadog"; cps "cloudwatch"; cps "apm"; cps "mulesoft";
       cps "integration"; cps "general"]
  ∧ (Forall (λ line, strip line = []) (split_on 10 content) →
     extract_title_and_topic toupper_full content
     = (cps "Documentation", cps "general")).
Proof.
  unfold extract_title_and_topic. cbv zeta.
  destruct (filter (λ line, line ≠ []) (map strip (split_on 10 content)))
    as [|line lines] eqn:Hlines.
  - split; [by vm_compute|]. split; [by vm_compute|].
    split; [repeat constructor|]. split; [|done].
    apply (bool_decide_unpack _). vm_compute. reflexivity.
  - cbn [fst snd].
    set (t1 := re_sub trademarks_re [] line).
    pose proof (spaces_sub_single_spaced t1) as Hss.
    split; [by apply single_spaced_strip|].
    split; [apply TextFacts.strip_strip|]. split; [|split].
    + apply Forall_forall. intros x Hx%TextFacts.elem_of_strip. revert x Hx.
      apply Forall_forall. apply trademark_free_sub; [|by repeat constructor].
      apply Forall_forall. by intros x [? _]%elem_of_trademarks_sub.
    + repeat (match goal with
              | |- context [if ?b then _ else _] => destruct b
              end);
        apply (bool_decide_unpack _); vm_compute; reflexivity.
    + intros Hblank. exfalso.
      assert (line ∈ filter (λ line, line ≠ []) (map strip (split_on 10 content)))
        as Hin by (rewrite Hlines; left).
      apply list_elem_of_filter in Hin as [Hne (l & -> & Hl)%list_elem_of_fmap].
      rewrite Forall_forall in Hblank. by apply Hne, Hblank.
Qed.

End Title.

(** *** Tags *)

Lemma fromkeys_prefix (tags keys : list text) :
  ∃ more,
    fold_left (λ keys tag, if bool_decide (tag ∈ keys) then keys else keys ++ [tag])
              tags keys
    = keys ++ more.
Proof.
  revert keys. induction tags as [|t tags IH]; intros keys; simpl.
  - exists []. by rewrite app_nil_r.
  - case_bool_decide; [apply IH|].
    destruct (IH (keys ++ [t])) as [more ->]. exists (t :: more).
    by rewrite <- app_assoc.
Qed.

Lemma fromkeys_nodup (tags keys : list text) :
  NoDup keys →
  NoDup (fold_left (λ keys tag, if bool_decide (tag ∈ keys) then keys else keys ++ [tag])
                   tags keys).
Proof.
  revert keys. induction tags as [|t tags IH]; intros keys Hk; simpl; [done|].
  apply IH. case_bool_decide as Hin; [done|].
  apply NoDup_app. split; [done|]. split; [|apply NoDup_singleton].
  by intros x Hx ->%list_elem_of_singleton.
Qed.

Lemma fromkeys_elem (tags keys : list text) x :
  x ∈ fold_left (λ keys tag, if bool_decide (tag ∈ keys) then keys else keys ++ [tag])
                tags keys
  ↔ x ∈ keys ∨ x ∈ tags.
Proof.
  revert keys. induction tags as [|t tags IH]; intros keys; simpl.
  - rewrite elem_of_nil. tauto.
  - rewrite IH, elem_of_cons. case_bool_decide as Hin.
    + split; [tauto|]. intros [?|[->|?]]; tauto.
    + rewrite elem_of_app, list_elem_of_singleton. tauto.
Qed.

Lemma fromkeys_length (tags keys : list text) :
  (length (fold_left (λ keys tag, if bool_decide (tag ∈ keys) then keys else keys ++ [tag])
                     tags keys)
   ≤ length keys + length tags)%nat.
Proof.
  revert keys. induction tags as [|t tags IH]; intros keys; simpl; [lia|].
  case_bool_decide.
  - specialize (IH keys). lia.
  - specialize (IH (keys ++ [t])). rewrite length_app in IH. simpl in IH. lia.
Qed.

(** The keys of the first tags come first. *)
Lemma fromkeys_app a b : ∃ more, fromkeys (a ++ b) = fromkeys a ++ more.
Proof. unfold fromkeys. rewrite fold_left_app. apply fromkeys_prefix. Qed.

(** A tag among the first [n] tags is kept by [take n] of the keys. *)
Lemma take_fromkeys_elem n a b x :
  (length a ≤ n)%nat → x ∈ a → x ∈ take n (fromkeys (a ++ b)).
Proof.
  intros Hlen Hx. destruct (fromkeys_app a b) as [more ->].
  pose proof (fromkeys_length a []) as Hl. simpl in Hl.
  rewrite take_app. apply elem_of_app. left.
  unfold fromkeys. rewrite take_ge by lia. apply fromkeys_elem. by right.
Qed.

Section DocTags.

Variable lower : text → text.

(** X14.  [generate_tags] of the documentation processor returns at most
    six tags without repetition; the three base tags always come first,
    and the content type and the topic are always among the tags. *)
Theorem documentation_tags_keep_base (title content content_type topic : text) :
  (length (generate_tags lower title content content_type topic) ≤ 6)%nat
  ∧ NoDup (generate_tags lower title content content_type topic)
  ∧ take 3 (generate_tags lower title content content_type topic) = base_tags
  ∧ content_type ∈ generate_tags lower title content content_type topic
  ∧ topic ∈ generate_tags lower title content content_type topic.
Proof.
  unfold generate_tags. cbv zeta.
  rewrite <- !app_assoc.
  set (rest := tag_if _ topic ++ _).
  split; [rewrite length_take; lia|]. split; [|split; [|split]].
  - eapply sublist_NoDup; [|apply sublist_take].
    apply fromkeys_nodup. constructor.
  - destruct (fromkeys_app base_tags ([content_type] ++ rest)) as [more ->].
    rewrite take_take. reflexivity.
  - rewrite (app_assoc base_tags [content_type] rest).
    apply take_fromkeys_elem; [simpl; lia|].
    apply elem_of_app. right. left.
  - unfold rest.
    rewrite (app_assoc [content_type]), (app_assoc base_tags).
    apply take_fromkeys_elem.
    { rewrite !length_app. unfold tag_if. simpl.
      destruct (negb _); simpl; lia. }
    unfold tag_if. case_bool_decide as Hin; simpl.
    + exact Hin.
    + do 4 right. left.
Qed.

End DocTags.


(** *** The corpus that is written *)

Section DocPipeline.

Variable toupper_full : N → text.
Variable lower : text → text.
Hypothesis lower_ascii : ∀ t, is_ascii t → lower t = map ascii_lower t.

Lemma content_type_cases content :
  detect_content_type toupper_full content
  ∈ [cps "overview"; cps "configuration"; cps "installation"; cps "connector";
     cps "integration"; cps "monitoring"; cps "dashboard";
     cps "troubleshooting"; cps "architecture"; cps "ootb-assets";
     cps "cost-optimization"; cps "documentation"].
Proof.
  unfold detect_content_type. cbv zeta.
  repeat (match goal with
          | |- context [if ?b then _ else _] => destruct b
          end);
    apply (bool_decide_unpack _); vm_compute; reflexivity.
Qed.

Lemma topic_cases content :
  (extract_title_and_topic toupper_full content).2
  ∈ [cps "datadog"; cps "cloudwatch"; cps "apm"; cps "mulesoft";
     cps "integration"; cps "general"].
Proof.
  unfold extract_title_and_topic. cbv zeta.
  destruct (filter _ _) as [|line lines]; cbn [snd].
  - apply (bool_decide_unpack _). vm_compute. reflexivity.
  - repeat (match goal with
            | |- context [if ?b then _ else _] => destruct b
            end);
      apply (bool_decide_unpack _); vm_compute; reflexivity.
Qed.

Lemma doc_priority_cases content_type content :
  determine_priority lower content_type content
  ∈ [cps "high"; cps "low"; cps "medium"].
Proof.
  unfold determine_priority. cbv zeta.
  repeat (match goal with
          | |- context [if ?b then _ else _] => destruct b
          end);
    apply (bool_decide_unpack _); vm_compute; reflexivity.
Qed.

Lemma elem_of_tag_if b tag x : x ∈ tag_if b tag → x = tag.
Proof.
  unfold tag_if. destruct b; [by intros ?%list_elem_of_singleton|].
  by intros ?%elem_of_nil.
Qed.

(** The words that can be tags of the documentation processor. *)
Lemma doc_tags_vocabulary title content content_type topic x :
  x ∈ generate_tags lower title content content_type topic →
  x = content_type ∨ x = topic
  ∨ x ∈ [cps "datadog"; cps "mulesoft"; cps "documentation"; cps "cloudwatch";
         cps "apm"; cps "connector"; cps "dashboard"; cps "monitoring";
         cps "installation"; cps "configuration"; cps "troubleshooting";
         cps "architecture"; cps "cost-optimization"; cps "ootb"].
Proof.
  unfold generate_tags. cbv zeta. intros Hx.
  apply (subseteq_take 6) in Hx. apply fromkeys_elem in Hx as [Hx|Hx];
    [by apply elem_of_nil in Hx|].
  rewrite !elem_of_app in Hx.
  repeat match type of Hx with _ ∨ _ => destruct Hx as [Hx|Hx] end.
  all: try (apply elem_of_tag_if in Hx; subst x).
  all: try (apply list_elem_of_singleton in Hx; subst x).
  all: first [by left
             |by (right; left)
             |by (right; right; apply (bool_decide_unpack _); vm_compute)
             |idtac].
  right. right. revert x Hx. apply Forall_forall.
  repeat constructor; apply (bool_decide_unpack _); vm_compute; reflexivity.
Qed.

Lemma doc_tags_not_nil title content content_type topic :
  generate_tags lower title content content_type topic ≠ [].
Proof.
  unfold generate_tags. cbv zeta. rewrite <- !app_assoc.
  destruct (fromkeys_app base_tags
              ([content_type] ++ tag_if (negb (bool_decide
                 (topic ∈ base_tags ++ [content_type]))) topic
               ++ tag_if (contains (cps "cloudwatch") (lower content)
                          || contains (cps "cloudwatch") (lower title))
                         (cps "cloudwatch")
               ++ tag_if (contains (cps "apm") (lower content)
                          || contains (cps "apm") (lower title)) (cps "apm")
               ++ tag_if (contains (cps "connector") (lower content)
                          || contains (cps "connector") (lower title))
                         (cps "connector")
               ++ tag_if (contains (cps "dashboard") (lower content)
                          || contains (cps "dashboard") (lower title))
                         (cps "dashboard")
               ++ tag_if (contains (cps "monitor") (lower content)
                          || contains (cps "monitor") (lower title))
                         (cps "monitoring")
               ++ tag_if (contains (cps "installation") (lower content)
                          || contains (cps "installation") (lower title))
                         (cps "installation")
               ++ tag_if (contains (cps "configuration") (lower content)
                          || contains (cps "configuration") (lower title))
                         (cps "configuration")
               ++ tag_if (contains (cps "troubleshoot") (lower content)
                          || contains (cps "troubleshoot") (lower title))
                         (cps "troubleshooting")
               ++ tag_if (contains (cps "architecture") (lower content)
                          || contains (cps "architecture") (lower title))
                         (cps "architecture")
               ++ tag_if (contains (cps "cost") (lower content)
                          || contains (cps "cost") (lower title))
                         (cps "cost-optimization")
               ++ tag_if (contains (cps "ootb") (lower content)
                          || contains (cps "out of the box") (lower content))
                         (cps "ootb"))) as [more Hmore].
  rewrite Hmore. done.
Qed.

Lemma doc_vocabulary_good :
  Forall (λ t, good_tag t ∧ 13 ∉ t)
    [cps "overview"; cps "configuration"; cps "installation"; cps "connector";
     cps "integration"; cps "monitoring"; cps "dashboard";
     cps "troubleshooting"; cps "architecture"; cps "ootb-assets";
     cps "cost-optimization"; cps "documentation";
     cps "datadog"; cps "cloudwatch"; cps "apm"; cps "mulesoft"; cps "general";
     cps "ootb"].
Proof.
  repeat constructor;
    first [done
          |by apply (bool_decide_unpack _); vm_compute
          |vm_compute; reflexivity].
Qed.

Lemma doc_processed_row content :
  Written.tidy_row (row_of (processed_entry toupper_full lower content))
  ∧ only_fieldnames (processed_entry toupper_full lower content).
Proof.
  unfold processed_entry. cbv zeta.
  set (tt := extract_title_and_topic toupper_full content).
  set (ct := detect_content_type toupper_full content).
  set (tags := generate_tags lower tt.1 content ct tt.2).
  set (p := determine_priority lower ct content).
  set (q := generate_question_from_content toupper_full tt.1 content ct).
  set (a := clean_and_format_answer content).
  destruct (SynthesizerProofs.five_fields_row q a category (join_with 44 tags) p)
    as [Hrow Honly].
  split; [|exact Honly].
  assert (Forall (λ t, good_tag t ∧ 13 ∉ t) tags) as Hgood.
  { apply Forall_forall. intros x Hx.
    pose proof doc_vocabulary_good as Hv. rewrite Forall_forall in Hv.
    apply Hv. clear Hv.
    apply doc_tags_vocabulary in Hx as [->|[->|Hx]].
    - pose proof (content_type_cases content) as Hc. fold ct in Hc.
      revert Hc. generalize ct. clear. intros x Hx. revert x Hx.
      apply (proj1 (Forall_forall _ _)).
      repeat constructor; apply (bool_decide_unpack _); vm_compute; reflexivity.
    - pose proof (topic_cases content) as Hc. fold tt in Hc.
      revert Hc. generalize (tt.2). clear. intros x Hx. revert x Hx.
      apply (proj1 (Forall_forall _ _)).
      repeat constructor; apply (bool_decide_unpack _); vm_compute; reflexivity.
    - clear -Hx. revert x Hx. apply (proj1 (Forall_forall _ _)).
      repeat constructor; apply (bool_decide_unpack _); vm_compute; reflexivity. }
  destruct (SynthesizerProofs.cleaned_tags_join tags) as (_ & Hstrip & Hclean).
  { apply doc_tags_not_nil. }
  { eapply Forall_impl; [exact Hgood|]. by intros t [? _]. }
  exists q, a, category, (join_with 44 tags), p.
  split; [exact Hrow|].
  split; [by apply (bool_decide_unpack _); vm_compute|].
  split; [by vm_compute|]. split; [|split; [done|split; [done|]]].
  - intros Hin. apply TextFacts.elem_of_join_with in Hin as [?|(t & Ht & Hin)];
      [done|].
    rewrite Forall_forall in Hgood. by destruct (Hgood t Ht).
  - apply doc_priority_cases.
Qed.

Lemma process_entry_has_content e :
  is_Some (process_entry toupper_full lower e) ↔ Written.has_content e = true.
Proof.
  unfold process_entry, Written.has_content.
  destruct (fields e !! cps "content") as [[s|]|]; simpl;
    split; try done; by intros [? ?].
Qed.

Lemma omap_process_entry entries :
  length (omap (process_entry toupper_full lower) entries)
  = length (filter (λ e, Written.has_content e = true) entries)
  ∧ Forall (λ e, Written.tidy_row (row_of e) ∧ only_fieldnames e)
           (omap (process_entry toupper_full lower) entries).
Proof.
  induction entries as [|e entries [IH1 IH2]]; [done|].
  cbn [omap list_omap]. rewrite filter_cons.
  pose proof (process_entry_has_content e) as He.
  destruct (process_entry toupper_full lower e) as [e'|] eqn:Hp.
  - rewrite decide_True by (by apply He).
    split; [simpl; by rewrite IH1|]. constructor; [|done].
    unfold process_entry in Hp.
    destruct (fields e !! cps "content") as [[s|]|]; try done.
    injection Hp as <-. apply doc_processed_row.
  - rewrite decide_False; [done|]. intros Hc. apply He in Hc. by destruct Hc.
Qed.

(** X15.  When the input file exists, [process_documentation_csv]
    either meets a cell longer than the field size limit, and then it
    raises the reader's exception again and writes nothing, or it writes
    the canonical header and one row for each row of the input that holds
    a string under [content]; without such a row it then fails on a
    division by zero, otherwise it returns.  The corpus it has written
    needs no repair: [validate_and_fix], with or without [fix], returns
    [True] on it and leaves it as it is. *)
Theorem documentation_corpus_validates (input_file output_file : text)
    (d : directory) (f : file) (fix_ : bool) :
  lookup_file input_file d = Some f →
  (¬ readable f →
   process_documentation_csv toupper_full lower input_file output_file d
   = (d, Some CsvError))
  ∧ (readable f →
     ∃ rows,
       (process_documentation_csv toupper_full lower input_file output_file d).1
       = write_file output_file (fieldnames :: rows) d
       ∧ length rows
         = length (filter (λ e, Written.has_content e = true)
                          (load_csv_file input_file d))
       ∧ (process_documentation_csv toupper_full lower input_file output_file d).2
         = match rows with [] => Some ZeroDivisionError | _ => None end
       ∧ validate_and_fix lower fix_ [(output_file, fieldnames :: rows)]
         = ([(output_file, fieldnames :: rows)], Ok true)).
Proof.
  intros Hf. unfold process_documentation_csv, load_csv_file. rewrite Hf.
  split.
  - intros Hr%StoreProofs.csv_reader_unreadable.
    destruct (csv_reader f) as [read raised]. simpl in Hr. by subst.
  - intros Hr. rewrite (StoreProofs.csv_reader_readable f Hr). cbv zeta.
    cbn [fst].
    destruct (omap_process_entry (dict_reader (map (map universal_newlines) f)))
      as [Hlen Hall].
    set (es := omap (process_entry toupper_full lower) _) in *.
    rewrite (StoreProofs.writerows_accepted es [fieldnames]).
    2:{ eapply Forall_impl; [exact Hall|]. by intros e [_ ?]. }
    exists (map row_of es). cbn [fst snd app].
    split; [done|]. split; [by rewrite length_map|]. split; [by destruct es|].
    apply (SynthesizerProofs.tidy_corpus_validates lower lower_ascii).
    apply Forall_fmap.
    eapply Forall_impl; [exact Hall|]. by intros e [? _].
Qed.

End DocPipeline.

End DocumentationProofs.

(** ** The files of the character normalizer *)

Module FixerProofs.
Import Normalizer Manager Fixer Clean.

(** *** Texts *)

Lemma elem_of_fix_loop table t changes x :
  x ∈ (fix_loop table t changes).1 → x ∈ t ∨ ∃ cr, cr ∈ table ∧ x ∈ cr.2.
Proof.
  revert t changes. induction table as [|[c r] table IH]; intros t changes; simpl.
  - by left.
  - destruct (char_in c t).
    + intros [Hx|(cr & Hcr & Hx)]%IH.
      * apply NormalizerProofs.elem_of_str_replace in Hx as [[Hx _]|Hx];
          [by left|]. right. exists (c, r). split; [left|done].
      * right. exists cr. split; [by right|done].
    + intros [Hx|(cr & Hcr & Hx)]%IH; [by left|].
      right. exists cr. split; [by right|done].
Qed.

Lemma fix_text_no_cr t : 13 ∉ t → 13 ∉ (fix_text t).1.
Proof.
  intros Ht. unfold fix_text. destruct t as [|c t]; [done|].
  intros [?|(cr & Hcr & Hx)]%elem_of_fix_loop; [done|].
  revert cr Hcr Hx. apply (proj1 (Forall_forall (λ cr : N * text, 13 ∉ cr.2) _)).
  repeat constructor; by apply (bool_decide_unpack _); vm_compute.
Qed.

Lemma fix_field_cell v :
  clean (cell_of (fix_field <$> v))
  ∧ (13 ∉ cell_of v → 13 ∉ cell_of (fix_field <$> v)).
Proof.
  destruct v as [[s|]|];
    cbn [fmap option_fmap option_map fix_field cell_of];
    try (split; [constructor|done]).
  destruct (nonempty s) eqn:Hs; cbn [cell_of].
  - split; [apply NormalizerProofs.fix_text_clean|apply fix_text_no_cr].
  - destruct s; [|done]. split; [constructor|done].
Qed.

Lemma fix_field_clean s : clean s → fix_field (Str s) = Str s.
Proof.
  intros Hs. simpl. destruct (nonempty s); [|done].
  by rewrite (NormalizerProofs.fix_text_of_clean s Hs).
Qed.

(** *** Row dictionaries *)

Lemma dict_of_row_forall (P : text → Prop) names (r : row) :
  Forall P r → ∀ k s, fields (dict_of_row names r) !! k = Some (Str s) → P s.
Proof.
  intros Hr. unfold dict_of_row. simpl.
  assert (∀ (ks : list text) (m : gmap text value),
            (∀ k s, m !! k = Some (Str s) → P s) →
            ∀ k s, fold_left (λ m k, <[k:=NoneV]> m) ks m !! k = Some (Str s) →
                   P s) as Hnone.
  { induction ks as [|k0 ks IH]; intros m Hm; simpl; [done|].
    apply IH. intros k s. rewrite lookup_insert. case_decide; [done|apply Hm]. }
  apply Hnone.
  assert (∀ (kvs : list (text * text)) (m : gmap text value),
            Forall (λ kv, P kv.2) kvs →
            (∀ k s, m !! k = Some (Str s) → P s) →
            ∀ k s, fold_left (λ m kv, <[kv.1:=Str kv.2]> m) kvs m !! k
                   = Some (Str s) → P s) as Hstr.
  { induction kvs as [|kv kvs IH]; intros m Hkvs Hm; simpl; [done|].
    apply Forall_cons in Hkvs as [Hkv Hkvs].
    apply IH; [done|]. intros k s. rewrite lookup_insert.
    case_decide; [by intros [= <-]|apply Hm]. }
  apply Hstr; [|by intros k s; rewrite lookup_empty].
  apply Forall_forall. intros [k c] Hin. simpl.
  rewrite Forall_forall in Hr. apply Hr.
  apply elem_of_zip_r in Hin. done.
Qed.

Lemma dict_of_row_dom names (r : row) :
  dom (fields (dict_of_row names r)) ⊆@{gset text} list_to_set names.
Proof.
  unfold dict_of_row. simpl.
  assert (∀ (ks : list text) (m : gmap text value),
            dom m ⊆@{gset text} list_to_set names →
            Forall (λ k, k ∈ names) ks →
            dom (fold_left (λ m k, <[k:=NoneV]> m) ks m)
            ⊆@{gset text} list_to_set names) as Hnone.
  { induction ks as [|k0 ks IH]; intros m Hm Hks; simpl; [done|].
    apply Forall_cons in Hks as [Hk Hks]. apply IH; [|done].
    rewrite dom_insert. apply union_least; [|done].
    apply singleton_subseteq_l. by apply elem_of_list_to_set. }
  apply Hnone.
  - assert (∀ (kvs : list (text * text)) (m : gmap text value),
              dom m ⊆@{gset text} list_to_set names →
              Forall (λ kv, kv.1 ∈ names) kvs →
              dom (fold_left (λ m kv, <[kv.1:=Str kv.2]> m) kvs m)
              ⊆@{gset text} list_to_set names) as Hstr.
    { induction kvs as [|kv kvs IH]; intros m Hm Hkvs; simpl; [done|].
      apply Forall_cons in Hkvs as [Hk Hkvs]. apply IH; [|done].
      rewrite dom_insert. apply union_least; [|done].
      apply singleton_subseteq_l. by apply elem_of_list_to_set. }
    apply Hstr.
    + rewrite dom_empty. apply empty_subseteq.
    + apply Forall_forall. intros [k c] Hin. simpl.
      by apply elem_of_zip_l in Hin.
  - apply Forall_forall. intros k Hk.
    apply (subseteq_drop (length r)). done.
Qed.

Lemma dict_of_row_overflow names (r : row) :
  overflow (dict_of_row names r) = None ↔ (length r ≤ length names)%nat.
Proof.
  unfold dict_of_row. simpl.
  destruct (length names <? length r)%nat eqn:E.
  - apply Nat.ltb_lt in E. split; [done|lia].
  - apply Nat.ltb_ge in E. done.
Qed.

(** The row written for a dictionary, read back under the same names. *)
Lemma lookup_zip_fold (names : list text) (f : text → text)
    (m : gmap text value) (k : text) :
  fold_left (λ m kv, <[kv.1:=Str kv.2]> m) (zip names (map f names)) m !! k
  = if decide (k ∈ names) then Some (Str (f k)) else m !! k.
Proof.
  revert m. induction names as [|n names IH]; intros m.
  - by case_decide as H; [apply elem_of_nil in H|].
  - cbn [map zip zip_with fold_left fst snd]. rewrite IH.
    destruct (decide (k ∈ names)) as [Hin|Hout].
    + by rewrite decide_True by (by right).
    + rewrite lookup_insert. destruct (decide (n = k)) as [->|Hne].
      * by rewrite decide_True by left.
      * rewrite decide_False; [done|].
        intros [?|?]%elem_of_cons; [by subst|done].
Qed.

Lemma reload_row (names : list text) (e : entry) (k : text) :
  fields (dict_of_row names (row_for names e)) !! k
  = if decide (k ∈ names) then Some (Str (cell_of (fields e !! k))) else None.
Proof.
  unfold dict_of_row, row_for. simpl. rewrite length_map, drop_all. simpl.
  rewrite (lookup_zip_fold names (λ k, cell_of (fields e !! k))).
  by rewrite lookup_empty.
Qed.

Lemma reload_overflow names e :
  overflow (dict_of_row names (row_for names e)) = None.
Proof. apply dict_of_row_overflow. unfold row_for. by rewrite length_map. Qed.

(** *** The two loops of [fix_csv_file] *)

Lemma fix_rows_fixed rows :
  Forall (λ e, overflow e = None) rows →
  fix_rows rows = Ok (map fixed_entry rows).
Proof.
  induction 1 as [|e rows He Hrows IH]; [done|].
  simpl. unfold fix_row. by rewrite He, IH.
Qed.

Lemma fix_row_overflow e e' :
  fix_row e = Ok e' → overflow e' = overflow e.
Proof.
  unfold fix_row. destruct (overflow e) as [cells|]; [|by intros [= <-]].
  unfold fix_cells. destruct (existsb _ _); [done|]. by intros [= <-].
Qed.

Lemma fix_rows_overflow rows fixed :
  fix_rows rows = Ok fixed → Forall2 (λ e e', overflow e' = overflow e) rows fixed.
Proof.
  revert fixed. induction rows as [|e rows IH]; intros fixed; simpl.
  - intros [= <-]. constructor.
  - destruct (fix_row e) as [e'|x] eqn:He; [|done].
    destruct (fix_rows rows) as [fixed'|x]; [|done].
    intros [= <-]. constructor; [by apply fix_row_overflow|by apply IH].
Qed.

Lemma writerows_for_accepted names entries written :
  Forall (accepted names) entries →
  writerows_for names entries written
  = (written ++ map (row_for names) entries, Ok tt).
Proof.
  intros H. revert written.
  induction H as [|e entries He Hes IH]; intros written; simpl.
  - by rewrite app_nil_r.
  - rewrite decide_True by done. rewrite IH. by rewrite <- app_assoc.
Qed.

Lemma writerows_for_ok_inv names entries written content u :
  writerows_for names entries written = (content, Ok u) →
  Forall (accepted names) entries.
Proof.
  revert written. induction entries as [|e entries IH]; intros written; simpl.
  - constructor.
  - destruct (decide (accepted names e)); [|done].
    intros H. constructor; [done|by apply IH in H].
Qed.

Lemma loaded_dom names rows :
  Forall (λ e, dom (fields e) ⊆@{gset text} list_to_set names)
         (map (dict_of_row names) rows).
Proof. apply Forall_fmap, Forall_true. intros r. apply dict_of_row_dom. Qed.

Lemma fixed_entry_accepted names e :
  dom (fields e) ⊆@{gset text} list_to_set names → accepted names (fixed_entry e).
Proof. intros H. split; [done|]. simpl. by rewrite dom_fmap_L. Qed.

(** What [fix_csv_file] does to a file, case by case. *)
Lemma fix_csv_file_cases (path : text) (backup : bool) (d : directory)
    (f : file) :
  lookup_file path d = Some f →
  let d1 := if backup then write_file (backup_path path) f d else d in
  match csv_reader f with
  | ([], raised) =>
      fix_csv_file path backup d
      = (if raised then d1 else write_file path [] d1, Some false)
  | (names :: rows, raised) =>
      let loaded := map (dict_of_row names) (filter (λ r, r ≠ []) rows) in
      if decide (Forall (λ r, (length r ≤ length names)%nat) rows)
      then fix_csv_file path backup d
           = if raised then (d1, Some false)
             else (write_file path
                     (names :: map (row_for names) (map fixed_entry loaded)) d1,
                   Some true)
      else (fix_csv_file path backup d).2 = Some false
  end.
Proof.
  intros Hf d1. unfold fix_csv_file. rewrite Hf. fold d1.
  destruct (csv_reader f) as [[|names rows] raised]; [by destruct raised|].
  cbv zeta.
  set (loaded := map (dict_of_row names) (filter (λ r, r ≠ []) rows)).
  destruct (decide (Forall (λ r, (length r ≤ length names)%nat) rows))
    as [Hshort|Hlong].
  - assert (Forall (λ e, overflow e = None) loaded) as Hover.
    { apply Forall_fmap. apply Forall_forall.
      intros r [_ Hr]%list_elem_of_filter. simpl.
      apply dict_of_row_overflow. rewrite Forall_forall in Hshort.
      by apply Hshort. }
    rewrite (fix_rows_fixed loaded Hover). destruct raised; [done|].
    rewrite writerows_for_accepted; [done|].
    apply Forall_fmap. pose proof (loaded_dom names (filter (λ r, r ≠ []) rows)) as Hd.
    eapply Forall_impl; [exact Hd|]. intros e He. by apply fixed_entry_accepted.
  - destruct (fix_rows loaded) as [fixed|x] eqn:Hfix; [|done].
    destruct raised; [done|].
    destruct (writerows_for names fixed [names]) as [content [u|x]] eqn:Hw;
      [|done].
    exfalso. apply Hlong.
    apply writerows_for_ok_inv in Hw. apply fix_rows_overflow in Hfix.
    apply Forall_forall. intros r Hr.
    destruct (decide (r = [])) as [->|Hne]; [simpl; lia|].
    apply dict_of_row_overflow.
    assert (dict_of_row names r ∈ loaded) as Hin.
    { apply list_elem_of_fmap. exists r. split; [done|].
      by apply list_elem_of_filter. }
    apply list_elem_of_lookup in Hin as [i Hi].
    destruct (Forall2_lookup_l _ _ _ _ _ Hfix Hi) as (e' & Hi' & <-).
    rewrite Forall_forall in Hw.
    by destruct (Hw e' (list_elem_of_lookup_2 _ _ _ Hi')).
Qed.


(** *** The directory *)

Lemma lookup_write_file_ne p q (content : file) d :
  p ≠ q → lookup_file p (write_file q content d) = lookup_file p d.
Proof.
  intros Hne. induction d as [|[name f] d IH]; simpl.
  - by rewrite decide_False by done.
  - destruct (decide (name = q)) as [->|Hq]; simpl.
    + by rewrite !decide_False by done.
    + by rewrite IH.
Qed.

Lemma backup_path_ne path : backup_path path ≠ path.
Proof.
  unfold backup_path. intros H. apply (f_equal length) in H.
  rewrite length_app in H. simpl in H. lia.
Qed.

Lemma short_rows_reader names (rows : file) :
  Forall (λ r, (length r ≤ length (map universal_newlines names))%nat)
         (map (map universal_newlines) rows)
  ↔ Forall (λ r, (length r ≤ length names)%nat) rows.
Proof.
  rewrite Forall_fmap. apply Forall_iff. intros r. simpl.
  by rewrite !length_map.
Qed.

(** X16.  [fix_csv_file] returns [True] exactly when the file exists,
    has a header row, no cell longer than the field size limit of the
    reader, and no row with more cells than the header, blank lines left
    aside. *)
Theorem fix_csv_file_succeeds_iff (path : text) (backup : bool) (d : directory) :
  (fix_csv_file path backup d).2 = Some true
  ↔ ∃ names rows,
      lookup_file path d = Some (names :: rows)
      ∧ readable (names :: rows)
      ∧ Forall (λ r, (length r ≤ length names)%nat) rows.
Proof.
  destruct (lookup_file path d) as [f|] eqn:Hf.
  - pose proof (fix_csv_file_cases path backup d f Hf) as Hcases.
    cbv zeta in Hcases.
    destruct (decide (readable f)) as [Hr|Hr].
    + rewrite (StoreProofs.csv_reader_readable f Hr) in Hcases.
      destruct f as [|names rows]; simpl in Hcases.
      * rewrite Hcases. simpl. split; [done|]. by intros (? & ? & [=] & _).
      * destruct (decide _) as [Hshort|Hlong] in Hcases.
        -- rewrite Hcases. simpl. split; [|done]. intros _.
           exists names, rows. split; [done|]. split; [done|].
           by apply short_rows_reader.
        -- rewrite Hcases. split; [done|].
           intros (? & ? & [= <- <-] & _ & Hshort).
           by apply short_rows_reader in Hshort.
    + apply StoreProofs.csv_reader_unreadable in Hr as Hraised.
      assert ((fix_csv_file path backup d).2 = Some false) as ->.
      { destruct (csv_reader f) as [[|names rows] raised];
          simpl in Hraised; subst raised; [by rewrite Hcases|].
        destruct (decide _) in Hcases; by rewrite Hcases. }
      split; [done|]. by intros (? & ? & [= <-] & ? & _).
  - unfold fix_csv_file. rewrite Hf. split.
    + by destruct backup.
    + by intros (? & ? & [=] & _).
Qed.

(** X17.  With [backup] the file as it was is always found under the
    backup name afterwards, whatever [fix_csv_file] returns, and no other
    file is touched. *)
Theorem fix_csv_file_keeps_backup (path : text) (d : directory) (f : file) :
  lookup_file path d = Some f →
  lookup_file (backup_path path) (fix_csv_file path true d).1 = Some f
  ∧ ∀ other, other ≠ path → other ≠ backup_path path →
             lookup_file other (fix_csv_file path true d).1
             = lookup_file other d.
Proof.
  intros Hf.
  assert (∀ content,
            lookup_file (backup_path path)
              (write_file path content (write_file (backup_path path) f d))
            = Some f) as Hb.
  { intros content. rewrite lookup_write_file_ne by apply backup_path_ne.
    apply StoreProofs.lookup_write_file. }
  assert (∀ content other, other ≠ path → other ≠ backup_path path →
            lookup_file other
              (write_file path content (write_file (backup_path path) f d))
            = lookup_file other d) as Ho.
  { intros content other H1 H2. by rewrite !lookup_write_file_ne. }
  assert (lookup_file (backup_path path) (write_file (backup_path path) f d)
          = Some f
          ∧ ∀ other, other ≠ path → other ≠ backup_path path →
                     lookup_file other (write_file (backup_path path) f d)
                     = lookup_file other d) as Hkept.
  { split; [apply StoreProofs.lookup_write_file|].
    intros other _ H2. by rewrite lookup_write_file_ne. }
  unfold fix_csv_file. rewrite Hf.
  destruct (csv_reader f) as [[|names rows] raised].
  { destruct raised; [exact Hkept|by split; [apply Hb|apply Ho]]. }
  destruct (fix_rows _) as [fixed|x]; [|exact Hkept].
  destruct raised; [exact Hkept|].
  destruct (writerows_for names fixed [names]) as [content [u|x]];
    by split; [apply Hb|apply Ho].
Qed.

(** *** What is written *)

Lemma fields_fixed_entry e k :
  fields (fixed_entry e) !! k = fix_field <$> (fields e !! k).
Proof. unfold fixed_entry. cbn [fields]. apply lookup_fmap. Qed.

Lemma fixed_row_clean names e :
  Forall clean (row_for names (fixed_entry e)).
Proof.
  unfold row_for. apply Forall_fmap, Forall_true. intros k. simpl.
  rewrite lookup_fmap. apply fix_field_cell.
Qed.

Lemma fixed_row_no_cr names e :
  cr_free e → Forall (λ c, 13 ∉ c) (row_for names (fixed_entry e)).
Proof.
  intros He. unfold row_for. apply Forall_fmap, Forall_true. intros k. simpl.
  rewrite lookup_fmap. apply fix_field_cell. by apply ManagerProofs.cell_no_cr.
Qed.

(** The content of a file that [fix_csv_file] has repaired. *)
Lemma fix_csv_file_true path backup d d' :
  fix_csv_file path backup d = (d', Some true) →
  ∃ names (fixed : list entry),
    lookup_file path d' = Some (names :: map (row_for names) (map fixed_entry fixed))
    ∧ Forall (λ c, 13 ∉ c) names
    ∧ Forall cr_free fixed
    ∧ (names = [] → fixed = [])
    ∧ ∀ d0, lookup_file path d0 = Some (names :: map (row_for names) (map fixed_entry fixed)) →
            write_file path (names :: map (row_for names) (map fixed_entry fixed)) d0 = d0.
Proof.
  intros Hfix.
  destruct (lookup_file path d) as [f|] eqn:Hf.
  2:{ unfold fix_csv_file in Hfix. rewrite Hf in Hfix. by destruct backup. }
  pose proof (fix_csv_file_cases path backup d f Hf) as Hcases.
  cbv zeta in Hcases.
  pose proof (ManagerProofs.csv_reader_no_cr f) as Hcr.
  destruct (csv_reader f) as [[|names rows] raised];
    [by rewrite Hcases in Hfix|].
  apply Forall_cons in Hcr as [Hnames Hrows].
  destruct (decide _) as [Hshort|Hlong] in Hcases;
    [|by rewrite Hfix in Hcases].
  destruct raised; [by rewrite Hcases in Hfix|].
  rewrite Hcases in Hfix. injection Hfix as <-.
  exists names, (map (dict_of_row names) (filter (λ r, r ≠ []) rows)).
  split; [apply StoreProofs.lookup_write_file|]. split; [done|]. split; [|split].
  - apply Forall_fmap. apply Forall_forall.
    intros r [_ Hr]%list_elem_of_filter. simpl.
    apply ManagerProofs.dict_of_row_cr_free.
    rewrite Forall_forall in Hrows. by apply Hrows.
  - intros ->. assert (filter (λ r : row, r ≠ []) rows = []) as ->; [|done].
    apply GroupsProofs.filter_none. eapply Forall_impl; [exact Hshort|].
    intros r Hr Hne. simpl in Hr. destruct r; [done|simpl in Hr; lia].
  - intros d0 Hd0. by apply StoreProofs.write_file_same.
Qed.

(** A file without carriage returns is read as it stands, to its end
    when it is readable. *)
Lemma csv_reader_no_cr_id (f : file) :
  Forall (Forall (λ c, 13 ∉ c)) f → readable f → csv_reader f = (f, false).
Proof.
  intros Hcr Hr. apply StoreProofs.csv_reader_id.
  unfold readable in Hr. rewrite Forall_forall in Hcr, Hr.
  apply Forall_forall. intros r Hin.
  specialize (Hcr r Hin). specialize (Hr r Hin).
  rewrite Forall_forall in Hcr, Hr. apply Forall_forall. intros c Hc.
  split; [by apply Hcr|].
  rewrite <- (StoreProofs.universal_newlines_id c) by (by apply Hcr).
  by apply Hr.
Qed.

Lemma fixed_file_no_cr names (fixed : list entry) :
  Forall (λ c, 13 ∉ c) names → Forall cr_free fixed →
  Forall (Forall (λ c, 13 ∉ c))
         (names :: map (row_for names) (map fixed_entry fixed)).
Proof.
  intros Hnames Hcr. constructor; [done|]. do 2 apply Forall_fmap.
  eapply Forall_impl; [exact Hcr|]. intros e He. by apply fixed_row_no_cr.
Qed.

(** *** Analysis of what is clean *)

Lemma analyze_fields_clean row_num keys e st :
  (∀ k s, fields e !! k = Some (Str s) → clean s) →
  analyze_fields row_num keys e st = st.
Proof.
  intros He. revert st. induction keys as [|k keys IH]; intros st; simpl; [done|].
  rewrite IH. destruct (fields e !! k) as [[s|]|] eqn:Hk; try done.
  unfold analyze_field. destruct (nonempty s); [|done].
  by rewrite (NormalizerProofs.fix_text_of_clean s (He k s Hk)).
Qed.

Lemma analyze_rows_clean names row_num entries a :
  Forall clean_entry entries →
  analyze_rows names row_num entries a
  = Some (Analysis (file_path a) (total_rows a + length entries)
                   (rows_with_issues a) (total_replacements a)
                   (issues_by_field a) (sample_issues a)).
Proof.
  intros H. revert row_num a.
  induction H as [|e entries [Ho He] Hes IH]; intros row_num a; simpl.
  - destruct a. simpl. by rewrite Nat.add_0_r.
  - rewrite Ho. simpl. rewrite (analyze_fields_clean _ _ _ _ He). simpl.
    rewrite IH. simpl. do 2 f_equal. lia.
Qed.

(** A file on which the reader raises is left as it is. *)
Lemma fix_csv_file_unreadable path d f :
  lookup_file path d = Some f → ¬ readable f →
  fix_csv_file path false d = (d, Some false).
Proof.
  intros Hf Hr%StoreProofs.csv_reader_unreadable.
  unfold fix_csv_file. rewrite Hf.
  destruct (csv_reader f) as [[|names rows] raised];
    simpl in Hr; subst raised; [done|].
  by destruct (fix_rows _).
Qed.

Lemma analyze_csv_file_unreadable path d f :
  lookup_file path d = Some f → ¬ readable f → analyze_csv_file path d = None.
Proof.
  intros Hf Hr%StoreProofs.csv_reader_unreadable.
  unfold analyze_csv_file. rewrite Hf. cbv zeta.
  destruct (csv_reader f) as [[|names rows] raised];
    simpl in Hr; subst raised; [done|].
  by destruct (analyze_rows _ _ _ _).
Qed.

(** The repair of a corpus with one column and one cell. *)
Lemma fix_one_cell (c : text) :
  c ≠ [] → plain c →
  fix_csv_file Scenarios.kb_csv false (Samples.one_cell_dir c)
  = (Samples.one_cell_dir (fix_text c).1, Some true).
Proof.
  intros Hne Hc.
  assert (lookup_file Scenarios.kb_csv (Samples.one_cell_dir c)
          = Some [ [cps "question"]; [c] ]) as Hf.
  { unfold Samples.one_cell_dir. cbn [lookup_file]. by rewrite decide_True. }
  pose proof (fix_csv_file_cases Scenarios.kb_csv false _ _ Hf) as Hcases.
  cbv zeta in Hcases.
  rewrite StoreProofs.csv_reader_id in Hcases.
  2:{ constructor; [|constructor; [|constructor]].
      - constructor; [|constructor].
        by apply (bool_decide_unpack _); vm_compute.
      - constructor; [exact Hc|constructor]. }
  rewrite decide_True in Hcases by (repeat constructor).
  rewrite Hcases. f_equal.
  rewrite filter_cons_True by done. rewrite filter_nil.
  cbn [map]. unfold row_for. cbn [map].
  rewrite fields_fixed_entry.
  assert (fields (dict_of_row [cps "question"] [c]) !! cps "question"
          = Some (Str c)) as ->.
  { generalize c. intros c'. vm_compute. reflexivity. }
  cbn [fmap option_fmap option_map fix_field].
  apply ManagerProofs.nonempty_true in Hne. rewrite Hne. cbn [cell_of].
  unfold Samples.one_cell_dir. cbn [write_file]. by rewrite decide_True.
Qed.

(** X18.  After [fix_csv_file] has returned [True], the analysis of the
    file that it has written either finds nothing, no row with an issue,
    no field and no sample, or fails altogether; it fails exactly when a
    repaired cell is longer than the field size limit of the reader
    (some replacements are longer than the character that they
    replace).  The check that [process_files] makes after a repair can
    fail in no other way. *)
Theorem fixed_file_has_no_issues (path : text) (backup : bool)
    (d d' : directory) (f' : file) :
  fix_csv_file path backup d = (d', Some true) →
  lookup_file path d' = Some f' →
  (readable f' →
   ∃ a, analyze_csv_file path d' = Some a
        ∧ rows_with_issues a = 0%nat
        ∧ issues_by_field a = []
        ∧ sample_issues a = [])
  ∧ (¬ readable f' → analyze_csv_file path d' = None).
Proof.
  intros (names & fixed & Hd' & Hnames & Hcr & _ & _)%fix_csv_file_true.
  rewrite Hd'. intros [= <-]. unfold analyze_csv_file. rewrite Hd'.
  cbv zeta. split.
  - intros Hr. rewrite csv_reader_no_cr_id; [|by apply fixed_file_no_cr|done].
    rewrite analyze_rows_clean; [by eexists|].
    apply Forall_fmap. apply Forall_forall.
    intros r [_ Hr']%list_elem_of_filter.
    apply list_elem_of_fmap in Hr' as (e1 & -> & He1).
    apply list_elem_of_fmap in He1 as (e & -> & He).
    split; [apply reload_overflow|].
    apply dict_of_row_forall, fixed_row_clean.
  - intros Hr. pose proof (analyze_csv_file_unreadable path d' _ Hd' Hr) as Hnone.
    unfold analyze_csv_file in Hnone. by rewrite Hd' in Hnone.
Qed.

(** X19.  A second run of [fix_csv_file] on a file that a first run has
    repaired leaves the file as it is; it returns [True] again, unless a
    repaired cell is longer than the field size limit of the reader, in
    which case it returns [False]. *)
Theorem fix_csv_file_idempotent (path : text) (backup : bool)
    (d d' : directory) (f' : file) :
  fix_csv_file path backup d = (d', Some true) →
  lookup_file path d' = Some f' →
  fix_csv_file path false d' = (d', Some (bool_decide (readable f'))).
Proof.
  intros (names & fixed & Hd' & Hnames & Hcr & Hnil & Hsame)%fix_csv_file_true.
  rewrite Hd'. intros [= <-].
  pose proof (fix_csv_file_cases path false d' _ Hd') as Hcases.
  cbv zeta in Hcases.
  destruct (decide (readable (names :: map (row_for names) (map fixed_entry fixed))))
    as [Hr|Hr].
  2:{ rewrite bool_decide_eq_false_2 by done.
      by apply (fix_csv_file_unreadable path d' _ Hd'). }
  rewrite bool_decide_eq_true_2 by done.
  rewrite csv_reader_no_cr_id in Hcases; [|by apply fixed_file_no_cr|done].
  rewrite decide_True in Hcases.
  2:{ do 2 apply Forall_fmap. apply Forall_true. intros e. simpl.
      unfold row_for. by rewrite length_map. }
  rewrite Hcases. f_equal.
  set (rows1 := map (row_for names) (map fixed_entry fixed)) in *.
  assert (map (row_for names)
            (map fixed_entry
               (map (dict_of_row names) (filter (λ r, r ≠ []) rows1)))
          = rows1) as ->; [|by apply Hsame].
  destruct names as [|n names].
  { unfold rows1. by rewrite (Hnil eq_refl). }
  assert (filter (λ r : row, r ≠ []) rows1 = rows1) as ->.
  { unfold rows1. clear. induction fixed as [|e fixed IH]; [done|].
    simpl. rewrite filter_cons_True by done. by rewrite IH. }
  unfold rows1. rewrite <- !list_fmap_compose.
  apply list_fmap_ext. intros i e _. unfold compose.
  unfold row_for at 1. unfold row_for at 2.
  apply list_fmap_ext. intros j k Hk. cbv beta.
  rewrite (fields_fixed_entry (dict_of_row _ _)), reload_row.
  rewrite decide_True by (by eapply list_elem_of_lookup_2).
  cbn [fmap option_fmap option_map].
  rewrite fix_field_clean; [done|].
  rewrite fields_fixed_entry. apply fix_field_cell.
Qed.

(** *** Several files *)

Lemma fix_csv_file_returns path d f :
  lookup_file path d = Some f → is_Some (fix_csv_file path true d).2.
Proof.
  intros Hf. unfold fix_csv_file. rewrite Hf.
  destruct (csv_reader f) as [[|names rows] raised]; [by destruct raised|].
  destruct (fix_rows _) as [fixed|x]; [|by eexists].
  destruct raised; [by eexists|].
  destruct (writerows_for names fixed [names]) as [content [u|x]]; by eexists.
Qed.

(** X20.  In a dry run [process_files] writes nothing, makes no backup
    and lists no file as processed; and in either mode it returns its
    results: the exception that [fix_csv_file] raises for a missing file
    never leaves the loop, since only files that exist are repaired. *)
Theorem process_files_dry_run_reads_only :
  (∀ file_paths d res,
     ∃ res', process_files file_paths true d res = (d, Some res')
             ∧ files_processed res' = files_processed res)
  ∧ (∀ file_paths dry_run d res,
       is_Some (process_files file_paths dry_run d res).2).
Proof.
  split.
  - induction file_paths as [|path rest IH]; intros d res; simpl.
    + by exists res.
    + destruct (lookup_file path d); [|apply IH].
      destruct (analyze_csv_file path d) as [a|]; [|apply IH].
      destruct (0 <? rows_with_issues a)%nat.
      * destruct (IH d (Results (S (analyzed_files res))
                                (S (files_with_issues res))
                                (total_fixes_needed res + rows_with_issues a)
                                (files_processed res)))
          as (res' & -> & Hres').
        by exists res'.
      * destruct (IH d (Results (S (analyzed_files res)) (files_with_issues res)
                                (total_fixes_needed res) (files_processed res)))
          as (res' & -> & Hres').
        by exists res'.
  - induction file_paths as [|path rest IH]; intros dry_run d res; simpl.
    + by eexists.
    + destruct (lookup_file path d) as [f|] eqn:Hf; [|apply IH].
      destruct (analyze_csv_file path d) as [a|]; [|apply IH].
      destruct (0 <? rows_with_issues a)%nat; [|apply IH].
      destruct dry_run; [apply IH|].
      pose proof (fix_csv_file_returns path d f Hf) as [b Hb].
      destruct (fix_csv_file path true d) as [d' r]. simpl in Hb. subst r.
      destruct b; apply IH.
Qed.

End FixerProofs.

(** ** The further scenarios *)

Module SampleProofs.
Import Manager.

(** Without any keyword the tags are the two base tags. *)
Lemma generate_tags_bounded_witness :
  (length (Synthesizer.generate_tags Scenarios.lower_ascii_only
             (cps "X") [] [] []) < 5)%nat
  ∧ cps "datadog" ∈ Synthesizer.generate_tags Scenarios.lower_ascii_only
                      (cps "X") [] [] []
  ∧ cps "mulesoft" ∈ Synthesizer.generate_tags Scenarios.lower_ascii_only
                       (cps "X") [] [] [].
Proof.
  assert (length (Synthesizer.generate_tags Scenarios.lower_ascii_only
                    (cps "X") [] [] []) < 5)%nat as Hlen
    by (vm_compute; lia).
  split; [exact Hlen|].
  exact (proj2 (proj2 (proj2 (SynthesizerProofs.generate_tags_bounded
                                Scenarios.lower_ascii_only (cps "X") [] [] [])))
           Hlen).
Defined.

(** One article: one row, which validates. *)
Lemma processed_corpus_validates_witness :
  ∃ rows,
    lookup_file Samples.enhanced_csv
      (Synthesizer.process_knowledge_base Scenarios.lower_ascii_only
         Samples.raw_csv Samples.enhanced_csv Samples.raw_dir).1
    = Some (fieldnames :: rows)
    ∧ length rows = length (load_csv_file Samples.raw_csv Samples.raw_dir)
    ∧ validate_and_fix Scenarios.lower_ascii_only true
        [(Samples.enhanced_csv, fieldnames :: rows)]
      = ([(Samples.enhanced_csv, fieldnames :: rows)], Ok true).
Proof.
  apply (SynthesizerProofs.processed_corpus_validates
           Scenarios.lower_ascii_only ManagerProofs.lower_ascii_only_spec
           Samples.raw_csv Samples.enhanced_csv Samples.raw_dir _ true).
  vm_compute. reflexivity.
Defined.

(** Content without a line that is not blank. *)
Lemma extracted_title_is_clean_witness :
  Forall (λ line, strip line = []) (split_on 10 Samples.blank_content)
  ∧ Documentation.extract_title_and_topic Classifier.ascii_toupper_full
      Samples.blank_content
    = (cps "Documentation", cps "general").
Proof.
  assert (Forall (λ line, strip line = []) (split_on 10 Samples.blank_content))
    as Hblank by (repeat constructor).
  split; [exact Hblank|].
  exact (proj2 (proj2 (proj2 (proj2
           (DocumentationProofs.extracted_title_is_clean
              Classifier.ascii_toupper_full Samples.blank_content)))) Hblank).
Defined.

(** One page and one row without content: the input is read to its end
    and one row is written. *)
Lemma documentation_corpus_validates_witness :
  lookup_file Samples.web_csv Samples.web_dir = Some Samples.web_file
  ∧ readable Samples.web_file
  ∧ ∃ rows,
      (Documentation.process_documentation_csv Classifier.ascii_toupper_full
         Scenarios.lower_ascii_only Samples.web_csv Samples.enhanced_csv
         Samples.web_dir).1
      = write_file Samples.enhanced_csv (fieldnames :: rows) Samples.web_dir
      ∧ length rows
        = length (filter (λ e, Written.has_content e = true)
                         (load_csv_file Samples.web_csv Samples.web_dir))
      ∧ (Documentation.process_documentation_csv Classifier.ascii_toupper_full
           Scenarios.lower_ascii_only Samples.web_csv Samples.enhanced_csv
           Samples.web_dir).2
        = match rows with
          | [] => Some Documentation.ZeroDivisionError
          | _ => None
          end
      ∧ validate_and_fix Scenarios.lower_ascii_only false
          [(Samples.enhanced_csv, fieldnames :: rows)]
        = ([(Samples.enhanced_csv, fieldnames :: rows)], Ok true).
Proof.
  assert (lookup_file Samples.web_csv Samples.web_dir = Some Samples.web_file)
    as Hf by (vm_compute; reflexivity).
  assert (readable Samples.web_file) as Hr
    by (apply (bool_decide_unpack _); vm_compute; reflexivity).
  split; [exact Hf|]. split; [exact Hr|].
  exact (proj2 (DocumentationProofs.documentation_corpus_validates
                  Classifier.ascii_toupper_full Scenarios.lower_ascii_only
                  ManagerProofs.lower_ascii_only_spec
                  Samples.web_csv Samples.enhanced_csv Samples.web_dir
                  Samples.web_file false Hf) Hr).
Defined.

(** The page of the scenario, processed. *)
Example documentation_scenario :
  (Documentation.process_documentation_csv Classifier.ascii_toupper_full
     Scenarios.lower_ascii_only Samples.web_csv Samples.enhanced_csv
     Samples.web_dir)
  = (Samples.web_dir ++
       [(Samples.enhanced_csv,
         [ fieldnames;
           [ cps "What is Datadog Overview and how does it work?";
             cps "Datadog Overview Monitor your Mule apps.";
             cps "datadog-mulesoft-docs";
             cps "datadog,mulesoft,documentation,overview,monitoring";
             cps "high" ] ])],
     None).
Proof. vm_compute. reflexivity. Qed.

(** The corpus with quotes: the backup holds it as it was. *)
Lemma fix_csv_file_keeps_backup_witness :
  lookup_file (Fixer.backup_path Scenarios.kb_csv)
    (Fixer.fix_csv_file Scenarios.kb_csv true Samples.quotes_dir).1
  = lookup_file Scenarios.kb_csv Samples.quotes_dir.
Proof.
  assert (lookup_file Scenarios.kb_csv Samples.quotes_dir
          = Some [ [cps "question"; cps "answer"];
                   [[0x201c] ++ cps "hi" ++ [0x201d]; cps "5" ++ [0x20ac]];
                   [];
                   [cps "short"] ]) as Hf by (vm_compute; reflexivity).
  rewrite Hf.
  exact (proj1 (FixerProofs.fix_csv_file_keeps_backup Scenarios.kb_csv
                  Samples.quotes_dir _ Hf)).
Defined.

(** The corpus with quotes, repaired: the short row is padded, the blank
    line is gone. *)
Example fix_csv_file_scenario :
  Fixer.fix_csv_file Scenarios.kb_csv false Samples.quotes_dir
  = ([(Scenarios.kb_csv, Samples.quotes_fixed)], Some true).
Proof. vm_compute. reflexivity. Qed.

(** The repaired corpus is read to its end and its analysis finds
    nothing. *)
Lemma fixed_file_has_no_issues_witness :
  Fixer.fix_csv_file Scenarios.kb_csv false Samples.quotes_dir
  = ([(Scenarios.kb_csv, Samples.quotes_fixed)], Some true)
  ∧ readable Samples.quotes_fixed
  ∧ ∃ a, Fixer.analyze_csv_file Scenarios.kb_csv
           [(Scenarios.kb_csv, Samples.quotes_fixed)] = Some a
         ∧ Fixer.rows_with_issues a = 0%nat
         ∧ Fixer.issues_by_field a = []
         ∧ Fixer.sample_issues a = [].
Proof.
  assert (Fixer.fix_csv_file Scenarios.kb_csv false Samples.quotes_dir
          = ([(Scenarios.kb_csv, Samples.quotes_fixed)], Some true)) as Hfix
    by (vm_compute; reflexivity).
  assert (lookup_file Scenarios.kb_csv [(Scenarios.kb_csv, Samples.quotes_fixed)]
          = Some Samples.quotes_fixed) as Hf by (vm_compute; reflexivity).
  assert (readable Samples.quotes_fixed) as Hr
    by (apply (bool_decide_unpack _); vm_compute; reflexivity).
  split; [exact Hfix|]. split; [exact Hr|].
  exact (proj1 (FixerProofs.fixed_file_has_no_issues Scenarios.kb_csv false
                  Samples.quotes_dir _ _ Hfix Hf) Hr).
Defined.

(** The second run on the repaired corpus. *)
Lemma fix_csv_file_idempotent_witness :
  Fixer.fix_csv_file Scenarios.kb_csv false Samples.quotes_dir
  = ([(Scenarios.kb_csv, Samples.quotes_fixed)], Some true)
  ∧ Fixer.fix_csv_file Scenarios.kb_csv false
      [(Scenarios.kb_csv, Samples.quotes_fixed)]
    = ([(Scenarios.kb_csv, Samples.quotes_fixed)], Some true).
Proof.
  assert (Fixer.fix_csv_file Scenarios.kb_csv false Samples.quotes_dir
          = ([(Scenarios.kb_csv, Samples.quotes_fixed)], Some true)) as Hfix
    by (vm_compute; reflexivity).
  assert (lookup_file Scenarios.kb_csv [(Scenarios.kb_csv, Samples.quotes_fixed)]
          = Some Samples.quotes_fixed) as Hf by (vm_compute; reflexivity).
  split; [exact Hfix|].
  exact (FixerProofs.fix_csv_file_idempotent Scenarios.kb_csv false
           Samples.quotes_dir _ _ Hfix Hf).
Defined.

(** A cell of 43691 ellipses is within the field size limit; its repair
    makes 131073 dots of it and returns [True]; the analysis of the
    repaired file then fails and a second repair returns [False]. *)
Example fix_csv_file_beyond_limit :
  Fixer.fix_csv_file Scenarios.kb_csv false
    (Samples.one_cell_dir Samples.ellipses)
  = (Samples.one_cell_dir Samples.dots, Some true)
  ∧ ¬ readable [ [cps "question"]; [Samples.dots] ]
  ∧ Fixer.analyze_csv_file Scenarios.kb_csv (Samples.one_cell_dir Samples.dots)
    = None
  ∧ Fixer.fix_csv_file Scenarios.kb_csv false (Samples.one_cell_dir Samples.dots)
    = (Samples.one_cell_dir Samples.dots, Some false).
Proof.
  assert (0 < Samples.ellipsis_count)%nat as Hpos
    by (unfold Samples.ellipsis_count; lia).
  assert (¬ readable [ [cps "question"]; [Samples.dots] ]) as Hr.
  { intros [_ [[Hd _]%Forall_cons _]%Forall_cons]%Forall_cons. revert Hd.
    unfold Samples.dots.
    rewrite StoreProofs.universal_newlines_id
      by (by intros [? _]%elem_of_replicate).
    unfold within_limit. rewrite length_replicate.
    intros Hd%N.leb_le. unfold Samples.ellipsis_count, field_size_limit in Hd.
    lia. }
  assert (lookup_file Scenarios.kb_csv (Samples.one_cell_dir Samples.dots)
          = Some [ [cps "question"]; [Samples.dots] ]) as Hf.
  { unfold Samples.one_cell_dir. cbn [lookup_file]. by rewrite decide_True. }
  split; [|split; [exact Hr|split]].
  - rewrite FixerProofs.fix_one_cell.
    + unfold Samples.ellipses, Samples.dots.
      by rewrite NormalizerProofs.fix_text_ellipses.
    + unfold Samples.ellipses. intros Hnil%(f_equal length).
      rewrite length_replicate in Hnil. simpl in Hnil. lia.
    + unfold Samples.ellipses. split.
      * by intros [? _]%elem_of_replicate.
      * unfold within_limit. rewrite length_replicate. apply N.leb_le.
        unfold Samples.ellipsis_count, field_size_limit. lia.
  - by apply (FixerProofs.analyze_csv_file_unreadable _ _ _ Hf).
  - by apply (FixerProofs.fix_csv_file_unreadable _ _ _ Hf).
Qed.

(** The analysis of the corpus with quotes before the repair. *)
Example analyze_scenario :
  ∃ a, Fixer.analyze_csv_file Scenarios.kb_csv Samples.quotes_dir = Some a
       ∧ Fixer.total_rows a = 2%nat
       ∧ Fixer.rows_with_issues a = 1%nat
       ∧ Fixer.issues_by_field a = [(cps "question", 1%nat); (cps "answer", 1%nat)]
       ∧ length (Fixer.sample_issues a) = 2%nat.
Proof. eexists. split; [vm_compute; reflexivity|]. by vm_compute. Qed.

End SampleProofs.
